(** * Codix: the round/session transaction engine

    A shallow embedding of the Cloud Functions of the code-breaking
    contest ([startRound], [assignSecretCode], [submitGuess],
    [requestHint], [confirmPayment], [finishRound]) and of the client-side
    code generator ([generateValidCode]), with the properties the design
    document states about them.

    Modelling conventions.
    - A Firestore collection is an association list from document ids to
      documents, listed in ascending id order, which is the order in which
      a query without [orderBy] returns its documents.
    - [db.runTransaction] runs its body against a snapshot of the store;
      the body's writes are buffered and applied, in order, when the body
      returns; an exception thrown by the body discards the buffer.
      Transactions are serializable, so concurrent calls are interleavings
      of whole transactions.
    - Inside a transaction every read must come before every write: the
      client library makes [transaction.get] throw once a write is
      buffered.  [snapshot] is such a read.  A body whose reads all come
      before its first write takes them from the snapshot bound at its
      start; a body that reads again after a write ([assignSecretCode],
      [confirmPayment]) calls [snapshot] again at that place, and throws
      there.
    - The functions are not the only writers of the database.  A run
      starts from any store that satisfies the invariants of the data
      model ([consistent]), the empty store being one.
    - [doc()] ids, [Math.random()] results, [new Date()] and
      [FieldValue.serverTimestamp()] are inputs of the operations.
      Timestamps are milliseconds as [Z]; JavaScript numbers that hold
      counters and digits are [Z]. *)

From Stdlib Require Import ZArith List String Ascii Bool Lia Permutation.
From Stdlib Require Import DecimalString.
From Stdlib Require QArith.
Import ListNotations.

Local Open Scope string_scope.
Local Open Scope list_scope.
Local Open Scope Z_scope.

(** ** Documents *)

Definition DocId := string.
Definition Timestamp := Z.
Definition Code := list Z.

Module Round.
Record t := mk {
  id : DocId;
  roundNumber : Z;
  isActive : bool;
  winnerCount : Z;
  maxWinners : Z;
  startTime : Timestamp;
  endTime : option Timestamp;
  secretCodesGenerated : bool
}.

(** [{ isActive: false, endTime: serverTimestamp() }] *)
Definition close (ts : Timestamp) (r : t) : t :=
  mk (id r) (roundNumber r) false (winnerCount r) (maxWinners r)
     (startTime r) (Some ts) (secretCodesGenerated r).

(** [{ winnerCount: FieldValue.increment(1) }] *)
Definition incrWinnerCount (r : t) : t :=
  mk (id r) (roundNumber r) (isActive r) (winnerCount r + 1) (maxWinners r)
     (startTime r) (endTime r) (secretCodesGenerated r).
End Round.

Module User.
Record t := mk {
  email : option string;
  createdAt : Timestamp;
  lastLogin : Timestamp;
  currentRoundId : option DocId;
  isWinnerInCurrentRound : bool;
  hintCount : Z;
  attemptsInCurrentRound : Z;
  selectedCode : list Z;
  revealedHintDigits : list Z;
  walletBalanceUsdt : Z;
  lastGuessAttempt : option Timestamp;
  lastHintRequest : option Timestamp
}.

(** [Array(7).fill(-1)] *)
Definition unselected : list Z := repeat (-1) 7.

(** The six round-scoped fields written together by [assignSecretCode]
    and by the reset of the round-closing winner. *)
Definition resetRound (rid : option DocId) (u : t) : t :=
  mk (email u) (createdAt u) (lastLogin u) rid false 0 0 unselected []
     (walletBalanceUsdt u) (lastGuessAttempt u) (lastHintRequest u).

(** [{ attemptsInCurrentRound: 0 }] *)
Definition resetAttempts (u : t) : t :=
  mk (email u) (createdAt u) (lastLogin u) (currentRoundId u)
     (isWinnerInCurrentRound u) (hintCount u) 0 (selectedCode u)
     (revealedHintDigits u) (walletBalanceUsdt u) (lastGuessAttempt u)
     (lastHintRequest u).

(** [{ attemptsInCurrentRound: increment(1), lastGuessAttempt: serverTimestamp() }] *)
Definition countAttempt (ts : Timestamp) (u : t) : t :=
  mk (email u) (createdAt u) (lastLogin u) (currentRoundId u)
     (isWinnerInCurrentRound u) (hintCount u) (attemptsInCurrentRound u + 1)
     (selectedCode u) (revealedHintDigits u) (walletBalanceUsdt u) (Some ts)
     (lastHintRequest u).

(** [{ isWinnerInCurrentRound: true }] *)
Definition markWinner (u : t) : t :=
  mk (email u) (createdAt u) (lastLogin u) (currentRoundId u) true
     (hintCount u) (attemptsInCurrentRound u) (selectedCode u)
     (revealedHintDigits u) (walletBalanceUsdt u) (lastGuessAttempt u)
     (lastHintRequest u).

(** [{ lastHintRequest: serverTimestamp() }] *)
Definition stampHintRequest (ts : Timestamp) (u : t) : t :=
  mk (email u) (createdAt u) (lastLogin u) (currentRoundId u)
     (isWinnerInCurrentRound u) (hintCount u) (attemptsInCurrentRound u)
     (selectedCode u) (revealedHintDigits u) (walletBalanceUsdt u)
     (lastGuessAttempt u) (Some ts).

(** [{ hintCount: increment(1), revealedHintDigits: newRevealedDigits }] *)
Definition mirrorHint (revealed : list Z) (u : t) : t :=
  mk (email u) (createdAt u) (lastLogin u) (currentRoundId u)
     (isWinnerInCurrentRound u) (hintCount u + 1) (attemptsInCurrentRound u)
     (selectedCode u) revealed (walletBalanceUsdt u) (lastGuessAttempt u)
     (lastHintRequest u).
End User.

Module UserCode.
Record t := mk {
  userId : DocId;
  roundId : DocId;
  secretCode : Code;
  isWinner : bool;
  attempts : Z;
  hintPurchases : Z;
  revealedDigits : list Z
}.

(** [{ attempts: increment(1) }] *)
Definition countAttempt (c : t) : t :=
  mk (userId c) (roundId c) (secretCode c) (isWinner c) (attempts c + 1)
     (hintPurchases c) (revealedDigits c).

(** [{ isWinner: true }] *)
Definition markWinner (c : t) : t :=
  mk (userId c) (roundId c) (secretCode c) true (attempts c)
     (hintPurchases c) (revealedDigits c).

(** [{ hintPurchases: increment(1), revealedDigits: newRevealedDigits }] *)
Definition reveal (revealed : list Z) (c : t) : t :=
  mk (userId c) (roundId c) (secretCode c) (isWinner c) (attempts c)
     (hintPurchases c + 1) revealed.
End UserCode.

Module Winner.
Record t := mk {
  roundId : DocId;
  userId : DocId;
  winnerNumber : Z;
  winningTime : Timestamp;
  secretCodeAtWin : Code
}.
End Winner.

Inductive PaymentStatus := pending | completed | failed.

Module Payment.
Record t := mk {
  userId : DocId;
  roundId : DocId;
  amountUsdt : QArith_base.Q;
  status : PaymentStatus;
  paymentInitiatedAt : Timestamp;
  hintProvided : bool;
  requestedDigitIndex : Z;
  transactionId : option string;
  paymentConfirmedAt : option Timestamp
}.

(** [{ status: 'completed', transactionId, paymentConfirmedAt: serverTimestamp() }] *)
Definition complete (txid : string) (ts : Timestamp) (p : t) : t :=
  mk (userId p) (roundId p) (amountUsdt p) completed (paymentInitiatedAt p)
     (hintProvided p) (requestedDigitIndex p) (Some txid) (Some ts).

(** [{ status: 'failed', paymentConfirmedAt: serverTimestamp() }] *)
Definition fail (ts : Timestamp) (p : t) : t :=
  mk (userId p) (roundId p) (amountUsdt p) failed (paymentInitiatedAt p)
     (hintProvided p) (requestedDigitIndex p) (transactionId p) (Some ts).

(** [{ hintProvided: true }] *)
Definition provideHint (p : t) : t :=
  mk (userId p) (roundId p) (amountUsdt p) (status p) (paymentInitiatedAt p)
     true (requestedDigitIndex p) (transactionId p) (paymentConfirmedAt p).
End Payment.

Definition PaymentStatus_eqb (a b : PaymentStatus) : bool :=
  match a, b with
  | pending, pending | completed, completed | failed, failed => true
  | _, _ => false
  end.

(** ** Collections *)

Definition Collection (A : Type) := list (DocId * A).

Section Collections.
Context {A : Type}.

(** [ref.get()]: the document stored under an id. *)
Fixpoint get_doc (k : DocId) (c : Collection A) : option A :=
  match c with
  | [] => None
  | (k', d) :: t => if String.eqb k k' then Some d else get_doc k t
  end.

(** [ref.set(d)]: creates the document, or replaces the one with that id;
    the collection stays in id order. *)
Fixpoint set_doc (k : DocId) (d : A) (c : Collection A) : Collection A :=
  match c with
  | [] => [(k, d)]
  | (k', d') :: t =>
      match String.compare k k' with
      | Lt => (k, d) :: c
      | Eq => (k, d) :: t
      | Gt => (k', d') :: set_doc k d t
      end
  end.

(** [ref.update(fields)]: fails when the document does not exist. *)
Fixpoint update_doc (k : DocId) (f : A -> A) (c : Collection A)
  : option (Collection A) :=
  match c with
  | [] => None
  | (k', d) :: t =>
      if String.eqb k k' then Some ((k', f d) :: t)
      else option_map (cons (k', d)) (update_doc k f t)
  end.

(** [collection.where(...)]: the matching documents, in id order. *)
Definition query (p : A -> bool) (c : Collection A) : Collection A :=
  filter (fun kv => p (snd kv)) c.

Definition keys (c : Collection A) : list DocId := map fst c.

Definition fresh (k : DocId) (c : Collection A) : Prop := ~ In k (keys c).

End Collections.

(** ** The store *)

Record Store := mkStore {
  rounds : Collection Round.t;
  users : Collection User.t;
  userCodes : Collection UserCode.t;
  winners : Collection Winner.t;
  payments : Collection Payment.t
}.

Definition emptyStore : Store := mkStore [] [] [] [] [].

Inductive Write :=
| SetRound (k : DocId) (d : Round.t)
| UpdateRound (k : DocId) (f : Round.t -> Round.t)
| SetUser (k : DocId) (d : User.t)
| UpdateUser (k : DocId) (f : User.t -> User.t)
| SetUserCode (k : DocId) (d : UserCode.t)
| UpdateUserCode (k : DocId) (f : UserCode.t -> UserCode.t)
| SetWinner (k : DocId) (d : Winner.t)
| SetPayment (k : DocId) (d : Payment.t)
| UpdatePayment (k : DocId) (f : Payment.t -> Payment.t).

Definition apply_write (w : Write) (s : Store) : option Store :=
  match w with
  | SetRound k d =>
      Some (mkStore (set_doc k d (rounds s)) (users s) (userCodes s) (winners s) (payments s))
  | UpdateRound k f =>
      option_map (fun c => mkStore c (users s) (userCodes s) (winners s) (payments s))
                 (update_doc k f (rounds s))
  | SetUser k d =>
      Some (mkStore (rounds s) (set_doc k d (users s)) (userCodes s) (winners s) (payments s))
  | UpdateUser k f =>
      option_map (fun c => mkStore (rounds s) c (userCodes s) (winners s) (payments s))
                 (update_doc k f (users s))
  | SetUserCode k d =>
      Some (mkStore (rounds s) (users s) (set_doc k d (userCodes s)) (winners s) (payments s))
  | UpdateUserCode k f =>
      option_map (fun c => mkStore (rounds s) (users s) c (winners s) (payments s))
                 (update_doc k f (userCodes s))
  | SetWinner k d =>
      Some (mkStore (rounds s) (users s) (userCodes s) (set_doc k d (winners s)) (payments s))
  | SetPayment k d =>
      Some (mkStore (rounds s) (users s) (userCodes s) (winners s) (set_doc k d (payments s)))
  | UpdatePayment k f =>
      option_map (fun c => mkStore (rounds s) (users s) (userCodes s) (winners s) c)
                 (update_doc k f (payments s))
  end.

Fixpoint apply_writes (ws : list Write) (s : Store) : option Store :=
  match ws with
  | [] => Some s
  | w :: ws' =>
      match apply_write w s with
      | Some s' => apply_writes ws' s'
      | None => None
      end
  end.

(** ** Errors and the transaction monad *)

Inductive FunctionsErrorCode :=
| unauthenticated | invalid_argument | not_found
| failed_precondition | resource_exhausted | internal.

Record HttpResponse := mkResponse { statusCode : Z; body : string }.

Inductive Exn :=
| HttpsError (code : FunctionsErrorCode) (message : string) (details : option string)
  (** [res.status(c).send(b); throw new Error(m)]: the response is already
      sent when the exception leaves the transaction body. *)
| Responded (r : HttpResponse) (message : string)
  (** The store rejected the commit (an [update] of a missing document). *)
| CommitFailed
  (** [transaction.get] after a write: an [Error] without a [code]. *)
| ReadAfterWrite.

Definition Result (A : Type) : Type := (Exn + A)%type.

(** A transaction body reads the snapshot and extends the write buffer. *)
Definition Tx (A : Type) : Type := Store -> list Write -> Result (A * list Write).

Definition ret {A} (a : A) : Tx A := fun _ ws => inr (a, ws).

Definition bind {A B} (m : Tx A) (k : A -> Tx B) : Tx B :=
  fun s ws =>
    match m s ws with
    | inl e => inl e
    | inr (a, ws') => k a s ws'
    end.

Definition throw {A} (e : Exn) : Tx A := fun _ _ => inl e.

(** [transaction.get]: the documents as they were when the transaction
    began; it throws once a write is buffered. *)
Definition snapshot : Tx Store :=
  fun s ws =>
    match ws with
    | [] => inr (s, ws)
    | _ :: _ => inl ReadAfterWrite
    end.

Definition write (w : Write) : Tx unit := fun _ ws => inr (tt, ws ++ [w]).

Notation "x <- m ;; k" := (bind m (fun x => k))
  (at level 61, m at next level, right associativity).
Notation "m ;; k" := (bind m (fun _ => k))
  (at level 61, right associativity).

Definition when_ (b : bool) (m : Tx unit) : Tx unit :=
  if b then m else ret tt.

Definition runTransaction {A} (body : Tx A) (s : Store) : Store * Result A :=
  match body s [] with
  | inl e => (s, inl e)
  | inr (a, ws) =>
      match apply_writes ws s with
      | Some s' => (s', inr a)
      | None => (s, inl CommitFailed)
      end
  end.

Definition orThrow {A} (o : option A) (e : Exn) : Tx A :=
  match o with
  | Some a => ret a
  | None => throw e
  end.

(** [error.message], when the text is fixed by this code base. *)
Definition exn_message (e : Exn) : option string :=
  match e with
  | HttpsError _ m _ => Some m
  | Responded _ m => Some m
  | CommitFailed => None
  | ReadAfterWrite =>
      Some "Firestore transactions require all reads to be executed before all writes."
  end.

(** ** Code generation *)

(** The value of the [k]-th evaluation of [Math.floor(Math.random() * 10)]. *)
Definition RandomSource := nat -> Z.

Definition randomDigit (rnd : RandomSource) (k : nat) : Z := rnd k mod 10.

(** [Array.from({ length }, () => Math.floor(Math.random() * 10))],
    drawing from position [pos] on. *)
Definition drawDigits (rnd : RandomSource) (pos len : nat) : list Z :=
  map (randomDigit rnd) (seq pos len).

(** [new Set(code).size] *)
Definition setSize (code : list Z) : nat := List.length (nodup Z.eq_dec code).

(** The loop of rule 2: [prev] is [code[i - 1]] ([None] at [i = 0]) and
    [count] is [consecutiveCount] on entry of iteration [i]; the result is
    [isValid] when the loop ends. *)
Fixpoint consecutiveScan (prev : option Z) (count : Z) (code : list Z) : bool :=
  match code with
  | [] => true
  | d :: rest =>
      let count' :=
        match prev with
        | Some p => if d =? p then count + 1 else 1
        | None => 1
        end in
      if 3 <? count' then false else consecutiveScan (Some d) count' rest
  end.

(** Server side: the do-while of [generateSecretCode].  One unit of fuel
    per iteration; [None] when the fuel runs out before a valid draw.
    Returns the code and the position of the next unused random value. *)
Fixpoint generateSecretCode (fuel : nat) (rnd : RandomSource) (pos : nat)
  : option (Code * nat) :=
  match fuel with
  | O => None
  | S fuel' =>
      let code := drawDigits rnd pos 7 in
      if Nat.eqb (setSize code) 1 then generateSecretCode fuel' rnd (pos + 7)
      else if consecutiveScan None 0 code then Some (code, (pos + 7)%nat)
      else generateSecretCode fuel' rnd (pos + 7)
  end.

(** [areCodesEqual] *)
Definition areCodesEqual (code1 code2 : Code) : bool :=
  if negb (Nat.eqb (List.length code1) 7) || negb (Nat.eqb (List.length code2) 7) then false
  else forallb (fun i => nth i code1 0 =? nth i code2 0) (seq 0 7).

(** Client side ([codeLogic]): digits are one-character strings. *)
Definition toString (z : Z) : string := NilZero.string_of_int (Z.to_int z).

Definition optString_eqb (a b : option string) : bool :=
  match a, b with
  | Some x, Some y => String.eqb x y
  | None, None => true
  | _, _ => false
  end.

(** [code[i]]: [None] is [undefined]. *)
Definition at_ (code : list string) (i : nat) : option string := nth_error code i.

Definition isValidConsecutive (code : list string) : bool :=
  if Nat.ltb (List.length code) 4 then true
  else forallb (fun i =>
         negb (optString_eqb (at_ code i) (at_ code (i + 1))
               && optString_eqb (at_ code i) (at_ code (i + 2))
               && optString_eqb (at_ code i) (at_ code (i + 3))))
       (seq 0 (List.length code - 3)).

Definition isNotAllSame (code : list string) : bool :=
  negb (forallb (fun digit => optString_eqb (Some digit) (at_ code 0)) code).

(** [Array.from({ length }, (_, i) => ((i + Date.now()) % 10).toString())];
    [%] is the truncating remainder. *)
Definition fallbackCode (len : nat) (now : Z) : list string :=
  map (fun i => toString (Z.rem (Z.of_nat i + now) 10)) (seq 0 len).

Fixpoint generateValidCode_loop (remaining : nat) (len : nat)
    (usedCodes : list string) (rnd : RandomSource) (pos : nat) (now : Z)
  : list string :=
  match remaining with
  | O => fallbackCode len now
  | S remaining' =>
      let code := map toString (drawDigits rnd pos len) in
      let codeStr := String.concat EmptyString code in
      if isNotAllSame code && isValidConsecutive code
         && negb (existsb (String.eqb codeStr) usedCodes)
      then code
      else generateValidCode_loop remaining' len usedCodes rnd (pos + len) now
  end.

Definition maxAttempts : nat := 1000.

Definition generateValidCode (len : nat) (usedCodes : list string)
    (rnd : RandomSource) (now : Z) : list string :=
  generateValidCode_loop maxAttempts len usedCodes rnd 0 now.

(** The two validity rules, stated on positions. *)
Definition allSame {A} (code : list A) : Prop :=
  forall i j x y, nth_error code i = Some x -> nth_error code j = Some y -> x = y.

Definition hasRun4 {A} (code : list A) : Prop :=
  exists i x,
    nth_error code i = Some x /\ nth_error code (i + 1) = Some x /\
    nth_error code (i + 2) = Some x /\ nth_error code (i + 3) = Some x.

Definition validCode {A} (code : list A) : Prop :=
  List.length code = 7%nat /\ ~ allSame code /\ ~ hasRun4 code.

(** ** Queries of the Cloud Functions *)

(** [rounds.where('isActive', '==', true).limit(1)] *)
Definition activeRoundQuery (s : Store) : option (DocId * Round.t) :=
  hd_error (query Round.isActive (rounds s)).

(** [userCodes.where('userId', '==', u).where('roundId', '==', r).limit(1)] *)
Definition userCodeQuery (u r : DocId) (s : Store) : option (DocId * UserCode.t) :=
  hd_error (query (fun c => String.eqb (UserCode.userId c) u
                            && String.eqb (UserCode.roundId c) r) (userCodes s)).

Fixpoint Code_eqb (a b : Code) : bool :=
  match a, b with
  | [], [] => true
  | x :: a', y :: b' => (x =? y) && Code_eqb a' b'
  | _, _ => false
  end.

(** [userCodes.where('roundId', '==', r).where('secretCode', '==', code)] *)
Definition existingCodeQuery (r : DocId) (code : Code) (s : Store)
  : Collection UserCode.t :=
  query (fun c => String.eqb (UserCode.roundId c) r
                  && Code_eqb (UserCode.secretCode c) code) (userCodes s).

(** [rounds.orderBy('roundNumber', 'desc').limit(1)]; among equal round
    numbers the document with the greatest id comes first. *)
Definition lastRoundQuery (s : Store) : option (DocId * Round.t) :=
  fold_left (fun best kv =>
               match best with
               | None => Some kv
               | Some b =>
                   if Round.roundNumber (snd b) <=? Round.roundNumber (snd kv)
                   then Some kv else best
               end) (rounds s) None.

Definition isEmpty {A} (l : list A) : bool :=
  match l with [] => true | _ => false end.

(** ** startRound *)

(** [endRound(roundId, transaction)] *)
Definition endRound (roundId : DocId) (ts : Timestamp) : Tx unit :=
  write (UpdateRound roundId (Round.close ts)).

Definition startRound_tx (ts : Timestamp) (newRoundId : DocId) : Tx unit :=
  s <- snapshot ;;
  newRoundNumber <-
    match lastRoundQuery s with
    | Some (lastId, lastRound) =>
        write (UpdateRound lastId (Round.close ts)) ;;
        ret (Round.roundNumber lastRound + 1)
    | None => ret 1
    end ;;
  write (SetRound newRoundId
           (Round.mk newRoundId newRoundNumber true 0 10 ts None false)).

Record StartRoundResponse := mkStartRoundResponse {
  sr_success : bool;
  sr_roundId : DocId;
  sr_message : string
}.

Definition startRound (ts : Timestamp) (newRoundId : DocId) (s : Store)
  : Store * Result StartRoundResponse :=
  let wrap e := HttpsError internal "Failed to start new round" (exn_message e) in
  match runTransaction (startRound_tx ts newRoundId) s with
  | (s', inr _) =>
      if String.eqb newRoundId EmptyString
      then (s', inl (wrap (HttpsError internal
                     "Failed to generate new round ID during transaction." None)))
      else (s', inr (mkStartRoundResponse true newRoundId
                       ("Round " ++ newRoundId ++ " started successfully.")))
  | (s', inl e) => (s', inl (wrap e))
  end.

(** ** assignSecretCode *)

Record Auth := mkAuth { uid : DocId; token_email : option string }.

(** The [while (!isUnique)] loop: one unit of fuel per iteration, and
    [gfuel] for each call of [generateSecretCode]. *)
Fixpoint uniqueCodeLoop (fuel gfuel : nat) (rnd : RandomSource) (pos : nat)
    (r : DocId) (s : Store) : option Code :=
  match fuel with
  | O => None
  | S fuel' =>
      match generateSecretCode gfuel rnd pos with
      | None => None
      | Some (generatedCode, pos') =>
          if isEmpty (existingCodeQuery r generatedCode s) then Some generatedCode
          else uniqueCodeLoop fuel' gfuel rnd pos' r s
      end
  end.

(** The body returns [None] when the generation loops run out of fuel;
    otherwise the active round id and [userHasExistingCode].  The user
    document is read after the new user code is written. *)
Definition assignSecretCode_tx (auth : Auth) (fuel gfuel : nat)
    (rnd : RandomSource) (ts : Timestamp) (newUserCodeId : DocId)
  : Tx (option (DocId * bool)) :=
  let userId := uid auth in
  s <- snapshot ;;
  activeRoundDoc <- orThrow (activeRoundQuery s)
      (HttpsError failed_precondition "No active round found." None) ;;
  let activeRoundId := fst activeRoundDoc in
  match userCodeQuery userId activeRoundId s with
  | Some _ => ret (Some (activeRoundId, true))
  | None =>
      match uniqueCodeLoop fuel gfuel rnd 0 activeRoundId s with
      | None => ret None
      | Some assignedCode =>
          write (SetUserCode newUserCodeId
                   (UserCode.mk userId activeRoundId assignedCode false 0 0 [])) ;;
          (* [transaction.get(userRef)], after the [set] above *)
          s2 <- snapshot ;;
          match get_doc userId (users s2) with
          | None =>
              write (SetUser userId
                       (User.mk (token_email auth) ts ts (Some activeRoundId)
                                false 0 0 User.unselected [] 0 None None))
          | Some _ =>
              write (UpdateUser userId (User.resetRound (Some activeRoundId)))
          end ;;
          ret (Some (activeRoundId, false))
      end
  end.

Record AssignResponse := mkAssignResponse {
  as_success : bool;
  as_roundId : DocId;
  as_message : string
}.

(** [None]: the call does not return within the fuel. *)
Definition assignSecretCode (auth : option Auth) (fuel gfuel : nat)
    (rnd : RandomSource) (ts : Timestamp) (newUserCodeId : DocId) (s : Store)
  : option (Store * Result AssignResponse) :=
  match auth with
  | None => Some (s, inl (HttpsError unauthenticated "User must be authenticated." None))
  | Some a =>
      match runTransaction (assignSecretCode_tx a fuel gfuel rnd ts newUserCodeId) s with
      | (_, inr None) => None
      | (s', inr (Some (activeRoundId, userHasExistingCode))) =>
          Some (s', inr (mkAssignResponse true activeRoundId
                  (if userHasExistingCode
                   then "Secret code already exists for the active round."
                   else "Secret code assigned for the active round.")))
      | (s', inl e) =>
          Some (s', inl (HttpsError internal "Failed to assign secret code."
                           (exn_message e)))
      end
  end.

(** ** submitGuess *)

Definition RATE_LIMIT_WINDOW_MS : Z := 60 * 1000.
Definition MAX_ATTEMPTS_PER_WINDOW : Z := 10.

(** Basic input validation of [data.code]. *)
Definition validGuessFormat (guessedCode : list Z) : bool :=
  Nat.eqb (List.length guessedCode) 7
  && forallb (fun num => (0 <=? num) && (num <=? 9)) guessedCode.

(** Anti-cheat: rate limiting for guess attempts. *)
Definition guessRateLimit (userId : DocId) (userData : User.t) (now : Timestamp)
  : Tx unit :=
  let attemptsCount := User.attemptsInCurrentRound userData in
  match User.lastGuessAttempt userData with
  | Some lastAttemptTime =>
      if now - lastAttemptTime <? RATE_LIMIT_WINDOW_MS then
        when_ (MAX_ATTEMPTS_PER_WINDOW <=? attemptsCount)
          (throw (HttpsError resource_exhausted
             "Too many guess attempts. Please wait a moment before trying again."
             None))
      else write (UpdateUser userId User.resetAttempts)
  | None => write (UpdateUser userId User.resetAttempts)
  end.

Record GuessOutcome := mkGuessOutcome {
  isCorrectGuess : bool;
  roundEnded : bool;
  winnerNumber : option Z
}.

Definition submitGuess_tx (userId : DocId) (guessedCode : list Z)
    (now ts : Timestamp) (newWinnerId : DocId) : Tx GuessOutcome :=
  s <- snapshot ;;
  activeRoundDoc <- orThrow (activeRoundQuery s)
      (HttpsError failed_precondition "No active round found." None) ;;
  let activeRoundData := snd activeRoundDoc in
  let activeRoundId := fst activeRoundDoc in
  userData <- orThrow (get_doc userId (users s))
      (HttpsError not_found "User data not found." None) ;;
  userCodeDoc <- orThrow (userCodeQuery userId activeRoundId s)
      (HttpsError failed_precondition
         "User has no code assigned for the current round." None) ;;
  let userCodeData := snd userCodeDoc in
  when_ (User.isWinnerInCurrentRound userData)
    (throw (HttpsError failed_precondition "You have already won in this round." None)) ;;
  when_ (UserCode.isWinner userCodeData)
    (throw (HttpsError failed_precondition "You have already won in this round." None)) ;;
  guessRateLimit userId userData now ;;
  write (UpdateUser userId (User.countAttempt ts)) ;;
  write (UpdateUserCode (fst userCodeDoc) UserCode.countAttempt) ;;
  let secretCode := UserCode.secretCode userCodeData in
  if areCodesEqual guessedCode secretCode then
    when_ (Round.maxWinners activeRoundData <=? Round.winnerCount activeRoundData)
      (throw (HttpsError failed_precondition
                "Round has already reached maximum winners." None)) ;;
    write (UpdateRound activeRoundId Round.incrWinnerCount) ;;
    write (UpdateUser userId User.markWinner) ;;
    write (UpdateUserCode (fst userCodeDoc) UserCode.markWinner) ;;
    let rank := Round.winnerCount activeRoundData + 1 in
    write (SetWinner newWinnerId (Winner.mk activeRoundId userId rank ts secretCode)) ;;
    if rank =? Round.maxWinners activeRoundData then
      endRound activeRoundId ts ;;
      write (UpdateUser userId (User.resetRound None)) ;;
      ret (mkGuessOutcome true true (Some rank))
    else ret (mkGuessOutcome true false (Some rank))
  else ret (mkGuessOutcome false false None).

Record GuessResponse := mkGuessResponse {
  sg_success : bool;
  sg_isCorrect : bool;
  sg_isWinner : bool;
  sg_roundEnded : bool;
  sg_winnerNumber : option Z;
  sg_message : string
}.

(** The [catch] of [submitGuess] and [requestHint]: errors with a [code]
    are re-thrown, others are wrapped. *)
Definition rethrow (wrapped : string) (e : Exn) : Exn :=
  match e with
  | Responded _ m => HttpsError internal wrapped (Some m)
  | ReadAfterWrite => HttpsError internal wrapped (exn_message ReadAfterWrite)
  | _ => e
  end.

Definition submitGuess (auth : option Auth) (guessedCode : list Z)
    (now ts : Timestamp) (newWinnerId : DocId) (s : Store)
  : Store * Result GuessResponse :=
  match auth with
  | None => (s, inl (HttpsError unauthenticated "User must be authenticated." None))
  | Some a =>
      if negb (validGuessFormat guessedCode) then
        (s, inl (HttpsError invalid_argument
                   "Invalid guessed code format. Must be an array of 7 digits." None))
      else
        match runTransaction (submitGuess_tx (uid a) guessedCode now ts newWinnerId) s with
        | (s', inr o) =>
            (s', inr (mkGuessResponse true (isCorrectGuess o) (isCorrectGuess o)
                        (roundEnded o) (winnerNumber o)
                        (if isCorrectGuess o
                         then "Congratulations! You guessed the code correctly!"
                         else "Incorrect code. Try again!")))
        | (s', inl e) => (s', inl (rethrow "Failed to submit guess." e))
        end
  end.

(** ** requestHint *)

Definition HINT_PRICE_USDT : QArith_base.Q := QArith_base.Qmake 1 2.
Definition MAX_HINTS_PER_ROUND : Z := 3.
Definition HINT_RATE_LIMIT_WINDOW_MS : Z := 10 * 1000.

(** [array.includes(x)] *)
Definition includes (l : list Z) (x : Z) : bool := existsb (Z.eqb x) l.

(** The indices 0..6 that are not in [revealedDigits]. *)
Definition availableIndices (revealed : list Z) : list Z :=
  filter (fun index => negb (includes revealed index)) (map Z.of_nat (seq 0 7)).

(** [pick] stands for the random draw: the chosen position is
    [Math.floor(Math.random() * availableIndices.length)], any position of
    the list. *)
Definition requestHint_tx (userId : DocId) (now ts : Timestamp) (pick : nat)
    (newPaymentId : DocId) : Tx unit :=
  s <- snapshot ;;
  userData <- orThrow (get_doc userId (users s))
      (HttpsError not_found "User data not found." None) ;;
  activeRoundDoc <- orThrow (activeRoundQuery s)
      (HttpsError failed_precondition "No active round found." None) ;;
  let activeRoundId := fst activeRoundDoc in
  userCodeDoc <- orThrow (userCodeQuery userId activeRoundId s)
      (HttpsError failed_precondition
         "User has no code assigned for the current round." None) ;;
  let userCodeData := snd userCodeDoc in
  when_ (User.isWinnerInCurrentRound userData || UserCode.isWinner userCodeData)
    (throw (HttpsError failed_precondition
              "You cannot request a hint after winning." None)) ;;
  let hintsUsed := UserCode.hintPurchases userCodeData in
  when_ (MAX_HINTS_PER_ROUND <=? hintsUsed)
    (throw (HttpsError resource_exhausted
              "You have reached the maximum number of hints for this round." None)) ;;
  when_ (match User.lastHintRequest userData with
         | Some lastHintRequestTime =>
             now - lastHintRequestTime <? HINT_RATE_LIMIT_WINDOW_MS
         | None => false
         end)
    (throw (HttpsError resource_exhausted
              "Please wait a moment before requesting another hint." None)) ;;
  let available := availableIndices (UserCode.revealedDigits userCodeData) in
  when_ (isEmpty available)
    (throw (HttpsError failed_precondition
              "All digits have already been revealed for your code." None)) ;;
  let randomIndex := (pick mod List.length available)%nat in
  let digitIndexToReveal := nth randomIndex available 0 in
  write (UpdateUser userId (User.stampHintRequest ts)) ;;
  write (SetPayment newPaymentId
           (Payment.mk userId activeRoundId HINT_PRICE_USDT pending ts false
                       digitIndexToReveal None None)).

Record HintResponse := mkHintResponse {
  rh_success : bool;
  rh_paymentInitiated : bool;
  rh_message : string;
  rh_amount : QArith_base.Q
}.

Definition requestHint (auth : option Auth) (now ts : Timestamp) (pick : nat)
    (newPaymentId : DocId) (s : Store) : Store * Result HintResponse :=
  match auth with
  | None => (s, inl (HttpsError unauthenticated "User must be authenticated." None))
  | Some a =>
      match runTransaction (requestHint_tx (uid a) now ts pick newPaymentId) s with
      | (s', inr _) =>
          (s', inr (mkHintResponse true true
                      "Hint request processed. Awaiting payment confirmation."
                      HINT_PRICE_USDT))
      | (s', inl e) => (s', inl (rethrow "Failed to request hint." e))
      end
  end.

(** ** confirmPayment *)

(** [const paymentVerifiedExternally = true] *)
Definition paymentVerifiedExternally : bool := true.

Fixpoint insertAsc (x : Z) (l : list Z) : list Z :=
  match l with
  | [] => [x]
  | y :: l' => if x <=? y then x :: l else y :: insertAsc x l'
  end.

(** [array.sort((a, b) => a - b)] *)
Definition sortAsc (l : list Z) : list Z := fold_right insertAsc [] l.

(** [newRevealedDigits] *)
Definition revealDigit (currentRevealedDigits : list Z) (requestedDigitIndex : Z)
  : list Z :=
  if includes currentRevealedDigits requestedDigitIndex
  then currentRevealedDigits
  else sortAsc (currentRevealedDigits ++ [requestedDigitIndex]).

Definition confirmPayment_tx (paymentId transactionId : string) (ts : Timestamp)
  : Tx unit :=
  s <- snapshot ;;
  paymentData <- orThrow (get_doc paymentId (payments s))
      (Responded (mkResponse 200 "Payment record not found internally.")
                 "Payment record not found.") ;;
  when_ (PaymentStatus_eqb (Payment.status paymentData) completed
         && Payment.hintProvided paymentData)
    (throw (Responded (mkResponse 200 "Payment already processed.")
                      "Payment already processed and hint provided.")) ;;
  when_ (negb (PaymentStatus_eqb (Payment.status paymentData) pending))
    (throw (Responded (mkResponse 200 "Payment is not in pending state.")
                      "Payment not in pending state.")) ;;
  when_ (negb paymentVerifiedExternally)
    (write (UpdatePayment paymentId (Payment.fail ts)) ;;
     throw (Responded (mkResponse 400 "External payment verification failed.")
                      "External payment verification failed.")) ;;
  write (UpdatePayment paymentId (Payment.complete transactionId ts)) ;;
  let userId := Payment.userId paymentData in
  let roundId := Payment.roundId paymentData in
  (* [transaction.get(userCodes...)], after the [update] above *)
  s2 <- snapshot ;;
  userCodeDoc <- orThrow (userCodeQuery userId roundId s2)
      (Responded (mkResponse 500 "Internal Error: User code not found.")
                 "User has no code assigned for this round.") ;;
  let currentRevealedDigits := UserCode.revealedDigits (snd userCodeDoc) in
  let requestedDigitIndex := Payment.requestedDigitIndex paymentData in
  when_ ((requestedDigitIndex <? 0) || (7 <=? requestedDigitIndex))
    (throw (Responded (mkResponse 500 "Internal Error: Invalid requested digit index.")
                      "Invalid requested digit index in payment record.")) ;;
  let newRevealedDigits := revealDigit currentRevealedDigits requestedDigitIndex in
  write (UpdateUserCode (fst userCodeDoc) (UserCode.reveal newRevealedDigits)) ;;
  write (UpdateUser userId (User.mirrorHint newRevealedDigits)) ;;
  write (UpdatePayment paymentId Payment.provideHint).

(** [req.body] fields are absent ([None]) or strings; the empty string is
    falsy.  The result lists the responses sent on [res], in order. *)
Definition falsy (x : option string) : bool :=
  match x with
  | None => true
  | Some v => String.eqb v EmptyString
  end.

Definition confirmPayment (paymentId transactionId : option string)
    (ts : Timestamp) (s : Store) : Store * list HttpResponse :=
  match paymentId, transactionId with
  | Some pid, Some txid =>
      if falsy paymentId || falsy transactionId then
        (s, [mkResponse 400 "Bad Request: Missing paymentId or transactionId."])
      else
        match runTransaction (confirmPayment_tx pid txid ts) s with
        | (s', inr _) => (s', [mkResponse 200 "Payment confirmed and hint provided."])
        | (s', inl (Responded r _)) => (s', [r])
        | (s', inl _) =>
            (s', [mkResponse 500
                    "Internal Server Error processing payment confirmation."])
        end
  | _, _ => (s, [mkResponse 400 "Bad Request: Missing paymentId or transactionId."])
  end.

(** ** finishRound *)

Definition finishRound_tx (roundId : DocId) (ts : Timestamp) : Tx unit :=
  s <- snapshot ;;
  roundData <- orThrow (get_doc roundId (rounds s))
      (HttpsError not_found "Round not found." None) ;;
  when_ (negb (Round.isActive roundData))
    (throw (HttpsError failed_precondition "Round is not active." None)) ;;
  endRound roundId ts.

Record FinishResponse := mkFinishResponse {
  fr_success : bool;
  fr_message : string
}.

Definition finishRound (roundId : option string) (ts : Timestamp) (s : Store)
  : Store * Result FinishResponse :=
  match roundId with
  | Some rid =>
      if falsy roundId then
        (s, inl (HttpsError invalid_argument "Round ID is required." None))
      else
        match runTransaction (finishRound_tx rid ts) s with
        | (s', inr _) =>
            (s', inr (mkFinishResponse true ("Round " ++ rid ++ " manually ended.")))
        | (s', inl e) => (s', inl (rethrow "Failed to manually finish round." e))
        end
  | None => (s, inl (HttpsError invalid_argument "Round ID is required." None))
  end.

(** ** Executions

    One step is one committed or aborted call.  Ids made by [doc()] are
    new in their collection. *)
Inductive step : Store -> Store -> Prop :=
| step_startRound ts newRoundId s :
    fresh newRoundId (rounds s) ->
    step s (fst (startRound ts newRoundId s))
| step_assignSecretCode auth fuel gfuel rnd ts newUserCodeId s s' r :
    fresh newUserCodeId (userCodes s) ->
    assignSecretCode auth fuel gfuel rnd ts newUserCodeId s = Some (s', r) ->
    step s s'
| step_submitGuess auth guessedCode now ts newWinnerId s :
    fresh newWinnerId (winners s) ->
    step s (fst (submitGuess auth guessedCode now ts newWinnerId s))
| step_requestHint auth now ts pick newPaymentId s :
    fresh newPaymentId (payments s) ->
    step s (fst (requestHint auth now ts pick newPaymentId s))
| step_confirmPayment paymentId transactionId ts s :
    step s (fst (confirmPayment paymentId transactionId ts s))
| step_finishRound roundId ts s :
    step s (fst (finishRound roundId ts s)).

(** Any number of steps. *)
Inductive steps : Store -> Store -> Prop :=
| steps_refl s : steps s s
| steps_step s s' s'' : steps s s' -> step s' s'' -> steps s s''.

(** ** Per-collection view of a write buffer *)

Fixpoint fold_writes {C} (f : Write -> C -> option C) (ws : list Write) (c : C)
  : option C :=
  match ws with
  | [] => Some c
  | w :: ws' =>
      match f w c with
      | Some c' => fold_writes f ws' c'
      | None => None
      end
  end.

Definition on_rounds (w : Write) (c : Collection Round.t) :=
  match w with
  | SetRound k d => Some (set_doc k d c)
  | UpdateRound k f => update_doc k f c
  | _ => Some c
  end.

Definition on_users (w : Write) (c : Collection User.t) :=
  match w with
  | SetUser k d => Some (set_doc k d c)
  | UpdateUser k f => update_doc k f c
  | _ => Some c
  end.

Definition on_userCodes (w : Write) (c : Collection UserCode.t) :=
  match w with
  | SetUserCode k d => Some (set_doc k d c)
  | UpdateUserCode k f => update_doc k f c
  | _ => Some c
  end.

Definition on_winners (w : Write) (c : Collection Winner.t) :=
  match w with
  | SetWinner k d => Some (set_doc k d c)
  | _ => Some c
  end.

Definition on_payments (w : Write) (c : Collection Payment.t) :=
  match w with
  | SetPayment k d => Some (set_doc k d c)
  | UpdatePayment k f => update_doc k f c
  | _ => Some c
  end.

(** ** Runs of guesses by one player *)

(** One call: the guess, [new Date()], the server timestamp of the commit
    and the id of the winner document it would create. *)
Definition GuessCall : Type := (list Z * Timestamp * Timestamp * DocId)%type.

Fixpoint submitGuesses (auth : option Auth) (calls : list GuessCall) (s : Store)
  : Store * list (Result GuessResponse) :=
  match calls with
  | [] => (s, [])
  | (guessedCode, now, ts, newWinnerId) :: rest =>
      let (s1, r) := submitGuess auth guessedCode now ts newWinnerId s in
      let (s2, rs) := submitGuesses auth rest s1 in
      (s2, r :: rs)
  end.

(** Each call comes less than one window after the recorded time of the
    attempt before it. *)
Fixpoint spaced (last : Timestamp) (calls : list GuessCall) : Prop :=
  match calls with
  | [] => True
  | (_, now, ts, _) :: rest => now - last < RATE_LIMIT_WINDOW_MS /\ spaced ts rest
  end.

(** The recorded time of the last call of a run. *)
Fixpoint lastStamp (last : Timestamp) (calls : list GuessCall) : Timestamp :=
  match calls with
  | [] => last
  | (_, _, ts, _) :: rest => lastStamp ts rest
  end.

(** The player can guess in the active round: the documents [submitGuess]
    loads exist, nobody has won yet on them, and the limiter's state is
    ([attempts], [last]). *)
Definition canGuess (s : Store) (userId rid ucid : DocId) (code : Code)
    (attempts : Z) (last : option Timestamp) : Prop :=
  NoDup (keys (userCodes s)) /\
  (exists r, activeRoundQuery s = Some (rid, r)) /\
  (exists u, get_doc userId (users s) = Some u /\
             User.isWinnerInCurrentRound u = false /\
             User.attemptsInCurrentRound u = attempts /\
             User.lastGuessAttempt u = last) /\
  (exists uc, userCodeQuery userId rid s = Some (ucid, uc) /\
              UserCode.isWinner uc = false /\
              UserCode.secretCode uc = code).

Definition wrongGuess (code : Code) (call : GuessCall) : Prop :=
  let '(guessedCode, _, _, _) := call in
  validGuessFormat guessedCode = true /\ areCodesEqual guessedCode code = false.

Definition incorrectResponse : GuessResponse :=
  mkGuessResponse true false false false None "Incorrect code. Try again!".

Definition tooManyAttempts : Exn :=
  HttpsError resource_exhausted
    "Too many guess attempts. Please wait a moment before trying again." None.

(** The value of [attemptsInCurrentRound] that the current attempt is
    counted on: the stored counter inside the window, zero otherwise. *)
Definition attemptsBase (u : User.t) (now : Timestamp) : Z :=
  match User.lastGuessAttempt u with
  | Some lastAttemptTime =>
      if now - lastAttemptTime <? RATE_LIMIT_WINDOW_MS
      then User.attemptsInCurrentRound u else 0
  | None => 0
  end.

Definition quotaReached : Exn :=
  HttpsError failed_precondition "Round has already reached maximum winners." None.

Definition alreadyProcessed : HttpResponse :=
  mkResponse 200 "Payment already processed.".

(** ** Invariants of the reachable stores *)

(** The ranks recorded for a round. *)
Definition ranksOf (rid : DocId) (ws : Collection Winner.t) : list Z :=
  map Winner.winnerNumber
      (filter (fun w => String.eqb (Winner.roundId w) rid) (map snd ws)).

Definition ranks (rid : DocId) (s : Store) : list Z := ranksOf rid (winners s).

(** Rounds and winners: unique round ids; each round's winner count is
    within its quota of 10; the ranks recorded for it are exactly
    1..winnerCount, each once; every winner belongs to a stored round. *)
Definition rw_inv (rs : Collection Round.t) (ws : Collection Winner.t) : Prop :=
  NoDup (keys rs) /\
  (forall k r, In (k, r) rs ->
     0 <= Round.winnerCount r <= Round.maxWinners r /\
     Round.maxWinners r = 10 /\
     NoDup (ranksOf k ws) /\
     (forall z, In z (ranksOf k ws) <-> 1 <= z <= Round.winnerCount r)) /\
  (forall k w, In (k, w) ws -> In (Winner.roundId w) (keys rs)).

Definition rounds_inv (s : Store) : Prop := rw_inv (rounds s) (winners s).

(** A round that is still active has room for a winner. *)
Definition open_inv (rs : Collection Round.t) : Prop :=
  NoDup (keys rs) /\
  (forall k r, In (k, r) rs -> Round.isActive r = true ->
               Round.winnerCount r < Round.maxWinners r).

(** User codes: unique document ids, and no two documents of one round
    hold the same secret code. *)
Definition uc_inv (cs : Collection UserCode.t) : Prop :=
  NoDup (keys cs) /\
  (forall k1 c1 k2 c2,
     In (k1, c1) cs -> In (k2, c2) cs -> k1 <> k2 ->
     UserCode.roundId c1 = UserCode.roundId c2 ->
     UserCode.secretCode c1 <> UserCode.secretCode c2).

Definition codes_inv (s : Store) : Prop := uc_inv (userCodes s).

(** What a transformation of a round document may change when a winner
    is recorded. *)
Definition countsOneWinner (f : Round.t -> Round.t) : Prop :=
  forall d, Round.winnerCount (f d) = Round.winnerCount d + 1 /\
            Round.maxWinners (f d) = Round.maxWinners d.

Definition keepsCounts (f : Round.t -> Round.t) : Prop :=
  forall d, Round.winnerCount (f d) = Round.winnerCount d /\
            Round.maxWinners (f d) = Round.maxWinners d.

Definition keepsCode (f : UserCode.t -> UserCode.t) : Prop :=
  forall d, UserCode.roundId (f d) = UserCode.roundId d /\
            UserCode.secretCode (f d) = UserCode.secretCode d.

Definition keepsHints (f : UserCode.t -> UserCode.t) : Prop :=
  forall d, UserCode.revealedDigits (f d) = UserCode.revealedDigits d /\
            UserCode.hintPurchases (f d) = UserCode.hintPurchases d.

Definition keepsOwner (f : UserCode.t -> UserCode.t) : Prop :=
  forall d, UserCode.userId (f d) = UserCode.userId d.

(** ** Stores that differ only in the stored secret codes *)

Definition sameButCode (c1 c2 : UserCode.t) : Prop :=
  UserCode.userId c1 = UserCode.userId c2 /\
  UserCode.roundId c1 = UserCode.roundId c2 /\
  UserCode.isWinner c1 = UserCode.isWinner c2 /\
  UserCode.attempts c1 = UserCode.attempts c2 /\
  UserCode.hintPurchases c1 = UserCode.hintPurchases c2 /\
  UserCode.revealedDigits c1 = UserCode.revealedDigits c2.

Definition sameButCodeAtWin (w1 w2 : Winner.t) : Prop :=
  Winner.roundId w1 = Winner.roundId w2 /\
  Winner.userId w1 = Winner.userId w2 /\
  Winner.winnerNumber w1 = Winner.winnerNumber w2 /\
  Winner.winningTime w1 = Winner.winningTime w2.

Definition pointwise {A} (R : A -> A -> Prop) (c1 c2 : Collection A) : Prop :=
  Forall2 (fun kv1 kv2 => fst kv1 = fst kv2 /\ R (snd kv1) (snd kv2)) c1 c2.

Definition lowEq (s1 s2 : Store) : Prop :=
  rounds s1 = rounds s2 /\
  users s1 = users s2 /\
  payments s1 = payments s2 /\
  pointwise sameButCode (userCodes s1) (userCodes s2) /\
  pointwise sameButCodeAtWin (winners s1) (winners s2).

(** Whether the guess equals the code the caller holds in the active
    round; [None] when there is no such code. *)
Definition guessVerdict (userId : DocId) (guessedCode : list Z) (s : Store)
  : option bool :=
  match activeRoundQuery s with
  | Some (rid, _) =>
      match userCodeQuery userId rid s with
      | Some (_, c) => Some (areCodesEqual guessedCode (UserCode.secretCode c))
      | None => None
      end
  | None => None
  end.

(** What a transaction body hands back to its caller, apart from the
    writes. *)
Definition outcome {A} (body : Tx A) (s : Store) : Result A :=
  match body s [] with
  | inl e => inl e
  | inr (a, _) => inr a
  end.

(** A write that the store accepts: an update names a document of the
    snapshot. *)
Definition write_ok (s : Store) (w : Write) : Prop :=
  match w with
  | UpdateRound k _ => In k (keys (rounds s))
  | UpdateUser k _ => In k (keys (users s))
  | UpdateUserCode k _ => In k (keys (userCodes s))
  | UpdatePayment k _ => In k (keys (payments s))
  | _ => True
  end.

Definition keysKept (s s' : Store) : Prop :=
  incl (keys (rounds s)) (keys (rounds s')) /\
  incl (keys (users s)) (keys (users s')) /\
  incl (keys (userCodes s)) (keys (userCodes s')) /\
  incl (keys (payments s)) (keys (payments s')).

(** * Client-side helpers *)

(** ** shuffleArray *)

(** [Math.floor(Math.random() * n)] for the successive calls of a run:
    call [k] yields [picks k mod n], any index below [n]. *)
Definition IndexSource := nat -> nat.

Fixpoint replaceAt {A} (i : nat) (v : A) (l : list A) : list A :=
  match l, i with
  | [], _ => []
  | _ :: rest, O => v :: rest
  | x :: rest, S i' => x :: replaceAt i' v rest
  end.

(** [[arr[i], arr[j]] = [arr[j], arr[i]]]: both elements are read first,
    then [arr[i]] and [arr[j]] are assigned, in this order.  The loop of
    [shuffleArray] only swaps positions of the array ([j <= i < length]);
    elsewhere the list is left as it is. *)
Definition swapAt {A} (i j : nat) (arr : list A) : list A :=
  match nth_error arr i, nth_error arr j with
  | Some x, Some y => replaceAt j x (replaceAt i y arr)
  | _, _ => arr
  end.

(** The loop [for (let i = newArr.length - 1; i > 0; i--)], entered with
    loop variable [i]; [k] counts the random draws made so far. *)
Fixpoint shuffleFrom {A} (i : nat) (picks : IndexSource) (k : nat)
    (newArr : list A) : list A :=
  match i with
  | O => newArr
  | S i' =>
      let j := (picks k mod (i + 1))%nat in
      shuffleFrom i' picks (S k) (swapAt i j newArr)
  end.

Definition shuffleArray {A} (picks : IndexSource) (array : list A) : list A :=
  shuffleFrom (List.length array - 1) picks 0 array.

(** ** The vault screen ([App]) *)

Definition CODE_LENGTH : nat := 7.
Definition MAX_HINTS : nat := 3.

(** [array.join('')] *)
Definition join (l : list string) : string := String.concat EmptyString l.

(** The test of [handleCheckCode]:
    [userInput.join('') === secretCode.join('')]. *)
Definition codesMatch (userInput secretCode : list string) : bool :=
  String.eqb (join userInput) (join secretCode).

(** [arr[i] = v] on an array whose elements may be [undefined] ([None]):
    past the end the array grows, the skipped positions reading as
    [undefined]. *)
Definition assignAt {A} (i : nat) (v : option A) (arr : list (option A))
  : list (option A) :=
  if (i <? List.length arr)%nat then replaceAt i v arr
  else arr ++ repeat None (i - List.length arr) ++ [v].

(** [applyHint]: the new values of [revealedIndices] and [userInput] (the
    old ones when the handler returns early).  [pick] stands for the
    random draw.  [secretCode[randomIndex]] is [undefined] past the end of
    [secretCode]. *)
Definition applyHint (secretCode : list string) (revealedIndices : list Z)
    (userInput : list (option string)) (pick : nat)
  : list Z * list (option string) :=
  if Nat.eqb (List.length secretCode) 0
     || Nat.leb MAX_HINTS (List.length revealedIndices)
  then (revealedIndices, userInput)
  else
    let available := availableIndices revealedIndices in
    if Nat.eqb (List.length available) 0 then (revealedIndices, userInput)
    else
      let randomIndex := nth (pick mod List.length available)%nat available 0 in
      let newRevealed := revealedIndices ++ [randomIndex] in
      let newUserInput :=
        assignAt (Z.to_nat randomIndex)
                 (nth_error secretCode (Z.to_nat randomIndex)) userInput in
      (newRevealed, newUserInput).

(** What the screen maintains about hints: at most [MAX_HINTS] positions
    of the code are revealed, each once, and the input shows the secret
    digit at every revealed position. *)
Definition hintsShown (secretCode : list string) (revealedIndices : list Z)
    (userInput : list (option string)) : Prop :=
  (List.length revealedIndices <= MAX_HINTS)%nat /\
  NoDup revealedIndices /\
  (forall i, In i revealedIndices -> 0 <= i < 7) /\
  List.length userInput = CODE_LENGTH /\
  (forall i, In i revealedIndices ->
     nth_error userInput (Z.to_nat i) = Some (nth_error secretCode (Z.to_nat i))).

(** ** DigitInput *)

(** [nextValue] of [handleIncrement] and [handleDecrement], from
    [numericValue]; [%] is the truncating remainder. *)
Definition handleIncrement (numericValue : Z) : Z := Z.rem (numericValue + 1) 10.
Definition handleDecrement (numericValue : Z) : Z := Z.rem (numericValue - 1 + 10) 10.

(** The draws of the two generators, and what makes the client accept one. *)
Definition serverDraw (rnd : RandomSource) (pos k : nat) : Code :=
  drawDigits rnd (pos + 7 * k) 7.

Definition clientDraw (len : nat) (rnd : RandomSource) (k : nat) : list string :=
  map toString (drawDigits rnd (k * len) len).

Definition acceptable (usedCodes : list string) (code : list string) : Prop :=
  ~ allSame code /\ ~ hasRun4 code /\ ~ In (join code) usedCodes.

(** * The documents an accepted call leaves behind *)

(** [c'] is [c] with the document under [k] replaced by [d]. *)
Definition replace_doc {A} (k : DocId) (d : A) (c c' : Collection A) : Prop :=
  update_doc k (fun _ => d) c = Some c'.

(** The user document after the limiter of [submitGuess] has run: the
    attempt counter is reset when the last attempt is a window old. *)
Definition afterLimiter (now : Timestamp) (u : User.t) : User.t :=
  match User.lastGuessAttempt u with
  | Some lastAttemptTime =>
      if now - lastAttemptTime <? RATE_LIMIT_WINDOW_MS then u
      else User.resetAttempts u
  | None => User.resetAttempts u
  end.

Definition correctResponse (ended : bool) (rank : Z) : GuessResponse :=
  mkGuessResponse true true true ended (Some rank)
    "Congratulations! You guessed the code correctly!".

Definition newRound (newRoundId : DocId) (n : Z) (ts : Timestamp) : Round.t :=
  Round.mk newRoundId n true 0 10 ts None false.

(** The user code and the user document that [assignSecretCode] queues
    for a player who is new to the round. *)
Definition newUserCode (userId roundId : DocId) (code : Code) : UserCode.t :=
  UserCode.mk userId roundId code false 0 0 [].

Definition newUser (auth : Auth) (roundId : DocId) (ts : Timestamp) : User.t :=
  User.mk (token_email auth) ts ts (Some roundId) false 0 0 User.unselected []
          0 None None.

Definition newPayment (userId roundId : DocId) (ts : Timestamp) (index : Z)
  : Payment.t :=
  Payment.mk userId roundId HINT_PRICE_USDT pending ts false index None None.

Definition isDigit (d : Z) : Prop := 0 <= d <= 9.

Definition hintRequested : HintResponse :=
  mkHintResponse true true
    "Hint request processed. Awaiting payment confirmation." HINT_PRICE_USDT.

Definition paymentConfirmed : HttpResponse :=
  mkResponse 200 "Payment confirmed and hint provided.".

(** ** The effect of one step

    What a call leaves in the store: nothing, when it is rejected or its
    transaction aborts (as every [assignSecretCode] that deals a new code
    and every [confirmPayment] does); otherwise the documents below.
    [commit_provision] is not the effect of a call: it is the loading of
    a player's code by other means, see [provision]. *)
Inductive commit (s s' : Store) : Prop :=
| commit_nothing :
    s' = s -> commit s s'
| commit_startRound ts newRoundId c1 n :
    fresh newRoundId (rounds s) ->
    ((lastRoundQuery s = None /\ c1 = rounds s /\ n = 1) \/
     exists lastId lastRound,
       lastRoundQuery s = Some (lastId, lastRound) /\
       update_doc lastId (Round.close ts) (rounds s) = Some c1 /\
       n = Round.roundNumber lastRound + 1) ->
    rounds s' = set_doc newRoundId (newRound newRoundId n ts) c1 ->
    users s' = users s -> userCodes s' = userCodes s ->
    winners s' = winners s -> payments s' = payments s ->
    commit s s'
| commit_finishRound ts rid r :
    get_doc rid (rounds s) = Some r -> Round.isActive r = true ->
    replace_doc rid (Round.close ts r) (rounds s) (rounds s') ->
    users s' = users s -> userCodes s' = userCodes s ->
    winners s' = winners s -> payments s' = payments s ->
    commit s s'
| commit_provision a ts newUserCodeId rid r code :
    fresh newUserCodeId (userCodes s) ->
    activeRoundQuery s = Some (rid, r) ->
    userCodeQuery (uid a) rid s = None ->
    validCode code -> Forall isDigit code ->
    existingCodeQuery rid code s = [] ->
    userCodes s' = set_doc newUserCodeId (newUserCode (uid a) rid code) (userCodes s) ->
    ((get_doc (uid a) (users s) = None /\
      users s' = set_doc (uid a) (newUser a rid ts) (users s)) \/
     (exists u, get_doc (uid a) (users s) = Some u /\
                replace_doc (uid a) (User.resetRound (Some rid) u) (users s) (users s'))) ->
    rounds s' = rounds s -> winners s' = winners s -> payments s' = payments s ->
    commit s s'
| commit_wrongGuess userId g now ts rid r u ucid uc :
    activeRoundQuery s = Some (rid, r) ->
    get_doc userId (users s) = Some u ->
    userCodeQuery userId rid s = Some (ucid, uc) ->
    get_doc ucid (userCodes s) = Some uc ->
    User.isWinnerInCurrentRound u = false -> UserCode.isWinner uc = false ->
    areCodesEqual g (UserCode.secretCode uc) = false ->
    replace_doc userId (User.countAttempt ts (afterLimiter now u)) (users s) (users s') ->
    replace_doc ucid (UserCode.countAttempt uc) (userCodes s) (userCodes s') ->
    rounds s' = rounds s -> winners s' = winners s -> payments s' = payments s ->
    commit s s'
| commit_win userId g now ts newWinnerId rid r u ucid uc :
    fresh newWinnerId (winners s) ->
    activeRoundQuery s = Some (rid, r) ->
    get_doc rid (rounds s) = Some r ->
    get_doc userId (users s) = Some u ->
    userCodeQuery userId rid s = Some (ucid, uc) ->
    get_doc ucid (userCodes s) = Some uc ->
    User.isWinnerInCurrentRound u = false -> UserCode.isWinner uc = false ->
    areCodesEqual g (UserCode.secretCode uc) = true ->
    Round.winnerCount r < Round.maxWinners r ->
    let rank := Round.winnerCount r + 1 in
    let ended := rank =? Round.maxWinners r in
    let u1 := User.markWinner (User.countAttempt ts (afterLimiter now u)) in
    replace_doc rid (if ended then Round.close ts (Round.incrWinnerCount r)
                     else Round.incrWinnerCount r) (rounds s) (rounds s') ->
    replace_doc userId (if ended then User.resetRound None u1 else u1)
                (users s) (users s') ->
    replace_doc ucid (UserCode.markWinner (UserCode.countAttempt uc))
                (userCodes s) (userCodes s') ->
    winners s' = set_doc newWinnerId
                   (Winner.mk rid userId rank ts (UserCode.secretCode uc)) (winners s) ->
    payments s' = payments s ->
    commit s s'
| commit_hintRequest userId ts newPaymentId rid r u ucid uc index :
    fresh newPaymentId (payments s) ->
    get_doc userId (users s) = Some u ->
    activeRoundQuery s = Some (rid, r) ->
    userCodeQuery userId rid s = Some (ucid, uc) ->
    UserCode.isWinner uc = false ->
    UserCode.hintPurchases uc < MAX_HINTS_PER_ROUND ->
    In index (availableIndices (UserCode.revealedDigits uc)) ->
    replace_doc userId (User.stampHintRequest ts u) (users s) (users s') ->
    payments s' = set_doc newPaymentId (newPayment userId rid ts index) (payments s) ->
    rounds s' = rounds s -> userCodes s' = userCodes s -> winners s' = winners s ->
    commit s s'.

(** ** More invariants of the stores *)

Definition roundNumbers (rs : Collection Round.t) : list Z :=
  map (fun kv => Round.roundNumber (snd kv)) rs.

(** Rounds are numbered 1, 2, ... in the order they were started; a
    round document carries its own id; only the round started last can
    be active, and a round is active exactly while it has no end time. *)
Definition rounds_seq (rs : Collection Round.t) : Prop :=
  NoDup (keys rs) /\
  NoDup (roundNumbers rs) /\
  (forall z, In z (roundNumbers rs) <-> 1 <= z <= Z.of_nat (List.length rs)) /\
  (forall k r, In (k, r) rs ->
     Round.id r = k /\
     (Round.isActive r = true -> Round.roundNumber r = Z.of_nat (List.length rs)) /\
     (Round.isActive r = true <-> Round.endTime r = None)).

(** How a round document may differ from an earlier state of itself. *)
Definition roundGrows (r r' : Round.t) : Prop :=
  Round.id r' = Round.id r /\
  Round.roundNumber r' = Round.roundNumber r /\
  Round.startTime r' = Round.startTime r /\
  Round.maxWinners r' = Round.maxWinners r /\
  Round.winnerCount r <= Round.winnerCount r' /\
  (Round.isActive r = false ->
   Round.isActive r' = false /\ Round.winnerCount r' = Round.winnerCount r).

(** How a user-code document may differ from an earlier state of itself. *)
Definition codeGrows (c c' : UserCode.t) : Prop :=
  UserCode.userId c' = UserCode.userId c /\
  UserCode.roundId c' = UserCode.roundId c /\
  UserCode.secretCode c' = UserCode.secretCode c /\
  (UserCode.isWinner c = true -> UserCode.isWinner c' = true) /\
  UserCode.attempts c <= UserCode.attempts c' /\
  UserCode.hintPurchases c <= UserCode.hintPurchases c' /\
  incl (UserCode.revealedDigits c) (UserCode.revealedDigits c').

(** A stored user code: a valid code of digits, for a stored player in
    a stored round. *)
Definition code_wf (s : Store) (c : UserCode.t) : Prop :=
  validCode (UserCode.secretCode c) /\
  Forall isDigit (UserCode.secretCode c) /\
  In (UserCode.roundId c) (keys (rounds s)) /\
  In (UserCode.userId c) (keys (users s)).

Definition codes_wf (s : Store) : Prop :=
  NoDup (keys (userCodes s)) /\
  (forall k c, In (k, c) (userCodes s) -> code_wf s c) /\
  (forall k1 c1 k2 c2,
     In (k1, c1) (userCodes s) -> In (k2, c2) (userCodes s) ->
     UserCode.userId c1 = UserCode.userId c2 ->
     UserCode.roundId c1 = UserCode.roundId c2 -> k1 = k2).

(** A stored payment request is either pending, with no hint given and
    no confirmation data, or completed with its hint given and its
    confirmation recorded; it costs the hint price, asks for a position
    of the code, and belongs to a stored player holding a code in its
    round. *)
Definition payment_wf (s : Store) (p : Payment.t) : Prop :=
  ((Payment.status p = pending /\ Payment.hintProvided p = false /\
    Payment.transactionId p = None /\ Payment.paymentConfirmedAt p = None) \/
   (Payment.status p = completed /\ Payment.hintProvided p = true /\
    Payment.transactionId p <> None /\ Payment.paymentConfirmedAt p <> None)) /\
  0 <= Payment.requestedDigitIndex p < 7 /\
  Payment.amountUsdt p = HINT_PRICE_USDT /\
  In (Payment.userId p) (keys (users s)) /\
  exists k c, In (k, c) (userCodes s) /\
              UserCode.userId c = Payment.userId p /\
              UserCode.roundId c = Payment.roundId p.

Definition payments_wf (s : Store) : Prop :=
  NoDup (keys (payments s)) /\ NoDup (keys (users s)) /\
  forall k p, In (k, p) (payments s) -> payment_wf s p.

(** The winner record and the winning flag of the user code go
    together. *)
Definition winner_wf (s : Store) (w : Winner.t) : Prop :=
  exists k c, In (k, c) (userCodes s) /\
              UserCode.userId c = Winner.userId w /\
              UserCode.roundId c = Winner.roundId w /\
              UserCode.secretCode c = Winner.secretCodeAtWin w /\
              UserCode.isWinner c = true.

Definition winners_wf (s : Store) : Prop :=
  NoDup (keys (winners s)) /\
  (forall k w, In (k, w) (winners s) -> winner_wf s w) /\
  (forall k1 w1 k2 w2,
     In (k1, w1) (winners s) -> In (k2, w2) (winners s) ->
     Winner.userId w1 = Winner.userId w2 ->
     Winner.roundId w1 = Winner.roundId w2 -> k1 = k2) /\
  (forall k c, In (k, c) (userCodes s) -> UserCode.isWinner c = true ->
     exists wk w, In (wk, w) (winners s) /\
                  Winner.userId w = UserCode.userId c /\
                  Winner.roundId w = UserCode.roundId c).

(** ** Executions from a consistent store

    A consistent store satisfies the invariants of the data model; the
    empty store does.  A run starts from a consistent store and proceeds
    by steps. *)
Definition consistent (s : Store) : Prop :=
  rounds_inv s /\ open_inv (rounds s) /\ codes_inv s /\
  rounds_seq (rounds s) /\ codes_wf s /\ payments_wf s /\ winners_wf s.

Inductive reachable : Store -> Prop :=
| reachable_seed s : consistent s -> reachable s
| reachable_step s s' : reachable s -> step s s' -> reachable s'.

(** ** Answers *)

Definition noActiveRound : Exn :=
  HttpsError failed_precondition "No active round found." None.

Definition alreadyWon : Exn :=
  HttpsError failed_precondition "You have already won in this round." None.

Definition hintCooldown : Exn :=
  HttpsError resource_exhausted
    "Please wait a moment before requesting another hint." None.

Definition noCodeAssigned : Exn :=
  HttpsError failed_precondition
    "User has no code assigned for the current round." None.

Definition alreadyAssigned (roundId : DocId) : AssignResponse :=
  mkAssignResponse true roundId "Secret code already exists for the active round.".

(** The player has won round [rid]: the code the player holds in it is
    flagged, the player's document exists, and the player holds no code
    in any other round that is active. *)
Definition hasWon (userId rid : DocId) (s : Store) : Prop :=
  (exists ucid uc,
     In (ucid, uc) (userCodes s) /\ UserCode.userId uc = userId /\
     UserCode.roundId uc = rid /\ UserCode.isWinner uc = true) /\
  In userId (keys (users s)) /\
  (forall rid' r', activeRoundQuery s = Some (rid', r') ->
     rid' = rid \/ userCodeQuery userId rid' s = None).

(** What [assignSecretCode] answers when its transaction reads after
    its write. *)
Definition assignFailed : Exn :=
  HttpsError internal "Failed to assign secret code."
    (Some "Firestore transactions require all reads to be executed before all writes.").

(** What [confirmPayment] answers when its transaction throws without
    having answered. *)
Definition confirmFailed : HttpResponse :=
  mkResponse 500 "Internal Server Error processing payment confirmation.".

(** ** Loading a player's code

    [provision] adds to the store what [assignSecretCode] is written to
    add, a user code for the active round and the player's document, for
    a player the store does not know yet; it is undefined when that would
    break consistency.  It serves to build the stores on which the
    statements are exercised. *)
Definition isFresh {A} (k : DocId) (c : Collection A) : bool :=
  negb (existsb (String.eqb k) (keys c)).

Definition isNone {A} (o : option A) : bool :=
  match o with
  | None => true
  | Some _ => false
  end.

Definition codeOk (code : Code) : bool :=
  Nat.eqb (List.length code) 7
  && forallb (fun d => (0 <=? d) && (d <=? 9)) code
  && negb (Nat.eqb (setSize code) 1)
  && consecutiveScan None 0 code.

Definition provision (a : Auth) (code : Code) (ts : Timestamp)
    (newUserCodeId : DocId) (s : Store) : option Store :=
  match activeRoundQuery s with
  | Some (rid, _) =>
      if isFresh newUserCodeId (userCodes s)
         && isNone (get_doc (uid a) (users s))
         && isNone (userCodeQuery (uid a) rid s)
         && codeOk code
         && isEmpty (existingCodeQuery rid code s)
      then Some (mkStore (rounds s)
                         (set_doc (uid a) (newUser a rid ts) (users s))
                         (set_doc newUserCodeId (newUserCode (uid a) rid code)
                                  (userCodes s))
                         (winners s) (payments s))
      else None
  | None => None
  end.

Fixpoint provisionAll (players : list (Auth * Code * DocId)) (ts : Timestamp)
    (s : Store) : option Store :=
  match players with
  | [] => Some s
  | (a, code, newUserCodeId) :: rest =>
      match provision a code ts newUserCodeId s with
      | Some s' => provisionAll rest ts s'
      | None => None
      end
  end.

(** ** Runs of calls

    A run applies calls in order; it is undefined when a call is given a
    document id that is already taken or when a code generation runs out
    of fuel. *)
Inductive Call :=
| CallStartRound (ts : Timestamp) (newRoundId : DocId)
| CallAssignSecretCode (auth : option Auth) (fuel gfuel : nat) (rnd : RandomSource)
    (ts : Timestamp) (newUserCodeId : DocId)
| CallSubmitGuess (auth : option Auth) (guessedCode : list Z) (now ts : Timestamp)
    (newWinnerId : DocId)
| CallRequestHint (auth : option Auth) (now ts : Timestamp) (pick : nat)
    (newPaymentId : DocId)
| CallConfirmPayment (paymentId transactionId : option string) (ts : Timestamp)
| CallFinishRound (roundId : option string) (ts : Timestamp).

Definition call (c : Call) (s : Store) : option Store :=
  match c with
  | CallStartRound ts newRoundId =>
      if isFresh newRoundId (rounds s)
      then Some (fst (startRound ts newRoundId s)) else None
  | CallAssignSecretCode auth fuel gfuel rnd ts newUserCodeId =>
      if isFresh newUserCodeId (userCodes s)
      then option_map fst (assignSecretCode auth fuel gfuel rnd ts newUserCodeId s)
      else None
  | CallSubmitGuess auth guessedCode now ts newWinnerId =>
      if isFresh newWinnerId (winners s)
      then Some (fst (submitGuess auth guessedCode now ts newWinnerId s)) else None
  | CallRequestHint auth now ts pick newPaymentId =>
      if isFresh newPaymentId (payments s)
      then Some (fst (requestHint auth now ts pick newPaymentId s)) else None
  | CallConfirmPayment paymentId transactionId ts =>
      Some (fst (confirmPayment paymentId transactionId ts s))
  | CallFinishRound roundId ts =>
      Some (fst (finishRound roundId ts s))
  end.

Fixpoint run (calls : list Call) (s : Store) : option Store :=
  match calls with
  | [] => Some s
  | c :: rest =>
      match call c s with
      | Some s' => run rest s'
      | None => None
      end
  end.

(** ** Stores on which the statements are exercised *)

Definition alice : Auth := mkAuth "alice" None.

Definition countUp : RandomSource := fun k => Z.of_nat k.

Definition orEmpty (o : option Store) : Store :=
  match o with
  | Some s => s
  | None => emptyStore
  end.

(** One active round. *)
Definition demoStarted : Store := fst (startRound 1000 "r1" emptyStore).

(** The round, and alice holding the code 0123456 in it. *)
Definition demoAssigned : Store :=
  orEmpty (provision alice [0; 1; 2; 3; 4; 5; 6] 1000 "uc1" demoStarted).

Definition demoFinished : Store := fst (finishRound (Some "r1") 7000 demoAssigned).

(** Alice has asked for a hint: one pending payment request. *)
Definition demoHinted : Store :=
  fst (requestHint (Some alice) 3000 3000 2 "p1" demoAssigned).

(** The confirmation of that request has been delivered. *)
Definition demoConfirmed : Store :=
  fst (confirmPayment (Some "p1") (Some "tx1") 4000 demoHinted).

Definition demoWon : Store :=
  fst (submitGuess (Some alice) [0; 1; 2; 3; 4; 5; 6] 5000 5000 "w1" demoConfirmed).



(** Ten players; player [i] holds the digits [i], [i + 1], ... *)
Definition playerName (i : nat) : string :=
  String "u" (String (ascii_of_nat (48 + i)) EmptyString).

Definition player (i : nat) : Auth := mkAuth (playerName i) None.

Definition playerCode (i : nat) : Code :=
  map (fun k => Z.of_nat (k + i) mod 10) (seq 0 7).

Definition joinRound (i : nat) : Auth * Code * DocId :=
  (player i, playerCode i, String "c" (playerName i)).

Definition winRound (i : nat) : Call :=
  CallSubmitGuess (Some (player i)) (playerCode i) 2000 2000
    (String "w" (playerName i)).

(** One round and ten players with a code each. *)
Definition demoTenPlayers : Store :=
  orEmpty (provisionAll (map joinRound (seq 0 10)) 1000 demoStarted).

(** The same, nine of the players having won. *)
Definition demoNineWinners : Store :=
  orEmpty (run (map winRound (seq 0 9)) demoTenPlayers).

(** * Properties *)

(** ** Code generation *)

Section Validity.
Context {A : Type}.

Lemma allSame_cons (x : A) (l : list A) :
  allSame (x :: l) -> forall y, In y l -> y = x.
Proof.
  intros H y Hy. apply In_nth_error in Hy. destruct Hy as [n Hn].
  exact (H (S n) 0%nat y x Hn eq_refl).
Qed.

Lemma hasRun4_cons (x : A) (l : list A) :
  hasRun4 (x :: l) ->
  hasRun4 l \/
  (nth_error l 0 = Some x /\ nth_error l 1 = Some x /\ nth_error l 2 = Some x).
Proof.
  intros [i [y [H0 [H1 [H2 H3]]]]]. destruct i as [|i].
  - right. simpl in *. injection H0 as ->. auto.
  - left. exists i, y. simpl in *. auto.
Qed.

End Validity.

Lemma nodup_constant (x : Z) (l : list Z) :
  (forall y, In y l -> y = x) -> l <> [] -> nodup Z.eq_dec l = [x].
Proof.
  induction l as [|a l IH]; intros Hall Hne; [congruence|].
  assert (a = x) by (apply Hall; now left). subst a.
  cbn [nodup]. destruct (in_dec Z.eq_dec x l) as [Hin|Hn].
  - apply IH; [intros; apply Hall; now right|]. intros ->. contradiction.
  - destruct l as [|b l]; [reflexivity|].
    exfalso. apply Hn. left. apply Hall. right. now left.
Qed.

Lemma setSize_allSame (code : list Z) :
  code <> [] -> allSame code -> setSize code = 1%nat.
Proof.
  intros Hne Hs. destruct code as [|x l]; [congruence|].
  unfold setSize. rewrite (nodup_constant x); [reflexivity| |discriminate].
  intros y [<-|Hy]; [reflexivity|]. now apply (allSame_cons x l).
Qed.

(** While the scan is inside a run of [p] of length [count], a further
    prefix of [j] copies of [p] keeps the run within 3. *)
Lemma consecutiveScan_sound (code : list Z) :
  forall p count,
    1 <= count <= 3 ->
    consecutiveScan (Some p) count code = true ->
    ~ hasRun4 code /\
    (forall j, (forall i, (i < j)%nat -> nth_error code i = Some p) ->
               count + Z.of_nat j <= 3).
Proof.
  induction code as [|d rest IH]; intros p count Hc Hscan.
  - split.
    + intros [i [x [H _]]]. destruct i; discriminate.
    + intros [|j] Hj; [lia|]. specialize (Hj 0%nat ltac:(lia)). discriminate.
  - simpl in Hscan.
    destruct (Z.eqb_spec d p) as [->|Hdp].
    + destruct (Z.ltb_spec 3 (count + 1)); [discriminate|].
      destruct (IH p (count + 1) ltac:(lia) Hscan) as [Hrun Hpre].
      split.
      * intros Hr. apply hasRun4_cons in Hr. destruct Hr as [Hr|[H0 [H1 H2]]]; [auto|].
        assert (count + 1 + Z.of_nat 3 <= 3); [|lia].
        apply Hpre. intros [|[|[|i]]] Hi; auto; lia.
      * intros [|j] Hj; [lia|].
        assert (count + 1 + Z.of_nat j <= 3); [|lia].
        apply Hpre. intros i Hi. apply (Hj (S i)). lia.
    + change (3 <? 1) with false in Hscan. cbv iota in Hscan.
      destruct (IH d 1 ltac:(lia) Hscan) as [Hrun Hpre].
      split.
      * intros Hr. apply hasRun4_cons in Hr. destruct Hr as [Hr|[H0 [H1 H2]]]; [auto|].
        assert (1 + Z.of_nat 3 <= 3); [|lia].
        apply Hpre. intros [|[|[|i]]] Hi; auto; lia.
      * intros [|j] Hj; [lia|].
        specialize (Hj 0%nat ltac:(lia)). simpl in Hj. congruence.
Qed.

Lemma drawDigits_length rnd pos len : List.length (drawDigits rnd pos len) = len.
Proof. unfold drawDigits. now rewrite length_map, length_seq. Qed.

Lemma generateSecretCode_valid fuel :
  forall rnd pos code pos',
    generateSecretCode fuel rnd pos = Some (code, pos') -> validCode code.
Proof.
  induction fuel as [|fuel IH]; intros rnd pos code pos' H; [discriminate|].
  cbn [generateSecretCode] in H.
  destruct (Nat.eqb_spec (setSize (drawDigits rnd pos 7)) 1) as [|Hsize].
  - eauto.
  - destruct (consecutiveScan None 0 (drawDigits rnd pos 7)) eqn:Hscan; [|eauto].
    injection H as <- <-.
    split; [|split].
    + apply drawDigits_length.
    + intros Hs. apply Hsize, setSize_allSame; [|assumption].
      intros E. apply (f_equal (@List.length Z)) in E.
      rewrite drawDigits_length in E. discriminate.
    + remember (drawDigits rnd pos 7) as code eqn:E.
      destruct code as [|d rest].
      * intros [i [x [H _]]]. destruct i; discriminate.
      * simpl in Hscan. change (3 <? 1) with false in Hscan. cbv iota in Hscan.
        destruct (consecutiveScan_sound rest d 1 ltac:(lia) Hscan) as [Hrun Hpre].
        intros Hr. apply hasRun4_cons in Hr. destruct Hr as [Hr|[H0 [H1 H2]]]; [auto|].
        assert (1 + Z.of_nat 3 <= 3); [|lia].
        apply Hpre. intros [|[|[|i]]] Hi; auto; lia.
Qed.

Lemma optString_eqb_refl (a : option string) : optString_eqb a a = true.
Proof. destruct a; simpl; [apply String.eqb_refl | reflexivity]. Qed.

Lemma optString_eqb_eq (a b : option string) : optString_eqb a b = true -> a = b.
Proof.
  destruct a, b; simpl; try discriminate; [|reflexivity].
  intros H. apply String.eqb_eq in H. now subst.
Qed.

Lemma isNotAllSame_sound (code : list string) :
  isNotAllSame code = true -> ~ allSame code.
Proof.
  unfold isNotAllSame. intros H Hs.
  apply negb_true_iff in H.
  enough (E : forallb (fun digit => optString_eqb (Some digit) (at_ code 0)) code = true)
    by congruence.
  apply forallb_forall. intros x Hx.
  destruct code as [|y l]; [contradiction|].
  unfold at_. simpl. apply String.eqb_eq.
  destruct Hx as [<-|Hx]; [reflexivity|]. now apply (allSame_cons y l).
Qed.

Lemma isValidConsecutive_sound (code : list string) :
  isValidConsecutive code = true -> ~ hasRun4 code.
Proof.
  unfold isValidConsecutive. intros H [i [x [H0 [H1 [H2 H3]]]]].
  assert (Hlen : (i + 3 < List.length code)%nat).
  { apply nth_error_Some. congruence. }
  destruct (Nat.ltb_spec (List.length code) 4); [lia|].
  rewrite forallb_forall in H.
  specialize (H i). unfold at_ in H. rewrite H0, H1, H2, H3 in H.
  rewrite optString_eqb_refl in H. simpl in H.
  assert (false = true); [|discriminate].
  apply H. apply in_seq. lia.
Qed.

(** Decimal rendering is injective on remainders modulo 10. *)
Lemma toString_inj_small (a b : Z) :
  -10 < a < 10 -> -10 < b < 10 -> toString a = toString b -> a = b.
Proof.
  set (back := fun s => match NilZero.int_of_string s with
                        | Some d => Z.of_int d
                        | None => 0
                        end).
  assert (Hback : forall z, -10 < z < 10 -> back (toString z) = z).
  { intros z Hz.
    assert (z = -9 \/ z = -8 \/ z = -7 \/ z = -6 \/ z = -5 \/ z = -4 \/ z = -3 \/
            z = -2 \/ z = -1 \/ z = 0 \/ z = 1 \/ z = 2 \/ z = 3 \/ z = 4 \/
            z = 5 \/ z = 6 \/ z = 7 \/ z = 8 \/ z = 9) as Hcases by lia.
    repeat (destruct Hcases as [->|Hcases]; [reflexivity|]). now subst. }
  intros Ha Hb E.
  rewrite <- (Hback a Ha), <- (Hback b Hb). now rewrite E.
Qed.

Lemma rem10_succ_neq (a : Z) : Z.rem a 10 <> Z.rem (a + 1) 10.
Proof.
  pose proof (Z.quot_rem' a 10). pose proof (Z.quot_rem' (a + 1) 10). lia.
Qed.

Lemma rem10_small (a : Z) : -10 < Z.rem a 10 < 10.
Proof.
  pose proof (Z.rem_bound_abs a 10 ltac:(lia)). lia.
Qed.

Lemma fallbackCode_nth len now i :
  (i < len)%nat ->
  nth_error (fallbackCode len now) i = Some (toString (Z.rem (Z.of_nat i + now) 10)).
Proof.
  intros Hi. unfold fallbackCode.
  rewrite nth_error_map, nth_error_seq.
  destruct (Nat.ltb_spec i len); [reflexivity | lia].
Qed.

(** Two neighbouring digits of the fallback sequence differ. *)
Lemma fallbackCode_adjacent len now i x :
  nth_error (fallbackCode len now) i = Some x ->
  nth_error (fallbackCode len now) (i + 1) = Some x -> False.
Proof.
  intros H0 H1.
  assert (Hi : (i + 1 < len)%nat).
  { assert (Hl : (i + 1 < List.length (fallbackCode len now))%nat)
      by (apply nth_error_Some; congruence).
    unfold fallbackCode in Hl. now rewrite length_map, length_seq in Hl. }
  rewrite fallbackCode_nth in H0, H1 by lia.
  injection H0 as H0. injection H1 as H1. rewrite <- H0 in H1.
  apply toString_inj_small in H1; try apply rem10_small.
  apply (rem10_succ_neq (Z.of_nat i + now)).
  rewrite <- H1. f_equal. lia.
Qed.

Lemma fallbackCode_valid now : validCode (fallbackCode 7 now).
Proof.
  split; [reflexivity|split].
  - intros Hs.
    apply (fallbackCode_adjacent 7 now 0 (toString (Z.rem (Z.of_nat 0 + now) 10))).
    + apply fallbackCode_nth; lia.
    + simpl Nat.add.
      rewrite <- (Hs 1%nat 0%nat _ _ (fallbackCode_nth 7 now 1 ltac:(lia))
                  (fallbackCode_nth 7 now 0 ltac:(lia))).
      apply fallbackCode_nth; lia.
  - intros [i [x [H0 [H1 _]]]]. exact (fallbackCode_adjacent 7 now i x H0 H1).
Qed.

Lemma generateValidCode_loop_valid remaining :
  forall usedCodes rnd pos now,
    validCode (generateValidCode_loop remaining 7 usedCodes rnd pos now).
Proof.
  induction remaining as [|n IH]; intros usedCodes rnd pos now.
  - apply fallbackCode_valid.
  - cbn [generateValidCode_loop].
    destruct (isNotAllSame (map toString (drawDigits rnd pos 7))) eqn:H1;
      [|apply IH].
    destruct (isValidConsecutive (map toString (drawDigits rnd pos 7))) eqn:H2;
      [|apply IH].
    destruct (negb _); [|apply IH]. cbn [andb].
    split; [|split].
    + now rewrite length_map, drawDigits_length.
    + now apply isNotAllSame_sound.
    + now apply isValidConsecutive_sound.
Qed.

(** C7. Every 7-digit code returned by a code generator is valid: its
    digits are not all identical and it has no run of 4 identical
    consecutive digits.  This holds for the server's [generateSecretCode]
    whenever it returns, and for the client's [generateValidCode] on every
    path, the time-seeded fallback sequence included. *)
Theorem generated_codes_valid :
  (forall fuel rnd pos code pos',
      generateSecretCode fuel rnd pos = Some (code, pos') -> validCode code) /\
  (forall usedCodes rnd now, validCode (generateValidCode 7 usedCodes rnd now)) /\
  (forall now, validCode (fallbackCode 7 now)).
Proof.
  split; [|split].
  - intros fuel. apply generateSecretCode_valid.
  - intros. apply generateValidCode_loop_valid.
  - apply fallbackCode_valid.
Qed.

Lemma generated_codes_valid_witness :
  generateSecretCode 1 (fun k => Z.of_nat k) 0 = Some ([0; 1; 2; 3; 4; 5; 6], 7%nat) /\
  validCode [0; 1; 2; 3; 4; 5; 6] /\
  validCode (generateValidCode 7 [] (fun _ => 0) 1234567).
Proof.
  split; [reflexivity|split].
  - apply (proj1 generated_codes_valid 1%nat (fun k => Z.of_nat k) 0%nat _ 7%nat).
    reflexivity.
  - apply (proj1 (proj2 generated_codes_valid)).
Defined.

(** ** Collections *)

Lemma Permutation_filter {A} (p : A -> bool) (l l' : list A) :
  Permutation l l' -> Permutation (filter p l) (filter p l').
Proof.
  induction 1 as [|x l l' _ IH|x y l|l l' l'' _ IH1 _ IH2]; simpl.
  - constructor.
  - destruct (p x); [now constructor | assumption].
  - destruct (p x), (p y); try reflexivity. apply perm_swap.
  - now transitivity (filter p l').
Qed.

Section CollectionFacts.
Context {A : Type}.
Implicit Types (c : Collection A) (k : DocId) (d : A).

Lemma get_doc_In k d c : get_doc k c = Some d -> In (k, d) c.
Proof.
  induction c as [|[k' d'] c IH]; simpl; [discriminate|].
  destruct (String.eqb_spec k k') as [->|_].
  - intros [= ->]. now left.
  - intros H. right. auto.
Qed.

Lemma get_doc_None k c : get_doc k c = None <-> fresh k c.
Proof.
  unfold fresh, keys.
  induction c as [|[k' d'] c IH]; simpl; [tauto|].
  destruct (String.eqb_spec k k') as [->|Hne].
  - split; [discriminate|]. intros H. exfalso. apply H. now left.
  - rewrite IH. split; [intros H [E|Hin]; [congruence|auto] | tauto].
Qed.

Lemma In_get_doc k d c : NoDup (keys c) -> In (k, d) c -> get_doc k c = Some d.
Proof.
  unfold keys.
  induction c as [|[k' d'] c IH]; simpl; [tauto|].
  intros Hnd Hin. inversion Hnd as [|? ? Hk Hnd']; subst.
  destruct Hin as [[= -> ->]|Hin].
  - now rewrite String.eqb_refl.
  - destruct (String.eqb_spec k k') as [->|_]; [|auto].
    exfalso. apply Hk. apply (in_map fst) in Hin. exact Hin.
Qed.

Lemma In_keys k d c : In (k, d) c -> In k (keys c).
Proof. intros H. apply (in_map fst) in H. exact H. Qed.

Lemma update_doc_Some k (f : A -> A) c :
  ~ fresh k c -> exists c', update_doc k f c = Some c'.
Proof.
  unfold fresh, keys.
  induction c as [|[k' d'] c IH]; simpl; intros H.
  - exfalso. apply H. tauto.
  - destruct (String.eqb_spec k k') as [->|Hne]; [eauto|].
    destruct IH as [c' ->]; [|simpl; eauto].
    intros Hn. apply H. intros [E|Hin]; [congruence|auto].
Qed.

Lemma update_doc_get k (f : A -> A) c d :
  get_doc k c = Some d -> exists c', update_doc k f c = Some c'.
Proof.
  intros H. apply update_doc_Some. intros Hf.
  apply get_doc_None in Hf. congruence.
Qed.

Lemma update_doc_keys k (f : A -> A) c c' :
  update_doc k f c = Some c' -> keys c' = keys c.
Proof.
  unfold keys. revert c'.
  induction c as [|[k' d'] c IH]; simpl; intros c'; [discriminate|].
  destruct (String.eqb k k').
  - now intros [= <-].
  - destruct (update_doc k f c) as [c1|]; [|discriminate].
    intros [= <-]. simpl. now rewrite (IH c1).
Qed.

Lemma get_doc_update_doc k (f : A -> A) c c' k' :
  update_doc k f c = Some c' ->
  get_doc k' c' = if String.eqb k' k then option_map f (get_doc k c) else get_doc k' c.
Proof.
  revert c'.
  induction c as [|[k0 d0] c IH]; simpl; intros c'; [discriminate|].
  destruct (String.eqb_spec k k0) as [->|Hne].
  - intros [= <-]. simpl. now destruct (String.eqb k' k0).
  - destruct (update_doc k f c) as [c1|]; [|discriminate].
    intros [= <-]. simpl. specialize (IH c1 eq_refl).
    destruct (String.eqb_spec k' k0) as [->|Hne'].
    + destruct (String.eqb_spec k0 k); [congruence|reflexivity].
    + exact IH.
Qed.

(** Every document after an update comes from one before it, unchanged
    or transformed. *)
Lemma update_doc_In k (f : A -> A) c c' k' d' :
  update_doc k f c = Some c' -> In (k', d') c' ->
  In (k', d') c \/ exists d, In (k', d) c /\ k' = k /\ d' = f d.
Proof.
  revert c'.
  induction c as [|[k0 d0] c IH]; simpl; intros c'; [discriminate|].
  destruct (String.eqb_spec k k0) as [->|Hne].
  - intros [= <-] [[= <- <-]|Hin]; [right; eauto | left; auto].
  - destruct (update_doc k f c) as [c1|]; [|discriminate].
    intros [= <-] [[= <- <-]|Hin]; [left; auto|].
    destruct (IH c1 eq_refl Hin) as [H|[d [H1 H2]]]; [left; auto | right; eauto].
Qed.

(** With unique ids, the documents under other ids are untouched. *)
Lemma update_doc_In_other k (f : A -> A) c c' k' d' :
  update_doc k f c = Some c' -> In (k', d') c' -> k' <> k -> In (k', d') c.
Proof.
  intros Hu Hin Hne.
  destruct (update_doc_In _ _ _ _ _ _ Hu Hin) as [H|[d [_ [E _]]]]; congruence.
Qed.

Lemma update_doc_In_same k (f : A -> A) c c' d' :
  NoDup (keys c) -> update_doc k f c = Some c' -> In (k, d') c' ->
  exists d, In (k, d) c /\ d' = f d.
Proof.
  intros Hnd Hu Hin.
  assert (Hnd' : NoDup (keys c')) by (now rewrite (update_doc_keys _ _ _ _ Hu)).
  pose proof (In_get_doc _ _ _ Hnd' Hin) as Hg.
  rewrite (get_doc_update_doc _ _ _ _ k Hu), String.eqb_refl in Hg.
  destruct (get_doc k c) as [d|] eqn:E; [|discriminate].
  injection Hg as <-. exists d. split; [now apply get_doc_In | reflexivity].
Qed.

Lemma set_doc_perm k d c : fresh k c -> Permutation (set_doc k d c) ((k, d) :: c).
Proof.
  unfold fresh, keys.
  induction c as [|[k' d'] c IH]; simpl; intros Hf; [reflexivity|].
  destruct (String.compare k k') eqn:E.
  - apply String.compare_eq_iff in E. subst. exfalso. apply Hf. now left.
  - reflexivity.
  - transitivity ((k', d') :: (k, d) :: c); [|apply perm_swap].
    constructor. apply IH. intros Hin. apply Hf. now right.
Qed.

Lemma set_doc_In k d c k' d' :
  fresh k c -> (In (k', d') (set_doc k d c) <-> (k', d') = (k, d) \/ In (k', d') c).
Proof.
  intros Hf. pose proof (set_doc_perm k d c Hf) as P. split; intros H.
  - apply (Permutation_in _ P) in H. destruct H; auto.
  - apply (Permutation_in _ (Permutation_sym P)). destruct H; [left|right]; auto.
Qed.

Lemma set_doc_NoDup k d c : fresh k c -> NoDup (keys c) -> NoDup (keys (set_doc k d c)).
Proof.
  intros Hf Hnd.
  apply (Permutation_NoDup (l := k :: keys c)).
  - symmetry. apply (Permutation_map fst (set_doc_perm k d c Hf)).
  - now constructor.
Qed.

Lemma get_doc_set_doc k d c k' :
  get_doc k' (set_doc k d c) = if String.eqb k' k then Some d else get_doc k' c.
Proof.
  induction c as [|[k0 d0] c IH]; simpl; [reflexivity|].
  destruct (String.compare k k0) eqn:E; simpl.
  - apply String.compare_eq_iff in E. subst.
    now destruct (String.eqb k' k0).
  - reflexivity.
  - rewrite IH. destruct (String.eqb_spec k' k0) as [->|_]; [|reflexivity].
    destruct (String.eqb_spec k0 k) as [->|_]; [|reflexivity].
    pose proof (String.compare_antisym k k) as Ha. rewrite E in Ha. discriminate.
Qed.

Lemma query_head (p : A -> bool) c k d :
  hd_error (query p c) = Some (k, d) -> In (k, d) c /\ p d = true.
Proof.
  unfold query. intros H.
  assert (Hin : In (k, d) (filter (fun kv => p (snd kv)) c)).
  { destruct (filter _ c); [discriminate|]. injection H as ->. now left. }
  apply filter_In in Hin. exact Hin.
Qed.

Lemma query_head_None (p : A -> bool) c k d :
  hd_error (query p c) = None -> In (k, d) c -> p d = false.
Proof.
  unfold query. intros H Hin.
  destruct (p d) eqn:E; [|reflexivity].
  assert (Hf : In (k, d) (filter (fun kv => p (snd kv)) c))
    by (apply filter_In; auto).
  destruct (filter _ c); [contradiction | discriminate].
Qed.

End CollectionFacts.

(** ** Transactions *)

Lemma runTransaction_inv {A} (body : Tx A) s s' (res : Result A) :
  runTransaction body s = (s', res) ->
  (s' = s /\ exists e, res = inl e) \/
  (exists a ws, body s [] = inr (a, ws) /\ apply_writes ws s = Some s' /\ res = inr a).
Proof.
  unfold runTransaction.
  destruct (body s []) as [e|[a ws]].
  - intros [= <- <-]. left. eauto.
  - destruct (apply_writes ws s) as [s1|] eqn:E.
    + intros [= <- <-]. right. eauto.
    + intros [= <- <-]. left. eauto.
Qed.

(** An aborted transaction leaves the store as it was. *)
Lemma runTransaction_abort {A} (body : Tx A) s s' e :
  runTransaction body s = (s', inl e) -> s' = s.
Proof.
  intros H. apply runTransaction_inv in H.
  destruct H as [[H _]|[a [ws [_ [_ H]]]]]; [assumption|discriminate].
Qed.

Lemma apply_writes_views ws : forall s s',
  apply_writes ws s = Some s' ->
  fold_writes on_rounds ws (rounds s) = Some (rounds s') /\
  fold_writes on_users ws (users s) = Some (users s') /\
  fold_writes on_userCodes ws (userCodes s) = Some (userCodes s') /\
  fold_writes on_winners ws (winners s) = Some (winners s') /\
  fold_writes on_payments ws (payments s) = Some (payments s').
Proof.
  induction ws as [|w ws IH]; intros s s'; simpl.
  - intros [= <-]. auto.
  - destruct (apply_write w s) as [s1|] eqn:E; [|discriminate].
    intros H. specialize (IH s1 s' H).
    destruct w; simpl in E |- *;
      try (injection E as <-; simpl in IH; exact IH);
      match type of E with
      | option_map _ ?u = _ => destruct u eqn:Eu; [|discriminate]
      end; injection E as <-; simpl in IH; exact IH.
Qed.

(** ** startRound *)

Lemma lastRound_fold (c : Collection Round.t) : forall best,
  (best <> None \/ c <> []) ->
  exists m,
    fold_left (fun best kv =>
                 match best with
                 | None => Some kv
                 | Some b =>
                     if Round.roundNumber (snd b) <=? Round.roundNumber (snd kv)
                     then Some kv else best
                 end) c best = Some m /\
    (best = Some m \/ In m c) /\
    (forall b, best = Some b -> Round.roundNumber (snd b) <= Round.roundNumber (snd m)) /\
    (forall x, In x c -> Round.roundNumber (snd x) <= Round.roundNumber (snd m)).
Proof.
  induction c as [|kv c IH]; intros best Hne.
  - destruct best as [b|]; [|destruct Hne; congruence].
    exists b. simpl. repeat split; auto; [intros ? [= ->]; lia | contradiction].
  - simpl. destruct best as [b|].
    + destruct (Z.leb_spec (Round.roundNumber (snd b)) (Round.roundNumber (snd kv))).
      * destruct (IH (Some kv)) as [m [Hm [Hin [Hb Hall]]]]; [left; discriminate|].
        exists m. specialize (Hb kv eq_refl). rewrite Hm.
        repeat split.
        -- right. destruct Hin as [[= ->]|Hin]; [now left | now right].
        -- intros ? [= <-]. lia.
        -- intros x [<-|Hx]; auto.
      * destruct (IH (Some b)) as [m [Hm [Hin [Hb Hall]]]]; [left; discriminate|].
        exists m. specialize (Hb b eq_refl). rewrite Hm.
        repeat split.
        -- destruct Hin as [Hin|Hin]; [now left | right; now right].
        -- intros ? [= <-]. lia.
        -- intros x [<-|Hx]; [lia | auto].
    + destruct (IH (Some kv)) as [m [Hm [Hin [Hb Hall]]]]; [left; discriminate|].
      exists m. specialize (Hb kv eq_refl). rewrite Hm.
      repeat split.
      * right. destruct Hin as [[= ->]|Hin]; [now left | now right].
      * discriminate.
      * intros x [<-|Hx]; auto.
Qed.

Lemma lastRoundQuery_spec s :
  rounds s <> [] ->
  exists lastId lastRound,
    lastRoundQuery s = Some (lastId, lastRound) /\
    In (lastId, lastRound) (rounds s) /\
    (forall k r, In (k, r) (rounds s) ->
                 Round.roundNumber r <= Round.roundNumber lastRound).
Proof.
  intros Hne. unfold lastRoundQuery.
  destruct (lastRound_fold (rounds s) None (or_intror Hne))
    as [[lastId lastRound] [Hm [Hin [_ Hall]]]].
  exists lastId, lastRound. repeat split; [assumption| |].
  - destruct Hin; [discriminate|assumption].
  - intros k r Hkr. exact (Hall (k, r) Hkr).
Qed.

(** C10. When at least one round exists, [startRound] marks the round
    with the highest round number inactive and overwrites its end time
    with the new timestamp, whatever that round's state was: a round that
    had already ended gets its recorded end time replaced. *)
Theorem startRound_overwrites_last_round s ts newRoundId :
  rounds s <> [] ->
  NoDup (keys (rounds s)) ->
  fresh newRoundId (rounds s) ->
  exists lastId lastRound,
    lastRoundQuery s = Some (lastId, lastRound) /\
    In (lastId, lastRound) (rounds s) /\
    (forall k r, In (k, r) (rounds s) ->
                 Round.roundNumber r <= Round.roundNumber lastRound) /\
    exists r',
      get_doc lastId (rounds (fst (startRound ts newRoundId s))) = Some r' /\
      r' = Round.close ts lastRound /\
      Round.isActive r' = false /\
      Round.endTime r' = Some ts.
Proof.
  intros Hne Hnd Hfresh.
  destruct (lastRoundQuery_spec s Hne) as [lastId [lastRound [Hq [Hin Hmax]]]].
  exists lastId, lastRound. repeat split; try assumption.
  exists (Round.close ts lastRound). repeat split.
  pose proof (In_get_doc _ _ _ Hnd Hin) as Hget.
  destruct (update_doc_get lastId (Round.close ts) _ _ Hget) as [c1 Hup].
  assert (Hneq : lastId <> newRoundId).
  { intros ->. apply Hfresh. eapply In_keys; eassumption. }
  unfold startRound, runTransaction, startRound_tx, bind, snapshot, write, ret.
  rewrite Hq. cbn [app apply_writes apply_write]. rewrite Hup.
  cbn [option_map rounds].
  assert (E : get_doc lastId
                (set_doc newRoundId
                   (Round.mk newRoundId (Round.roundNumber lastRound + 1) true 0 10 ts
                      None false) c1) = Some (Round.close ts lastRound)).
  { rewrite get_doc_set_doc.
    destruct (String.eqb_spec lastId newRoundId); [contradiction|].
    rewrite (get_doc_update_doc _ _ _ _ lastId Hup), String.eqb_refl, Hget.
    reflexivity. }
  destruct (String.eqb newRoundId EmptyString); exact E.
Qed.

Lemma startRound_overwrites_last_round_witness :
  let ended := Round.mk "r1" 1 false 3 10 1000 (Some 5000) false in
  let s := mkStore [("r1", ended)] [] [] [] [] in
  get_doc "r1" (rounds (fst (startRound 9000 "r2" s))) = Some (Round.close 9000 ended) /\
  Round.endTime (Round.close 9000 ended) = Some 9000.
Proof.
  intros ended s.
  destruct (startRound_overwrites_last_round s 9000 "r2") as
    [lastId [lastRound [Hq [_ [_ [r' [Hget [-> [_ Hend]]]]]]]]].
  - discriminate.
  - repeat constructor. simpl. tauto.
  - unfold fresh. simpl. intros [H|[]]. discriminate.
  - injection Hq as <- <-. split; assumption.
Defined.

(** ** submitGuess *)

Lemma query_head_update {A} (p : A -> bool) k (f : A -> A) (c c' : Collection A) k0 d0 :
  NoDup (keys c) -> update_doc k f c = Some c' -> (forall d, p (f d) = p d) ->
  hd_error (query p c) = Some (k0, d0) ->
  hd_error (query p c') = Some (k0, if String.eqb k0 k then f d0 else d0).
Proof.
  intros Hnd Hu Hp. revert c' Hnd Hu.
  unfold query, keys.
  induction c as [|[k1 d1] c IH]; simpl; intros c' Hnd Hu; [discriminate|].
  inversion Hnd as [|? ? Hk1 Hnd']; subst.
  destruct (String.eqb_spec k k1) as [->|Hne].
  - injection Hu as <-. simpl. rewrite Hp.
    destruct (p d1) eqn:Ep; simpl.
    + intros [= <- <-]. now rewrite String.eqb_refl.
    + intros H.
      destruct (String.eqb_spec k0 k1) as [->|_]; [|assumption].
      exfalso. apply Hk1.
      destruct (query_head p c k1 d0 H) as [Hin _].
      eapply In_keys; eassumption.
  - destruct (update_doc k f c) as [c1|] eqn:Ec; [|discriminate].
    injection Hu as <-. simpl.
    destruct (p d1) eqn:Ep; simpl.
    + intros [= <- <-].
      destruct (String.eqb_spec k1 k); [congruence|reflexivity].
    + intros H. now apply IH.
Qed.

(** A wrong guess that the limiter lets through commits, counts one attempt on
    both counters and leaves the player able to guess again. *)
Lemma submitGuess_wrong_accepted s a rid ucid code attempts last g now ts wid :
  canGuess s (uid a) rid ucid code attempts last ->
  wrongGuess code (g, now, ts, wid) ->
  let inWindow := match last with
                  | Some l => now - l <? RATE_LIMIT_WINDOW_MS
                  | None => false
                  end in
  (inWindow = true -> attempts < MAX_ATTEMPTS_PER_WINDOW) ->
  exists s',
    submitGuess (Some a) g now ts wid s = (s', inr incorrectResponse) /\
    canGuess s' (uid a) rid ucid code ((if inWindow then attempts else 0) + 1) (Some ts).
Proof.
  intros (Hnd & [r Hr] & [u (Hu & Hw & Hatt & Hlast)] & [uc (Huc & Hwc & Hcode)])
         [Hfmt Hwrong] inWindow Hadm.
  destruct (update_doc_get (uid a) User.resetAttempts _ _ Hu) as [us0 Hus0].
  pose proof (get_doc_update_doc _ _ _ _ (uid a) Hus0) as Hg0.
  rewrite String.eqb_refl, Hu in Hg0. simpl in Hg0.
  destruct (update_doc_get (uid a) (User.countAttempt ts) _ _ Hu) as [us1 Hus1].
  pose proof (get_doc_update_doc _ _ _ _ (uid a) Hus1) as Hg1.
  rewrite String.eqb_refl, Hu in Hg1. simpl in Hg1.
  destruct (update_doc_get (uid a) (User.countAttempt ts) _ _ Hg0) as [us2 Hus2].
  pose proof (get_doc_update_doc _ _ _ _ (uid a) Hus2) as Hg2.
  rewrite String.eqb_refl, Hg0 in Hg2. simpl in Hg2.
  pose proof Huc as Huc'. unfold userCodeQuery in Huc'.
  destruct (query_head _ _ _ _ Huc') as [Hin _].
  destruct (update_doc_Some ucid UserCode.countAttempt (userCodes s)) as [ucs Hucs].
  { intros Hf. apply Hf. eapply In_keys; eassumption. }
  pose proof (query_head_update
                (fun c => String.eqb (UserCode.userId c) (uid a)
                          && String.eqb (UserCode.roundId c) rid)
                _ _ _ _ _ _ Hnd Hucs (fun d => eq_refl) Huc') as Hq.
  rewrite String.eqb_refl in Hq.
  assert (Hndc : NoDup (keys ucs)) by (now rewrite (update_doc_keys _ _ _ _ Hucs)).
  unfold submitGuess. rewrite Hfmt. cbn [negb].
  unfold runTransaction, submitGuess_tx, guessRateLimit, bind, snapshot, orThrow,
    when_, write, ret, throw.
  cbv beta. rewrite Hr. cbv beta iota. cbn [fst snd].
  rewrite Hu. cbv beta iota. rewrite Huc. cbv beta iota. cbn [fst snd].
  rewrite Hw, Hwc, Hcode, Hwrong, Hlast, Hatt. cbv beta iota.
  subst inWindow.
  destruct last as [l|].
  - destruct (now - l <? RATE_LIMIT_WINDOW_MS) eqn:Ewin.
    + specialize (Hadm eq_refl).
      destruct (Z.leb_spec MAX_ATTEMPTS_PER_WINDOW attempts); [lia|].
      cbn [app apply_writes apply_write]. rewrite Hus1. cbn [option_map userCodes].
      rewrite Hucs. cbn [option_map].
      eexists. split; [reflexivity|].
      split; [exact Hndc|]. split; [exists r; exact Hr|].
      split.
      * eexists. split; [exact Hg1|]. cbn. repeat split; try assumption.
        rewrite Hatt. reflexivity.
      * eexists. split; [exact Hq|]. cbn. auto.
    + cbn [app apply_writes apply_write]. rewrite Hus0. cbn [option_map users].
      rewrite Hus2. cbn [option_map userCodes]. rewrite Hucs. cbn [option_map].
      eexists. split; [reflexivity|].
      split; [exact Hndc|]. split; [exists r; exact Hr|].
      split.
      * eexists. split; [exact Hg2|]. cbn. repeat split; assumption.
      * eexists. split; [exact Hq|]. cbn. auto.
  - cbn [app apply_writes apply_write]. rewrite Hus0. cbn [option_map users].
    rewrite Hus2. cbn [option_map userCodes]. rewrite Hucs. cbn [option_map].
    eexists. split; [reflexivity|].
    split; [exact Hndc|]. split; [exists r; exact Hr|].
    split.
    * eexists. split; [exact Hg2|]. cbn. repeat split; assumption.
    * eexists. split; [exact Hq|]. cbn. auto.
Qed.

(** The limiter rejects before the guess is compared, and the rejected
    call changes nothing. *)
Lemma submitGuess_limited s a rid ucid code attempts l g now ts wid :
  canGuess s (uid a) rid ucid code attempts (Some l) ->
  validGuessFormat g = true ->
  now - l < RATE_LIMIT_WINDOW_MS ->
  MAX_ATTEMPTS_PER_WINDOW <= attempts ->
  submitGuess (Some a) g now ts wid s = (s, inl tooManyAttempts).
Proof.
  intros (Hnd & [r Hr] & [u (Hu & Hw & Hatt & Hlast)] & [uc (Huc & Hwc & Hcode)])
         Hfmt Hwin Hmax.
  unfold submitGuess. rewrite Hfmt. cbn [negb].
  unfold runTransaction, submitGuess_tx, guessRateLimit, bind, snapshot, orThrow,
    when_, write, ret, throw.
  cbv beta. rewrite Hr. cbv beta iota. cbn [fst snd].
  rewrite Hu. cbv beta iota. rewrite Huc. cbv beta iota. cbn [fst snd].
  rewrite Hw, Hwc, Hlast, Hatt. cbv beta iota.
  destruct (Z.ltb_spec (now - l) RATE_LIMIT_WINDOW_MS); [|lia].
  destruct (Z.leb_spec MAX_ATTEMPTS_PER_WINDOW attempts); [|lia].
  reflexivity.
Qed.

Lemma submitGuesses_accepted a rid ucid code calls :
  forall s attempts l,
    canGuess s (uid a) rid ucid code attempts (Some l) ->
    Forall (wrongGuess code) calls ->
    spaced l calls ->
    attempts + Z.of_nat (List.length calls) <= MAX_ATTEMPTS_PER_WINDOW ->
    exists s',
      submitGuesses (Some a) calls s
        = (s', repeat (inr incorrectResponse) (List.length calls)) /\
      canGuess s' (uid a) rid ucid code (attempts + Z.of_nat (List.length calls))
               (Some (lastStamp l calls)).
Proof.
  induction calls as [|[[[g now] ts] wid] calls IH]; intros s attempts l Hcan Hall Hsp Hle.
  - exists s. split; [reflexivity|]. simpl. now rewrite Z.add_0_r.
  - inversion Hall as [|? ? Hwrong Hall']; subst.
    destruct Hsp as [Hwin Hsp].
    cbn [List.length] in Hle. rewrite Nat2Z.inj_succ in Hle.
    destruct (submitGuess_wrong_accepted s a rid ucid code attempts (Some l)
                g now ts wid Hcan Hwrong) as [s1 [Hs1 Hcan1]].
    { intros _. lia. }
    cbv zeta in Hcan1.
    destruct (Z.ltb_spec (now - l) RATE_LIMIT_WINDOW_MS); [|lia].
    destruct (IH s1 (attempts + 1) ts Hcan1 Hall' Hsp ltac:(lia)) as [s' [Hs' Hcan']].
    exists s'. cbn [submitGuesses]. rewrite Hs1, Hs'.
    split; [reflexivity|].
    cbn [List.length lastStamp]. rewrite Nat2Z.inj_succ.
    replace (attempts + Z.succ (Z.of_nat (List.length calls)))
      with (attempts + 1 + Z.of_nat (List.length calls)) by lia.
    exact Hcan'.
Qed.

(** C8. The guess rate limiter.  Starting when no attempt is recorded or
    the window since the last recorded attempt has elapsed, the counter is
    reset before the current attempt is counted, so ten (wrong) guesses,
    each less than 60 seconds after the recorded time of the one before,
    are all accepted; an eleventh guess within the window is rejected with
    [resource-exhausted] and changes nothing; and a guess that comes 60
    seconds or more after the last counted attempt is accepted again with
    the counter back at 1. *)
Theorem guess_rate_limit_window s a rid ucid code attempts last
    g1 now1 ts1 wid1 (rest : list GuessCall) :
  canGuess s (uid a) rid ucid code attempts last ->
  match last with
  | Some l => RATE_LIMIT_WINDOW_MS <= now1 - l
  | None => True
  end ->
  List.length rest = 9%nat ->
  Forall (wrongGuess code) ((g1, now1, ts1, wid1) :: rest) ->
  spaced ts1 rest ->
  exists s10,
    submitGuesses (Some a) ((g1, now1, ts1, wid1) :: rest) s
      = (s10, repeat (inr incorrectResponse) 10) /\
    canGuess s10 (uid a) rid ucid code 10 (Some (lastStamp ts1 rest)) /\
    (forall g now ts wid,
        validGuessFormat g = true ->
        now - lastStamp ts1 rest < RATE_LIMIT_WINDOW_MS ->
        submitGuess (Some a) g now ts wid s10 = (s10, inl tooManyAttempts)) /\
    (forall g now ts wid,
        wrongGuess code (g, now, ts, wid) ->
        RATE_LIMIT_WINDOW_MS <= now - lastStamp ts1 rest ->
        exists s11,
          submitGuess (Some a) g now ts wid s10 = (s11, inr incorrectResponse) /\
          canGuess s11 (uid a) rid ucid code 1 (Some ts)).
Proof.
  intros Hcan Helapsed Hlen Hall Hsp.
  inversion Hall as [|? ? Hwrong1 Hall']; subst.
  destruct (submitGuess_wrong_accepted s a rid ucid code attempts last
              g1 now1 ts1 wid1 Hcan Hwrong1) as [s1 [Hs1 Hcan1]].
  { destruct last as [l|]; [|discriminate].
    destruct (Z.ltb_spec (now1 - l) RATE_LIMIT_WINDOW_MS); [lia|discriminate]. }
  cbv zeta in Hcan1.
  assert (Hcan1' : canGuess s1 (uid a) rid ucid code 1 (Some ts1)).
  { destruct last as [l|]; [|exact Hcan1].
    destruct (Z.ltb_spec (now1 - l) RATE_LIMIT_WINDOW_MS); [lia|exact Hcan1]. }
  destruct (submitGuesses_accepted a rid ucid code rest s1 1 ts1 Hcan1' Hall' Hsp)
    as [s10 [Hs10 Hcan10]].
  { rewrite Hlen. unfold MAX_ATTEMPTS_PER_WINDOW. lia. }
  rewrite Hlen in Hs10, Hcan10. change (1 + Z.of_nat 9) with 10 in Hcan10.
  exists s10. split; [|split; [exact Hcan10|split]].
  - cbn [submitGuesses]. rewrite Hs1, Hs10. reflexivity.
  - intros g now ts wid Hfmt Hwin.
    apply (submitGuess_limited s10 a rid ucid code 10 (lastStamp ts1 rest));
      try assumption. unfold MAX_ATTEMPTS_PER_WINDOW. lia.
  - intros g now ts wid Hwrong Hlate.
    destruct (submitGuess_wrong_accepted s10 a rid ucid code 10
                (Some (lastStamp ts1 rest)) g now ts wid Hcan10 Hwrong)
      as [s11 [Hs11 Hcan11]].
    { destruct (Z.ltb_spec (now - lastStamp ts1 rest) RATE_LIMIT_WINDOW_MS);
        [lia|discriminate]. }
    cbv zeta in Hcan11.
    destruct (Z.ltb_spec (now - lastStamp ts1 rest) RATE_LIMIT_WINDOW_MS); [lia|].
    exists s11. split; assumption.
Qed.

Lemma guess_rate_limit_window_witness :
  let a := mkAuth "alice" None in
  let s := mkStore
             [("r1", Round.mk "r1" 1 true 0 10 0 None false)]
             [("alice", User.mk None 0 0 (Some "r1") false 0 0 User.unselected [] 0
                                None None)]
             [("uc1", UserCode.mk "alice" "r1" [0; 1; 2; 3; 4; 5; 6] false 0 0 [])]
             [] [] in
  let wrong := [9; 9; 9; 9; 9; 9; 8] in
  let rest : list GuessCall :=
    map (fun t => (wrong, t, t, "w")) [2000; 3000; 4000; 5000; 6000; 7000; 8000; 9000; 10000] in
  exists s10,
    submitGuesses (Some a) ((wrong, 1000, 1000, "w") :: rest) s
      = (s10, repeat (inr incorrectResponse) 10) /\
    submitGuess (Some a) wrong 11000 11000 "w" s10 = (s10, inl tooManyAttempts).
Proof.
  intros a s wrong rest.
  destruct (guess_rate_limit_window s a "r1" "uc1" [0; 1; 2; 3; 4; 5; 6] 0 None
              wrong 1000 1000 "w" rest) as [s10 [Hrun [_ [Hreject _]]]].
  - split; [|split; [|split]].
    + repeat constructor. simpl. tauto.
    + eexists. reflexivity.
    + eexists. repeat split; reflexivity.
    + eexists. repeat split; reflexivity.
  - exact I.
  - reflexivity.
  - repeat constructor.
  - vm_compute. repeat split; reflexivity.
  - exists s10. split; [exact Hrun|].
    apply Hreject; reflexivity.
Defined.

(** ** Inversion of committed transaction bodies *)

Lemma bind_inr {A B} (m : Tx A) (k : A -> Tx B) s ws b ws' :
  bind m k s ws = inr (b, ws') ->
  exists a ws1, m s ws = inr (a, ws1) /\ k a s ws1 = inr (b, ws').
Proof.
  unfold bind. destruct (m s ws) as [e|[a ws1]]; [discriminate|]. eauto.
Qed.

Lemma orThrow_inr {A} (o : option A) e s ws a ws' :
  orThrow o e s ws = inr (a, ws') -> o = Some a /\ ws' = ws.
Proof.
  destruct o; simpl; [|discriminate]. unfold ret. now intros [= -> ->].
Qed.

Lemma snapshot_inr s ws s0 ws' :
  snapshot s ws = inr (s0, ws') -> s0 = s /\ ws' = ws /\ ws = [].
Proof. unfold snapshot. destruct ws; [intros [= -> ->]; auto|discriminate]. Qed.

Lemma ret_inr {A} (a : A) s ws a' ws' : ret a s ws = inr (a', ws') -> a' = a /\ ws' = ws.
Proof. unfold ret. now intros [= -> ->]. Qed.

Lemma write_inr w s ws u ws' : write w s ws = inr (u, ws') -> ws' = ws ++ [w].
Proof. unfold write. now intros [= _ ->]. Qed.

Lemma throw_inr {A} e s ws (a : A) ws' : throw e s ws = inr (a, ws') -> False.
Proof. discriminate. Qed.

Ltac tx_inv H :=
  cbv beta zeta in H;
  lazymatch type of H with
  | bind _ _ _ _ = inr _ =>
      let H1 := fresh "Hm" in
      let H2 := fresh "Hk" in
      apply bind_inr in H; destruct H as (? & ? & H1 & H2);
      tx_inv H1; tx_inv H2
  | orThrow _ _ _ _ = inr _ =>
      let E := fresh "Hq" in
      apply orThrow_inr in H; destruct H as [E ?]; subst
  | snapshot _ _ = inr _ =>
      let Hnil := fresh "Hnil" in
      apply snapshot_inr in H; destruct H as (? & ? & Hnil);
      first [ destruct (app_cons_not_nil _ _ _ (eq_sym Hnil)) | subst ]
  | ret _ _ _ = inr _ => apply ret_inr in H; destruct H; subst
  | write _ _ _ = inr _ => apply write_inr in H; subst
  | throw _ _ _ = inr _ => destruct (throw_inr _ _ _ _ _ H)
  | when_ ?b _ _ _ = inr _ =>
      let E := fresh "Hc" in
      destruct b eqn:E; cbn [when_] in H; tx_inv H
  | guessRateLimit _ _ _ _ _ = inr _ => unfold guessRateLimit in H; tx_inv H
  | endRound _ _ _ _ = inr _ => unfold endRound in H; tx_inv H
  | (if ?b then _ else _) _ _ = inr _ =>
      let E := fresh "Hc" in
      destruct b eqn:E; tx_inv H
  | (match ?x with _ => _ end) _ _ = inr _ =>
      let E := fresh "Hq" in
      destruct x eqn:E; tx_inv H
  | _ => idtac
  end.

Ltac upd_inv H :=
  repeat match type of H with
  | match update_doc ?k ?f ?c with _ => _ end = Some _ =>
      let c' := fresh "c" in
      let E := fresh "Eu" in
      destruct (update_doc k f c) as [c'|] eqn:E; [|discriminate H]
  end;
  try (injection H as H).

Ltac get_upd :=
  repeat match goal with
  | E : update_doc ?k ?f ?c = Some ?c' |- context [get_doc ?k' ?c'] =>
      rewrite (get_doc_update_doc k f c c' k' E)
  end;
  rewrite ?String.eqb_refl.

Lemma userCodeQuery_In u r s k c :
  userCodeQuery u r s = Some (k, c) ->
  In (k, c) (userCodes s) /\ UserCode.userId c = u /\ UserCode.roundId c = r.
Proof.
  unfold userCodeQuery. intros H. apply query_head in H. destruct H as [Hin Hp].
  apply andb_true_iff in Hp. destruct Hp as [H1 H2].
  apply String.eqb_eq in H1, H2. auto.
Qed.

Lemma activeRoundQuery_In s k r :
  activeRoundQuery s = Some (k, r) -> In (k, r) (rounds s) /\ Round.isActive r = true.
Proof. unfold activeRoundQuery. apply query_head. Qed.

(** C3 (as the code has it). A [submitGuess] call that commits has passed
    the limiter and charges one attempt on the UserCode and on the player
    whether the guess is correct or not; the one exception is the winning
    call that closes the round, whose transaction clears the player's
    counter to 0 after the increment.  A call that is rejected, the
    rejection because the round has reached its quota included, aborts its
    transaction: the store, and with it both attempt counters, is
    unchanged. *)
Theorem submitGuess_attempts_charged_on_commit auth g now ts wid s s' res :
  NoDup (keys (userCodes s)) ->
  submitGuess auth g now ts wid s = (s', res) ->
  match res with
  | inl _ => s' = s
  | inr resp =>
      exists a rid r u ucid uc u' uc',
        auth = Some a /\
        activeRoundQuery s = Some (rid, r) /\
        get_doc (uid a) (users s) = Some u /\
        userCodeQuery (uid a) rid s = Some (ucid, uc) /\
        sg_isCorrect resp = areCodesEqual g (UserCode.secretCode uc) /\
        get_doc ucid (userCodes s') = Some uc' /\
        UserCode.attempts uc' = UserCode.attempts uc + 1 /\
        get_doc (uid a) (users s') = Some u' /\
        User.attemptsInCurrentRound u' =
          (if sg_roundEnded resp then 0 else attemptsBase u now + 1)
  end.
Proof.
  intros Hnd H. unfold submitGuess in H.
  destruct auth as [a|]; [|injection H as <- <-; reflexivity].
  destruct (validGuessFormat g); cbn [negb] in H; [|injection H as <- <-; reflexivity].
  destruct (runTransaction _ s) as [s1 [e|o]] eqn:Hrun; injection H as <- <-.
  { eapply runTransaction_abort; eassumption. }
  apply runTransaction_inv in Hrun.
  destruct Hrun as [[_ [e He]]|[o' [ws [Hbody [Happ Ho]]]]]; [discriminate|].
  injection Ho as <-.
  apply apply_writes_views in Happ. destruct Happ as (_ & Hus & Hucs & _ & _).
  unfold submitGuess_tx in Hbody. tx_inv Hbody.
  all: destruct x as [rid r]; destruct x1 as [ucid uc]; cbn [fst snd] in *.
  all: destruct (userCodeQuery_In _ _ _ _ _ Hq1) as [Hin _].
  all: pose proof (In_get_doc _ _ _ Hnd Hin) as Hguc.
  all: cbn [app fold_writes on_users on_userCodes] in Hus, Hucs.
  all: upd_inv Hus; upd_inv Hucs; subst.
  all: exists a, rid, r, x0, ucid, uc; eexists; eexists.
  all: repeat (split; [solve [eauto]|]).
  all: cbn [sg_isCorrect sg_roundEnded isCorrectGuess roundEnded].
  all: split; [get_upd; rewrite Hguc; reflexivity|].
  all: split; [reflexivity|].
  all: split; [get_upd; rewrite Hq0; reflexivity|].
  all: try reflexivity.
  all: unfold attemptsBase; rewrite Hq2; try rewrite Hc1; reflexivity.
Qed.

(** C3, counterexample.  In a store whose active round already
    holds [maxWinners] winners, a correct guess passes the limiter and is
    rejected with the quota error, and neither attempt counter moves. *)
Lemma submitGuess_quota_rejection_charges_nothing :
  let a := mkAuth "alice" None in
  let u := User.mk None 0 0 (Some "r1") false 0 0 User.unselected [] 0 None None in
  let uc := UserCode.mk "alice" "r1" [0; 1; 2; 3; 4; 5; 6] false 0 0 [] in
  let s := mkStore [("r1", Round.mk "r1" 1 true 10 10 0 None false)]
                   [("alice", u)] [("uc1", uc)] [] [] in
  let out := submitGuess (Some a) [0; 1; 2; 3; 4; 5; 6] 1000 1000 "w1" s in
  guessRateLimit "alice" u 1000 s [] = inr (tt, [UpdateUser "alice" User.resetAttempts]) /\
  snd out = inl quotaReached /\
  option_map UserCode.attempts (get_doc "uc1" (userCodes s)) = Some 0 /\
  option_map UserCode.attempts (get_doc "uc1" (userCodes (fst out))) = Some 0 /\
  option_map User.attemptsInCurrentRound (get_doc "alice" (users s)) = Some 0 /\
  option_map User.attemptsInCurrentRound (get_doc "alice" (users (fst out))) = Some 0.
Proof.
  repeat split.
Qed.

(** ** confirmPayment *)

Lemma bind_inl {A B} (m : Tx A) (k : A -> Tx B) s ws e :
  bind m k s ws = inl e ->
  m s ws = inl e \/ exists a ws1, m s ws = inr (a, ws1) /\ k a s ws1 = inl e.
Proof.
  unfold bind. destruct (m s ws) as [e'|[a ws1]]; [left; congruence | right; eauto].
Qed.

Lemma snapshot_inl s ws e :
  snapshot s ws = inl e -> e = ReadAfterWrite /\ ws <> [].
Proof. unfold snapshot. destruct ws; [discriminate|intros [= <-]; easy]. Qed.

Ltac tx_invl H :=
  cbv beta zeta in H;
  lazymatch type of H with
  | bind _ _ _ _ = inl _ =>
      let H1 := fresh "Hm" in
      let H2 := fresh "Hk" in
      apply bind_inl in H; destruct H as [H|(? & ? & H1 & H2)];
      [tx_invl H | tx_inv H1; tx_invl H2]
  | orThrow ?o _ _ _ = inl _ =>
      let E := fresh "Hq" in
      destruct o eqn:E; cbn [orThrow] in H; tx_invl H
  | snapshot _ _ = inl _ =>
      let Hne := fresh "Hne" in
      apply snapshot_inl in H; destruct H as [H Hne];
      first [ discriminate H | now destruct Hne | idtac ]
  | ret _ _ _ = inl _ => discriminate H
  | write _ _ _ = inl _ => discriminate H
  | throw _ _ _ = inl _ => unfold throw in H
  | when_ ?b _ _ _ = inl _ =>
      let E := fresh "Hc" in
      destruct b eqn:E; cbn [when_] in H; tx_invl H
  | guessRateLimit _ _ _ _ _ = inl _ => unfold guessRateLimit in H; tx_invl H
  | endRound _ _ _ _ = inl _ => unfold endRound in H; tx_invl H
  | (if ?b then _ else _) _ _ = inl _ =>
      let E := fresh "Hc" in
      destruct b eqn:E; tx_invl H
  | (match ?x with _ => _ end) _ _ = inl _ =>
      let E := fresh "Hq" in
      destruct x eqn:E; tx_invl H
  | _ => idtac
  end.

(** The responses sent from inside the transaction body are not the
    success response. *)
Lemma confirmPayment_tx_responses pid txid ts s r m :
  confirmPayment_tx pid txid ts s [] = inl (Responded r m) ->
  body r <> "Payment confirmed and hint provided.".
Proof.
  intros H. unfold confirmPayment_tx in H. tx_invl H.
  all: match goal with
       | E : inl _ = inl _ |- _ => injection E as <- <-; discriminate
       end.
Qed.

(** A request that is completed with its hint provided is answered
    without a transaction commit. *)
Lemma confirmPayment_already_processed pid txid ts s p :
  falsy (Some pid) = false -> falsy (Some txid) = false ->
  get_doc pid (payments s) = Some p ->
  Payment.status p = completed -> Payment.hintProvided p = true ->
  confirmPayment (Some pid) (Some txid) ts s = (s, [alreadyProcessed]).
Proof.
  intros Hp Ht Hget Hst Hh.
  unfold confirmPayment. rewrite Hp, Ht. cbn [orb].
  unfold runTransaction, confirmPayment_tx, bind, snapshot, orThrow, when_, throw, ret.
  cbv beta. rewrite Hget. cbv beta iota. rewrite Hst, Hh. reflexivity.
Qed.

(** ** Effects of the operations on the collections *)

Lemma update_doc_compose {A} k (f g : A -> A) (c c1 c2 : Collection A) :
  update_doc k f c = Some c1 -> update_doc k g c1 = Some c2 ->
  update_doc k (fun d => g (f d)) c = Some c2.
Proof.
  revert c1 c2.
  induction c as [|[k0 d0] c IH]; simpl; intros c1 c2; [discriminate|].
  destruct (String.eqb k k0) eqn:E.
  - intros [= <-]. simpl. rewrite E. now intros [= <-].
  - destruct (update_doc k f c) as [c'|]; [|discriminate].
    intros [= <-]. simpl. rewrite E.
    destruct (update_doc k g c') as [c''|] eqn:E2; [|discriminate].
    intros [= <-]. now rewrite (IH c' c'' eq_refl E2).
Qed.

Ltac run_inv H :=
  apply runTransaction_inv in H;
  let a := fresh "a" in
  let ws := fresh "ws" in
  let Hbody := fresh "Hbody" in
  let Happ := fresh "Happ" in
  let Hres := fresh "Hres" in
  let e := fresh "e" in
  destruct H as [[-> [e Hres]]|(a & ws & Hbody & Happ & Hres)].

Ltac views Happ :=
  apply apply_writes_views in Happ;
  let Hr := fresh "Vrounds" in
  let Hu := fresh "Vusers" in
  let Hc := fresh "Vcodes" in
  let Hw := fresh "Vwinners" in
  let Hp := fresh "Vpayments" in
  destruct Happ as (Hr & Hu & Hc & Hw & Hp);
  cbn [app fold_writes on_rounds on_users on_userCodes on_winners on_payments]
    in Hr, Hu, Hc, Hw, Hp.

Lemma submitGuess_inv auth g now ts wid s s' res :
  submitGuess auth g now ts wid s = (s', res) ->
  (s' = s /\ exists e, res = inl e) \/
  exists a o ws,
    auth = Some a /\
    submitGuess_tx (uid a) g now ts wid s [] = inr (o, ws) /\
    apply_writes ws s = Some s' /\
    res = inr (mkGuessResponse true (isCorrectGuess o) (isCorrectGuess o)
                 (roundEnded o) (winnerNumber o)
                 (if isCorrectGuess o
                  then "Congratulations! You guessed the code correctly!"
                  else "Incorrect code. Try again!")).
Proof.
  unfold submitGuess. intros H.
  destruct auth as [a|]; [|injection H as <- <-; left; eauto].
  destruct (validGuessFormat g); cbn [negb] in H; [|injection H as <- <-; left; eauto].
  destruct (runTransaction _ s) as [s1 [e|o]] eqn:Hrun; injection H as <- <-.
  - left. split; [|eauto]. eapply runTransaction_abort; eassumption.
  - run_inv Hrun; [discriminate|]. injection Hres as <-.
    right. eexists a, _, _. eauto.
Qed.

Lemma submitGuess_rounds_winners auth g now ts wid s s' res :
  submitGuess auth g now ts wid s = (s', res) ->
  (rounds s' = rounds s /\ winners s' = winners s /\
   forall resp, res = inr resp -> sg_isCorrect resp = false) \/
  exists a rid r code f,
    auth = Some a /\
    activeRoundQuery s = Some (rid, r) /\
    Round.winnerCount r < Round.maxWinners r /\
    countsOneWinner f /\
    ((f = Round.incrWinnerCount /\
      Round.winnerCount r + 1 <> Round.maxWinners r) \/
     f = (fun d => Round.close ts (Round.incrWinnerCount d))) /\
    update_doc rid f (rounds s) = Some (rounds s') /\
    winners s' = set_doc wid (Winner.mk rid (uid a) (Round.winnerCount r + 1) ts code)
                   (winners s) /\
    exists resp, res = inr resp /\ sg_isCorrect resp = true /\
                 sg_winnerNumber resp = Some (Round.winnerCount r + 1) /\
                 sg_roundEnded resp
                 = (Round.winnerCount r + 1 =? Round.maxWinners r).
Proof.
  intros H. apply submitGuess_inv in H.
  destruct H as [[-> [e ->]]|(a & o & ws & -> & Hbody & Happ & ->)].
  { left. repeat split. discriminate. }
  unfold submitGuess_tx in Hbody. tx_inv Hbody.
  all: views Happ.
  all: destruct x as [rid r]; destruct x1 as [ucid uc]; cbn [fst snd] in *.
  all: try (left; split; [congruence|split; [congruence|]];
            intros resp [= <-]; reflexivity).
  all: right; upd_inv Vrounds; injection Vwinners as Vwinners.
  all: exists a, rid, r, (UserCode.secretCode uc).
  all: match goal with
       | Hlt : (Round.maxWinners _ <=? Round.winnerCount _) = false |- _ =>
           apply Z.leb_gt in Hlt
       end.
  all: match goal with
       | Hl : (_ =? _) = true |- _ =>
           exists (fun d => Round.close ts (Round.incrWinnerCount d))
       | Hl : (_ =? _) = false |- _ =>
           exists Round.incrWinnerCount
       end.
  all: split; [reflexivity|]; split; [assumption|]; split; [assumption|].
  all: split; [intros d; split; reflexivity|].
  all: split; [first [ right; reflexivity
                     | left; split; [reflexivity | apply Z.eqb_neq; assumption] ]|].
  all: split; [first [ subst; eapply update_doc_compose; eassumption
                     | congruence ]|].
  all: split; [congruence|].
  all: eexists; split; [reflexivity|]; split; [reflexivity|];
       split; [reflexivity|]; cbn; congruence.
Qed.

Lemma submitGuess_userCodes_kept auth g now ts wid s s' res :
  submitGuess auth g now ts wid s = (s', res) ->
  userCodes s' = userCodes s \/
  exists k f, keepsCode f /\ keepsHints f /\ keepsOwner f /\
              update_doc k f (userCodes s) = Some (userCodes s').
Proof.
  intros H. apply submitGuess_inv in H.
  destruct H as [[-> _]|(a & o & ws & -> & Hbody & Happ & ->)]; [left; auto|].
  unfold submitGuess_tx in Hbody. tx_inv Hbody.
  all: views Happ.
  all: right; upd_inv Vcodes; subst.
  all: first [ exists (fst x1), UserCode.countAttempt;
               split; [easy | split; [easy | split; [easy | assumption]]]
             | exists (fst x1), (fun d => UserCode.markWinner (UserCode.countAttempt d));
               split; [easy | split; [easy | split; [easy
                 | eapply update_doc_compose; eassumption]]] ].
Qed.

Lemma startRound_rounds ts newRoundId s s' res :
  startRound ts newRoundId s = (s', res) ->
  s' = s \/
  (winners s' = winners s /\
   exists c1 n,
     rounds s' = set_doc newRoundId (Round.mk newRoundId n true 0 10 ts None false) c1 /\
     (c1 = rounds s \/
      exists lastId, update_doc lastId (Round.close ts) (rounds s) = Some c1)).
Proof.
  unfold startRound. intros H.
  destruct (runTransaction _ s) as [s1 [e|o]] eqn:Hrun.
  - injection H as <- _. left. eapply runTransaction_abort; eassumption.
  - assert (s' = s1) by (destruct (String.eqb newRoundId EmptyString); now injection H).
    subst s1. clear H.
    run_inv Hrun; [discriminate|]. right.
    unfold startRound_tx in Hbody. tx_inv Hbody.
    + views Happ. upd_inv Vrounds. split; [congruence|].
      eexists _, _. split; [symmetry; eassumption|]. right. eauto.
    + views Happ. upd_inv Vrounds. split; [congruence|].
      eexists _, _. split; [symmetry; eassumption|]. now left.
Qed.

Lemma finishRound_rounds roundId ts s s' res :
  finishRound roundId ts s = (s', res) ->
  s' = s \/
  (winners s' = winners s /\
   exists rid, update_doc rid (Round.close ts) (rounds s) = Some (rounds s')).
Proof.
  unfold finishRound. intros H.
  destruct roundId as [rid|]; [|injection H as <- _; now left].
  destruct (falsy (Some rid)); [injection H as <- _; now left|].
  destruct (runTransaction _ s) as [s1 [e|o]] eqn:Hrun; injection H as <- _.
  - left. eapply runTransaction_abort; eassumption.
  - run_inv Hrun; [discriminate|]. right.
    unfold finishRound_tx in Hbody. tx_inv Hbody. views Happ.
    upd_inv Vrounds. split; [congruence|]. exists rid. congruence.
Qed.


Lemma requestHint_effect auth now ts pick newPaymentId s s' res :
  requestHint auth now ts pick newPaymentId s = (s', res) ->
  rounds s' = rounds s /\ winners s' = winners s /\ userCodes s' = userCodes s.
Proof.
  unfold requestHint. intros H.
  destruct auth as [a|]; [|injection H as <- _; auto].
  destruct (runTransaction _ s) as [s1 [e|o]] eqn:Hrun; injection H as <- _.
  - apply runTransaction_abort in Hrun. subst. auto.
  - run_inv Hrun; [discriminate|].
    unfold requestHint_tx in Hbody. tx_inv Hbody. views Happ.
    repeat split; congruence.
Qed.

(** [assignSecretCode] reads the player's document after it has queued
    the new user code, and [confirmPayment] queries the user code after it
    has queued the update of the payment: both transactions fail at that
    read, so neither operation ever changes the store. *)
Lemma assignSecretCode_unchanged auth fuel gfuel rnd ts newUserCodeId s s' res :
  assignSecretCode auth fuel gfuel rnd ts newUserCodeId s = Some (s', res) -> s' = s.
Proof.
  unfold assignSecretCode. intros H.
  destruct auth as [a|]; [|now injection H as <- _].
  destruct (runTransaction _ s) as [s1 [e|[[rid existing]|]]] eqn:Hrun;
    [injection H as <- _| injection H as <- _ | discriminate].
  - apply runTransaction_abort in Hrun. now subst.
  - run_inv Hrun; [reflexivity|].
    unfold assignSecretCode_tx in Hbody. tx_inv Hbody.
    all: cbn in Happ; congruence.
Qed.

Lemma confirmPayment_unchanged paymentId transactionId ts s s' rs :
  confirmPayment paymentId transactionId ts s = (s', rs) -> s' = s.
Proof.
  unfold confirmPayment. intros H.
  destruct paymentId as [pid|]; [|now injection H as <- _].
  destruct transactionId as [txid|]; [|now injection H as <- _].
  destruct (falsy (Some pid) || falsy (Some txid)); [now injection H as <- _|].
  destruct (runTransaction _ s) as [s1 [e|o]] eqn:Hrun.
  - apply runTransaction_abort in Hrun. subst.
    destruct e; now injection H as <- _.
  - injection H as <- _. run_inv Hrun; [reflexivity|].
    unfold confirmPayment_tx in Hbody. tx_inv Hbody.
Qed.

(** ** Preservation of the invariants *)

Lemma ranksOf_nil rid (ws : Collection Winner.t) :
  (forall k w, In (k, w) ws -> Winner.roundId w <> rid) -> ranksOf rid ws = [].
Proof.
  unfold ranksOf. induction ws as [|[k w] ws IH]; intros H; simpl; [reflexivity|].
  destruct (String.eqb_spec (Winner.roundId w) rid) as [E|_].
  - exfalso. apply (H k w); [now left | assumption].
  - apply IH. intros k' w' Hin. apply (H k' w'). now right.
Qed.

Lemma ranksOf_set_doc rid wid w (ws : Collection Winner.t) :
  fresh wid ws ->
  Permutation (ranksOf rid (set_doc wid w ws))
              ((if String.eqb (Winner.roundId w) rid then [Winner.winnerNumber w] else [])
               ++ ranksOf rid ws).
Proof.
  intros Hf. unfold ranksOf.
  pose proof (set_doc_perm wid w ws Hf) as P.
  apply (Permutation_map snd) in P.
  apply (Permutation_filter (fun w => String.eqb (Winner.roundId w) rid)) in P.
  apply (Permutation_map Winner.winnerNumber) in P.
  etransitivity; [exact P|]. simpl.
  destruct (String.eqb (Winner.roundId w) rid); reflexivity.
Qed.

Lemma rw_inv_update_keeps rs rs' ws k f :
  rw_inv rs ws -> update_doc k f rs = Some rs' -> keepsCounts f -> rw_inv rs' ws.
Proof.
  intros (Hnd & Hr & Hw) Hu Hf.
  pose proof (update_doc_keys _ _ _ _ Hu) as Hk.
  split; [now rewrite Hk|split].
  - intros k' r' Hin.
    destruct (update_doc_In _ _ _ _ _ _ Hu Hin) as [Hold|[d [Hold [_ ->]]]].
    + now apply Hr.
    + destruct (Hf d) as [-> ->]. now apply Hr.
  - intros k' w Hin. rewrite Hk. eapply Hw; eassumption.
Qed.

Lemma rw_inv_new_round rs ws newRoundId n ts :
  rw_inv rs ws -> fresh newRoundId rs ->
  rw_inv (set_doc newRoundId (Round.mk newRoundId n true 0 10 ts None false) rs) ws.
Proof.
  intros (Hnd & Hr & Hw) Hf.
  split; [now apply set_doc_NoDup|split].
  - intros k r Hin. apply set_doc_In in Hin; [|assumption].
    destruct Hin as [[= -> ->]|Hin]; [|now apply Hr].
    cbn. rewrite ranksOf_nil.
    + split; [lia|]. split; [reflexivity|]. split; [constructor|].
      intros z. split; [intros []|lia].
    + intros k w Hin E. apply Hf. rewrite <- E. eapply Hw; eassumption.
  - intros k w Hin. specialize (Hw k w Hin).
    unfold keys in Hw. apply in_map_iff in Hw. destruct Hw as [[k' d] [E Hd]].
    simpl in E. subst k'.
    eapply In_keys. apply set_doc_In; [assumption|]. right. eassumption.
Qed.

Lemma rw_inv_winner rs rs' ws rid r f wid u ts code :
  rw_inv rs ws -> In (rid, r) rs ->
  Round.winnerCount r < Round.maxWinners r ->
  countsOneWinner f -> update_doc rid f rs = Some rs' -> fresh wid ws ->
  rw_inv rs' (set_doc wid (Winner.mk rid u (Round.winnerCount r + 1) ts code) ws).
Proof.
  intros (Hnd & Hr & Hw) Hin Hlt Hf Hu Hfresh.
  pose proof (update_doc_keys _ _ _ _ Hu) as Hk.
  split; [now rewrite Hk|split].
  - intros k r' Hin'.
    pose proof (ranksOf_set_doc k wid
                  (Winner.mk rid u (Round.winnerCount r + 1) ts code) ws Hfresh) as P.
    cbn [Winner.roundId Winner.winnerNumber] in P.
    destruct (String.eqb_spec rid k) as [<-|Hne].
    + destruct (update_doc_In_same _ _ _ _ _ Hnd Hu Hin') as [d [Hd ->]].
      assert (d = r).
      { pose proof (In_get_doc _ _ _ Hnd Hd). pose proof (In_get_doc _ _ _ Hnd Hin).
        congruence. }
      subst d. destruct (Hf r) as [-> ->].
      destruct (Hr rid r Hin) as (Hb & Hmax & Hnd' & Hranks).
      split; [lia|]. split; [assumption|]. split.
      * apply (Permutation_NoDup (Permutation_sym P)). simpl. constructor; [|assumption].
        intros Hz. apply Hranks in Hz. lia.
      * intros z. split; intros Hz.
        -- apply (Permutation_in _ P) in Hz. simpl in Hz.
           destruct Hz as [<-|Hz]; [lia|]. apply Hranks in Hz. lia.
        -- apply (Permutation_in _ (Permutation_sym P)). simpl.
           destruct (Z.eq_dec z (Round.winnerCount r + 1)) as [->|Hn]; [now left|].
           right. apply Hranks. lia.
    + assert (Hold : In (k, r') rs).
      { eapply update_doc_In_other; [eassumption..|congruence]. }
      destruct (Hr k r' Hold) as (Hb & Hmax & Hnd' & Hranks).
      simpl in P. split; [lia|]. split; [assumption|]. split.
      * apply (Permutation_NoDup (Permutation_sym P)). assumption.
      * intros z. split; intros Hz.
        -- apply (Permutation_in _ P) in Hz. now apply Hranks.
        -- apply (Permutation_in _ (Permutation_sym P)). now apply Hranks.
  - intros k w Hin'. rewrite Hk.
    apply set_doc_In in Hin'; [|assumption].
    destruct Hin' as [[= _ ->]|Hin']; [|eapply Hw; eassumption].
    cbn. eapply In_keys; eassumption.
Qed.

Lemma keepsCounts_close ts : keepsCounts (Round.close ts).
Proof. intros d. split; reflexivity. Qed.

Lemma step_rounds_inv s s' : step s s' -> rounds_inv s -> rounds_inv s'.
Proof.
  unfold rounds_inv.
  intros Hstep Hinv. destruct Hstep.
  - destruct (startRound ts newRoundId s) as [s1 res] eqn:E. cbn [fst].
    apply startRound_rounds in E.
    destruct E as [->|(-> & c1 & n & -> & Hc1)]; [assumption|].
    destruct Hc1 as [->|[lastId Hu]].
    + now apply rw_inv_new_round.
    + apply rw_inv_new_round.
      * eapply rw_inv_update_keeps; [eassumption..|apply keepsCounts_close].
      * unfold fresh. now rewrite (update_doc_keys _ _ _ _ Hu).
  - apply assignSecretCode_unchanged in H0. subst. assumption.
  - destruct (submitGuess auth guessedCode now ts newWinnerId s) as [s1 res] eqn:E.
    cbn [fst]. apply submitGuess_rounds_winners in E.
    destruct E as [(-> & -> & _)|(a & rid & r & code & f & _ & Hq & Hlt & Hf & _ & Hu & -> & _)];
      [assumption|].
    apply activeRoundQuery_In in Hq. destruct Hq as [Hin _].
    eapply rw_inv_winner; eassumption.
  - destruct (requestHint auth now ts pick newPaymentId s) as [s1 res] eqn:E.
    cbn [fst]. apply requestHint_effect in E. destruct E as (-> & -> & _). assumption.
  - destruct (confirmPayment paymentId transactionId ts s) as [s1 res] eqn:E.
    cbn [fst]. apply confirmPayment_unchanged in E. subst. assumption.
  - destruct (finishRound roundId ts s) as [s1 res] eqn:E. cbn [fst].
    apply finishRound_rounds in E. destruct E as [->|(-> & rid & Hu)]; [assumption|].
    eapply rw_inv_update_keeps; [eassumption..|apply keepsCounts_close].
Qed.

(** The store of a fresh deployment is a starting point. *)
Lemma emptyStore_consistent : consistent emptyStore.
Proof.
  unfold consistent, rounds_inv, rw_inv, open_inv, codes_inv, uc_inv, rounds_seq,
    codes_wf, payments_wf, winners_wf. cbn.
  repeat match goal with
         | |- _ /\ _ => split
         | |- NoDup [] => constructor
         | |- _ <-> _ => split
         | |- _ => intro
         end; try contradiction; try lia.
Qed.

Lemma reachable_empty : reachable emptyStore.
Proof. apply reachable_seed, emptyStore_consistent. Qed.

Lemma reachable_rounds_inv s : reachable s -> rounds_inv s.
Proof.
  induction 1 as [s Hs|s s' _ IH Hstep].
  - apply Hs.
  - eapply step_rounds_inv; eassumption.
Qed.

Lemma open_inv_close rs rs' k ts :
  open_inv rs -> update_doc k (Round.close ts) rs = Some rs' -> open_inv rs'.
Proof.
  intros (Hnd & Hr) Hu.
  split; [now rewrite (update_doc_keys _ _ _ _ Hu)|].
  intros k' r' Hin Hact.
  destruct (update_doc_In _ _ _ _ _ _ Hu Hin) as [Hold|[d [_ [_ ->]]]].
  - now apply (Hr k').
  - discriminate.
Qed.

Lemma step_open_inv s s' : step s s' -> open_inv (rounds s) -> open_inv (rounds s').
Proof.
  intros Hstep Hinv. destruct Hstep.
  - destruct (startRound ts newRoundId s) as [s1 res] eqn:E. cbn [fst].
    apply startRound_rounds in E.
    destruct E as [->|(_ & c1 & n & -> & Hc1)]; [assumption|].
    assert (Hc : open_inv c1 /\ fresh newRoundId c1).
    { destruct Hc1 as [->|[lastId Hu]]; [auto|]. split.
      - eapply open_inv_close; eassumption.
      - unfold fresh. now rewrite (update_doc_keys _ _ _ _ Hu). }
    destruct Hc as [(Hnd & Hr) Hf].
    split; [now apply set_doc_NoDup|].
    intros k r Hin Hact. apply set_doc_In in Hin; [|assumption].
    destruct Hin as [[= -> ->]|Hin]; [cbn; lia|]. now apply (Hr k).
  - apply assignSecretCode_unchanged in H0. subst. assumption.
  - destruct (submitGuess auth guessedCode now ts newWinnerId s) as [s1 res] eqn:E.
    cbn [fst]. apply submitGuess_rounds_winners in E.
    destruct E as [(-> & _)|(a & rid & r & code & f & _ & Hq & Hlt & _ & Hf & Hu & _)];
      [assumption|].
    destruct Hinv as (Hnd & Hr).
    apply activeRoundQuery_In in Hq. destruct Hq as [Hin _].
    split; [now rewrite (update_doc_keys _ _ _ _ Hu)|].
    intros k r' Hin' Hact.
    destruct (String.eqb_spec k rid) as [->|Hne].
    + destruct (update_doc_In_same _ _ _ _ _ Hnd Hu Hin') as [d [Hd ->]].
      assert (d = r).
      { pose proof (In_get_doc _ _ _ Hnd Hd). pose proof (In_get_doc _ _ _ Hnd Hin).
        congruence. }
      subst d. destruct Hf as [[-> Hneq]| ->]; [cbn; lia|discriminate].
    + apply (Hr k); [|assumption]. eapply update_doc_In_other; eassumption.
  - destruct (requestHint auth now ts pick newPaymentId s) as [s1 res] eqn:E.
    cbn [fst]. apply requestHint_effect in E. destruct E as (-> & _). assumption.
  - destruct (confirmPayment paymentId transactionId ts s) as [s1 res] eqn:E.
    cbn [fst]. apply confirmPayment_unchanged in E. subst. assumption.
  - destruct (finishRound roundId ts s) as [s1 res] eqn:E. cbn [fst].
    apply finishRound_rounds in E. destruct E as [->|(_ & rid & Hu)]; [assumption|].
    eapply open_inv_close; eassumption.
Qed.

(** The operations close a round with its last winner: a reachable store
    has no active round whose winner count has reached the quota. *)
Lemma reachable_open_inv s : reachable s -> open_inv (rounds s).
Proof.
  induction 1 as [s Hs|s s' _ IH Hstep].
  - apply Hs.
  - eapply step_open_inv; eassumption.
Qed.

(** A correct guess against a round whose winner count has reached the
    quota is rejected, and the rejection is the precondition error once
    the earlier checks have passed. *)
Lemma submitGuess_quota_guard a g now ts wid s rid r ucid uc s' res :
  activeRoundQuery s = Some (rid, r) ->
  userCodeQuery (uid a) rid s = Some (ucid, uc) ->
  areCodesEqual g (UserCode.secretCode uc) = true ->
  Round.maxWinners r <= Round.winnerCount r ->
  submitGuess (Some a) g now ts wid s = (s', res) ->
  s' = s /\
  exists e, res = inl e /\
    forall u,
      validGuessFormat g = true ->
      get_doc (uid a) (users s) = Some u ->
      User.isWinnerInCurrentRound u = false ->
      UserCode.isWinner uc = false ->
      attemptsBase u now < MAX_ATTEMPTS_PER_WINDOW ->
      e = quotaReached.
Proof.
  intros Hr Huc Hcorrect Hfull H.
  assert (Hleb : (Round.maxWinners r <=? Round.winnerCount r) = true)
    by (apply Z.leb_le; assumption).
  pose proof H as H0. apply submitGuess_inv in H0.
  destruct H0 as [[-> [e ->]]|(a' & o & ws & [= <-] & Hbody & _ & _)].
  - split; [reflexivity|]. exists e. split; [reflexivity|].
    intros u Hfmt Hu Hw Hwc Hlim.
    unfold submitGuess in H. rewrite Hfmt in H. cbn [negb] in H.
    unfold runTransaction, submitGuess_tx, guessRateLimit, bind, snapshot, orThrow,
      when_, write, ret, throw in H.
    cbv beta in H. rewrite Hr in H. cbv beta iota in H. cbn [fst snd] in H.
    rewrite Hu in H. cbv beta iota in H. rewrite Huc in H. cbv beta iota in H.
    cbn [fst snd] in H. rewrite Hw, Hwc, Hcorrect, Hleb in H.
    unfold attemptsBase in Hlim.
    destruct (User.lastGuessAttempt u) as [l|].
    + destruct (now - l <? RATE_LIMIT_WINDOW_MS).
      * destruct (Z.leb_spec MAX_ATTEMPTS_PER_WINDOW (User.attemptsInCurrentRound u)).
        -- exfalso. lia.
        -- cbv beta iota in H. cbn [rethrow] in H. unfold quotaReached. congruence.
      * cbv beta iota in H. cbn [rethrow] in H. unfold quotaReached. congruence.
    + cbv beta iota in H. cbn [rethrow] in H. unfold quotaReached. congruence.
  - exfalso. unfold submitGuess_tx in Hbody. tx_inv Hbody.
    all: rewrite Hr in Hq; injection Hq as <-; cbn [fst snd] in *.
    all: rewrite Huc in Hq1; injection Hq1 as <-; cbn [fst snd] in *.
    all: congruence.
Qed.

(** C1. In every reachable store the winner count of every round is
    within its quota, [maxWinners] = 10, and below it while the round is
    active.  [submitGuess] guards the increment: a correct guess against a
    round whose count has reached the quota changes nothing and fails,
    with the precondition error once the earlier checks have passed.
    Concurrent calls are serialized transactions, that is, steps of
    [reachable]. *)
Theorem winner_quota_never_exceeded :
  (forall s, reachable s ->
     forall k r, In (k, r) (rounds s) ->
       Round.maxWinners r = 10 /\
       0 <= Round.winnerCount r <= Round.maxWinners r /\
       (Round.isActive r = true -> Round.winnerCount r < Round.maxWinners r)) /\
  (forall a g now ts wid s rid r ucid uc s' res,
     activeRoundQuery s = Some (rid, r) ->
     userCodeQuery (uid a) rid s = Some (ucid, uc) ->
     areCodesEqual g (UserCode.secretCode uc) = true ->
     Round.maxWinners r <= Round.winnerCount r ->
     submitGuess (Some a) g now ts wid s = (s', res) ->
     s' = s /\
     exists e, res = inl e /\
       forall u,
         validGuessFormat g = true ->
         get_doc (uid a) (users s) = Some u ->
         User.isWinnerInCurrentRound u = false ->
         UserCode.isWinner uc = false ->
         attemptsBase u now < MAX_ATTEMPTS_PER_WINDOW ->
         e = quotaReached).
Proof.
  split.
  - intros s Hreach k r Hin.
    destruct (reachable_rounds_inv s Hreach) as (_ & Hr & _).
    destruct (Hr k r Hin) as (Hb & Hmax & _).
    split; [assumption|]. split; [assumption|].
    apply (proj2 (reachable_open_inv s Hreach) k r Hin).
  - intros. eapply submitGuess_quota_guard; eassumption.
Qed.

Lemma winner_quota_never_exceeded_witness :
  let s := fst (startRound 1000 "r1" emptyStore) in
  let a := mkAuth "alice" None in
  let r := Round.mk "r1" 1 true 10 10 0 None false in
  let u := User.mk None 0 0 (Some "r1") false 0 0 User.unselected [] 0 None None in
  let uc := UserCode.mk "alice" "r1" [0; 1; 2; 3; 4; 5; 6] false 0 0 [] in
  let full := mkStore [("r1", r)] [("alice", u)] [("uc1", uc)] [] [] in
  (forall k r, In (k, r) (rounds s) ->
     Round.maxWinners r = 10 /\ 0 <= Round.winnerCount r <= Round.maxWinners r /\
     (Round.isActive r = true -> Round.winnerCount r < Round.maxWinners r)) /\
  submitGuess (Some a) [0; 1; 2; 3; 4; 5; 6] 1000 1000 "w1" full = (full, inl quotaReached).
Proof.
  intros s a r u uc full. split.
  - apply (proj1 winner_quota_never_exceeded s).
    eapply reachable_step; [apply reachable_empty|].
    apply step_startRound. intros [].
  - destruct (proj2 winner_quota_never_exceeded a [0; 1; 2; 3; 4; 5; 6] 1000 1000 "w1"
                full "r1" r "uc1" uc full (inl quotaReached)
                eq_refl eq_refl eq_refl ltac:(simpl; lia) eq_refl)
      as [_ [e [He _]]].
    reflexivity.
Defined.

(** C2. A [submitGuess] call that commits with a correct guess creates
    exactly one Winner record; its rank is the round's winner count after
    the increment and is the rank returned to the caller.  In every
    reachable store the ranks recorded for a round are exactly
    1..[winnerCount], each once, with [winnerCount] at most the quota of
    10: a strict, gapless sequence without duplicates, which is complete
    (1..10) exactly when a winning call reports that it closed the
    round. *)
Theorem winner_ranks_gapless :
  (forall s, reachable s ->
     forall k r, In (k, r) (rounds s) ->
       NoDup (ranks k s) /\
       (forall z, In z (ranks k s) <-> 1 <= z <= Round.winnerCount r) /\
       Round.winnerCount r <= 10) /\
  (forall auth g now ts wid s s' resp,
     reachable s -> fresh wid (winners s) ->
     submitGuess auth g now ts wid s = (s', inr resp) ->
     sg_isCorrect resp = true ->
     exists rid r r' w,
       activeRoundQuery s = Some (rid, r) /\
       Permutation (winners s') ((wid, w) :: winners s) /\
       Winner.roundId w = rid /\
       get_doc rid (rounds s') = Some r' /\
       Round.winnerCount r' = Round.winnerCount r + 1 /\
       Winner.winnerNumber w = Round.winnerCount r' /\
       sg_winnerNumber resp = Some (Round.winnerCount r') /\
       (sg_roundEnded resp = true <-> Round.winnerCount r' = 10)).
Proof.
  split.
  - intros s Hreach k r Hin.
    destruct (reachable_rounds_inv s Hreach) as (_ & Hr & _).
    destruct (Hr k r Hin) as (Hb & Hmax & Hnd & Hranks).
    split; [assumption|]. split; [assumption|]. lia.
  - intros auth g now ts wid s s' resp Hreach Hfresh H Hcorrect.
    destruct (reachable_rounds_inv s Hreach) as (Hnd & Hrs & _).
    apply submitGuess_rounds_winners in H.
    destruct H as [(_ & _ & Hwrong)|
                   (a & rid & r & code & f & _ & Hq & Hlt & Hf & _ & Hu & Hw & resp' & E & _ & Hn & He)].
    { rewrite (Hwrong resp eq_refl) in Hcorrect. discriminate. }
    injection E as <-.
    destruct (activeRoundQuery_In _ _ _ Hq) as [Hin _].
    pose proof (In_get_doc _ _ _ Hnd Hin) as Hget.
    exists rid, r, (f r), (Winner.mk rid (uid a) (Round.winnerCount r + 1) ts code).
    destruct (Hf r) as [Hwc _].
    split; [assumption|]. split; [rewrite Hw; now apply set_doc_perm|].
    split; [reflexivity|].
    split; [rewrite (get_doc_update_doc _ _ _ _ rid Hu), String.eqb_refl, Hget;
            reflexivity|].
    split; [assumption|]. split; [cbn; now rewrite Hwc|].
    split; [now rewrite Hwc|].
    destruct (Hrs rid r Hin) as (_ & Hmax & _).
    rewrite He, Hwc, Z.eqb_eq, Hmax. reflexivity.
Qed.

(** ** Uniqueness of the secret codes of a round *)

Lemma Code_eqb_eq (a b : Code) : Code_eqb a b = true <-> a = b.
Proof.
  revert b. induction a as [|x a IH]; intros [|y b]; simpl;
    try (split; [discriminate|discriminate]); [tauto|].
  rewrite andb_true_iff, Z.eqb_eq, IH. split; [intros [-> ->]|intros [= -> ->]]; auto.
Qed.

Lemma existingCodeQuery_empty rid code s :
  existingCodeQuery rid code s = [] ->
  forall k c, In (k, c) (userCodes s) -> UserCode.roundId c = rid ->
              UserCode.secretCode c <> code.
Proof.
  unfold existingCodeQuery. intros He k c Hin Hr Hc.
  assert (Hp : In (k, c) (query (fun c => String.eqb (UserCode.roundId c) rid
                                          && Code_eqb (UserCode.secretCode c) code)
                                (userCodes s))).
  { apply filter_In. split; [assumption|]. cbn [snd].
    rewrite Hr, String.eqb_refl. apply Code_eqb_eq. assumption. }
  rewrite He in Hp. contradiction.
Qed.

Lemma uc_inv_update cs cs' k f :
  uc_inv cs -> update_doc k f cs = Some cs' -> keepsCode f -> uc_inv cs'.
Proof.
  intros (Hnd & Hu) Hup Hf.
  split; [now rewrite (update_doc_keys _ _ _ _ Hup)|].
  assert (Hback : forall k' c', In (k', c') cs' ->
            exists c, In (k', c) cs /\ UserCode.roundId c' = UserCode.roundId c /\
                      UserCode.secretCode c' = UserCode.secretCode c).
  { intros k' c' Hin.
    destruct (update_doc_In _ _ _ _ _ _ Hup Hin) as [Hold|[d [Hold [_ ->]]]].
    - exists c'. auto.
    - exists d. destruct (Hf d). auto. }
  intros k1 c1 k2 c2 H1 H2 Hne Hr.
  destruct (Hback _ _ H1) as (d1 & Hd1 & Hr1 & Hs1).
  destruct (Hback _ _ H2) as (d2 & Hd2 & Hr2 & Hs2).
  rewrite Hs1, Hs2. apply (Hu k1 d1 k2 d2); congruence.
Qed.

Lemma uc_inv_new cs k u rid code :
  uc_inv cs -> fresh k cs ->
  (forall k' c, In (k', c) cs -> UserCode.roundId c = rid ->
                UserCode.secretCode c <> code) ->
  uc_inv (set_doc k (UserCode.mk u rid code false 0 0 []) cs).
Proof.
  intros (Hnd & Hu) Hfresh Hnew.
  split; [now apply set_doc_NoDup|].
  intros k1 c1 k2 c2 H1 H2 Hne Hr.
  apply set_doc_In in H1; [|assumption]. apply set_doc_In in H2; [|assumption].
  destruct H1 as [[= -> ->]|H1], H2 as [[= -> ->]|H2].
  - congruence.
  - cbn in *. intros E. apply (Hnew k2 c2 H2); congruence.
  - cbn in *. apply (Hnew k1 c1 H1). congruence.
  - now apply (Hu k1 c1 k2 c2).
Qed.

Lemma step_codes_inv s s' : step s s' -> codes_inv s -> codes_inv s'.
Proof.
  unfold codes_inv.
  intros Hstep Hinv. destruct Hstep.
  - destruct (startRound ts newRoundId s) as [s1 res] eqn:E. cbn [fst].
    unfold startRound in E.
    destruct (runTransaction _ s) as [s2 [e|o]] eqn:Hrun.
    + injection E as <- _. apply runTransaction_abort in Hrun. now subst.
    + assert (s1 = s2) by (destruct (String.eqb newRoundId EmptyString); now injection E).
      subst s2. run_inv Hrun; [assumption|].
      unfold startRound_tx in Hbody. tx_inv Hbody; views Happ; congruence.
  - apply assignSecretCode_unchanged in H0. subst. assumption.
  - destruct (submitGuess auth guessedCode now ts newWinnerId s) as [s1 res] eqn:E.
    cbn [fst]. apply submitGuess_userCodes_kept in E.
    destruct E as [->|(k & f & Hf & _ & _ & Hu)]; [assumption|].
    eapply uc_inv_update; eassumption.
  - destruct (requestHint auth now ts pick newPaymentId s) as [s1 res] eqn:E.
    cbn [fst]. apply requestHint_effect in E. destruct E as (_ & _ & ->). assumption.
  - destruct (confirmPayment paymentId transactionId ts s) as [s1 res] eqn:E.
    cbn [fst]. apply confirmPayment_unchanged in E. subst. assumption.
  - destruct (finishRound roundId ts s) as [s1 res] eqn:E. cbn [fst].
    unfold finishRound in E.
    destruct roundId as [rid|]; [|injection E as <- _; assumption].
    destruct (falsy (Some rid)); [injection E as <- _; assumption|].
    destruct (runTransaction _ s) as [s2 [e|o]] eqn:Hrun; injection E as <- _.
    + apply runTransaction_abort in Hrun. now subst.
    + run_inv Hrun; [assumption|].
      unfold finishRound_tx in Hbody. tx_inv Hbody. views Happ. congruence.
Qed.

Lemma reachable_codes_inv s : reachable s -> codes_inv s.
Proof.
  induction 1 as [s Hs|s s' _ IH Hstep].
  - apply Hs.
  - eapply step_codes_inv; eassumption.
Qed.

(** What a step does to the user codes: nothing, or an update of one
    document that keeps its owner, its round, its secret code and its
    hints. *)
Lemma step_userCodes s s' :
  step s s' ->
  userCodes s' = userCodes s \/
  exists k f, keepsCode f /\ keepsHints f /\ keepsOwner f /\
              update_doc k f (userCodes s) = Some (userCodes s').
Proof.
  intros Hstep. destruct Hstep.
  - destruct (startRound ts newRoundId s) as [s1 res] eqn:E. cbn [fst]. left.
    unfold startRound in E.
    destruct (runTransaction _ s) as [s2 [e|o]] eqn:Hrun.
    + injection E as <- _. apply runTransaction_abort in Hrun. now subst.
    + assert (s1 = s2) by (destruct (String.eqb newRoundId EmptyString); now injection E).
      subst s2. run_inv Hrun; [reflexivity|].
      unfold startRound_tx in Hbody. tx_inv Hbody; views Happ; congruence.
  - left. apply assignSecretCode_unchanged in H0. now subst.
  - destruct (submitGuess auth guessedCode now ts newWinnerId s) as [s1 res] eqn:E.
    cbn [fst]. eapply submitGuess_userCodes_kept; eassumption.
  - destruct (requestHint auth now ts pick newPaymentId s) as [s1 res] eqn:E.
    cbn [fst]. apply requestHint_effect in E. destruct E as (_ & _ & ->). now left.
  - destruct (confirmPayment paymentId transactionId ts s) as [s1 res] eqn:E.
    cbn [fst]. apply confirmPayment_unchanged in E. subst. now left.
  - destruct (finishRound roundId ts s) as [s1 res] eqn:E. cbn [fst]. left.
    unfold finishRound in E.
    destruct roundId as [rid|]; [|now injection E as <- _].
    destruct (falsy (Some rid)); [now injection E as <- _|].
    destruct (runTransaction _ s) as [s2 [e|o]] eqn:Hrun; injection E as <- _.
    + apply runTransaction_abort in Hrun. now subst.
    + run_inv Hrun; [reflexivity|].
      unfold finishRound_tx in Hbody. tx_inv Hbody. views Happ. congruence.
Qed.

(** Every user code of the later store is a user code of the earlier
    one, under the same document id and with the same round, secret code
    and hints. *)
Lemma step_userCodes_back s s' :
  step s s' ->
  forall k c', In (k, c') (userCodes s') ->
    exists c, In (k, c) (userCodes s) /\
              UserCode.roundId c' = UserCode.roundId c /\
              UserCode.secretCode c' = UserCode.secretCode c /\
              UserCode.revealedDigits c' = UserCode.revealedDigits c /\
              UserCode.hintPurchases c' = UserCode.hintPurchases c /\
              UserCode.userId c' = UserCode.userId c.
Proof.
  intros Hstep k c' Hin.
  destruct (step_userCodes s s' Hstep) as [E|(k0 & f & Hc & Hh & Ho & Hu)].
  - rewrite E in Hin. exists c'. repeat split; auto.
  - destruct (update_doc_In _ _ _ _ _ _ Hu Hin) as [Hold|[d [Hold [_ ->]]]].
    + exists c'. repeat split; auto.
    + exists d. destruct (Hc d), (Hh d). pose proof (Ho d). repeat split; auto.
Qed.



(** ** The hint quota *)



(** ** The hint quota *)

(** ** Commits that cannot fail *)

Lemma set_doc_keys_incl {A} k (d : A) (c : Collection A) :
  incl (keys c) (keys (set_doc k d c)).
Proof.
  unfold keys. induction c as [|[k0 d0] c IH]; simpl; [intros ? []|].
  destruct (String.compare k k0) eqn:E; simpl.
  - apply String.compare_eq_iff in E. subst. intros x H. exact H.
  - intros x H. now right.
  - intros x [<-|H]; [now left | right; now apply IH].
Qed.

Lemma apply_writes_ok ws : forall s0 s,
  keysKept s0 s -> Forall (write_ok s0) ws -> exists s', apply_writes ws s = Some s'.
Proof.
  induction ws as [|w ws IH]; intros s0 s Hk Hall; [simpl; eauto|].
  inversion Hall as [|? ? Hw Hall']; subst.
  destruct Hk as (Kr & Ku & Kc & Kp).
  assert (Hupd : forall A (k : DocId) (f : A -> A) (c0 c : Collection A),
             incl (keys c0) (keys c) -> In k (keys c0) ->
             exists c', update_doc k f c = Some c' /\ incl (keys c0) (keys c')).
  { intros A k f c0 c Hi Hin.
    destruct (update_doc_Some k f c) as [c' Hc']; [intros Hf; apply Hf; auto|].
    exists c'. split; [assumption|]. now rewrite (update_doc_keys _ _ _ _ Hc'). }
  assert (Hset : forall A (k : DocId) (d : A) (c0 c : Collection A),
             incl (keys c0) (keys c) -> incl (keys c0) (keys (set_doc k d c))).
  { intros A k d c0 c Hi x Hx. apply set_doc_keys_incl. auto. }
  destruct w; simpl in Hw |- *.
  - apply (IH s0); [|assumption]. repeat split; simpl; auto.
  - destruct (Hupd _ k f _ _ Kr Hw) as [c' [-> Hc']]. simpl.
    apply (IH s0); [|assumption]. repeat split; simpl; auto.
  - apply (IH s0); [|assumption]. repeat split; simpl; auto.
  - destruct (Hupd _ k f _ _ Ku Hw) as [c' [-> Hc']]. simpl.
    apply (IH s0); [|assumption]. repeat split; simpl; auto.
  - apply (IH s0); [|assumption]. repeat split; simpl; auto.
  - destruct (Hupd _ k f _ _ Kc Hw) as [c' [-> Hc']]. simpl.
    apply (IH s0); [|assumption]. repeat split; simpl; auto.
  - apply (IH s0); [|assumption]. repeat split; simpl; auto.
  - apply (IH s0); [|assumption]. repeat split; simpl; auto.
  - destruct (Hupd _ k f _ _ Kp Hw) as [c' [-> Hc']]. simpl.
    apply (IH s0); [|assumption]. repeat split; simpl; auto.
Qed.

Lemma commits s ws : Forall (write_ok s) ws -> exists s', apply_writes ws s = Some s'.
Proof.
  apply apply_writes_ok. repeat split; apply incl_refl.
Qed.

Lemma get_doc_keys {A} k (c : Collection A) d : get_doc k c = Some d -> In k (keys c).
Proof. intros H. eapply In_keys. apply get_doc_In. eassumption. Qed.

Ltac writes_ok :=
  cbn [app]; repeat constructor; cbn [write_ok];
  try match goal with
      | H : get_doc ?k _ = Some _ |- In ?k _ => exact (get_doc_keys _ _ _ H)
      | H : activeRoundQuery _ = Some ?x |- In (fst ?x) _ =>
          destruct x; eapply In_keys; apply (activeRoundQuery_In _ _ _ H)
      | H : userCodeQuery _ _ _ = Some ?x |- In (fst ?x) _ =>
          destruct x; eapply In_keys; apply (userCodeQuery_In _ _ _ _ _ H)
      end.

Lemma submitGuess_commits u g now ts wid s o ws :
  submitGuess_tx u g now ts wid s [] = inr (o, ws) ->
  exists s', apply_writes ws s = Some s'.
Proof.
  intros H. apply commits. unfold submitGuess_tx in H. tx_inv H; writes_ok.
Qed.

Lemma requestHint_commits u now ts pick pid s o ws :
  requestHint_tx u now ts pick pid s [] = inr (o, ws) ->
  exists s', apply_writes ws s = Some s'.
Proof.
  intros H. apply commits. unfold requestHint_tx in H. tx_inv H; writes_ok.
Qed.

Lemma assignSecretCode_commits a fuel gfuel rnd ts ucid s o ws :
  assignSecretCode_tx a fuel gfuel rnd ts ucid s [] = inr (o, ws) ->
  exists s', apply_writes ws s = Some s'.
Proof.
  intros H. apply commits. unfold assignSecretCode_tx in H. tx_inv H; writes_ok.
Qed.

(** With commits that cannot fail, the response is read off the outcome
    of the body. *)
Lemma runTransaction_outcome {A} (body : Tx A) s :
  (forall a ws, body s [] = inr (a, ws) -> exists s', apply_writes ws s = Some s') ->
  snd (runTransaction body s) = outcome body s.
Proof.
  intros Hc. unfold runTransaction, outcome.
  destruct (body s []) as [e|[a ws]] eqn:E; [reflexivity|].
  destruct (Hc a ws eq_refl) as [s' ->]. reflexivity.
Qed.

(** ** Responses do not depend on the stored secret codes *)

Lemma pointwise_query_head (p : UserCode.t -> bool) (c1 c2 : Collection UserCode.t) :
  pointwise sameButCode c1 c2 ->
  (forall d1 d2, sameButCode d1 d2 -> p d1 = p d2) ->
  match hd_error (query p c1), hd_error (query p c2) with
  | Some (k1, d1), Some (k2, d2) => k1 = k2 /\ sameButCode d1 d2
  | None, None => True
  | _, _ => False
  end.
Proof.
  intros H Hp. unfold query.
  induction H as [|[k1 d1] [k2 d2] c1 c2 [Hk Hd] _ IH]; simpl; [exact I|].
  simpl in Hk, Hd. rewrite (Hp d1 d2 Hd).
  destruct (p d2); simpl; [auto|exact IH].
Qed.

Lemma lowEq_userCodeQuery s1 s2 u r :
  lowEq s1 s2 ->
  match userCodeQuery u r s1, userCodeQuery u r s2 with
  | Some (k1, c1), Some (k2, c2) => k1 = k2 /\ sameButCode c1 c2
  | None, None => True
  | _, _ => False
  end.
Proof.
  intros (_ & _ & _ & Hc & _). unfold userCodeQuery.
  apply pointwise_query_head; [assumption|].
  intros d1 d2 (E1 & E2 & _). now rewrite E1, E2.
Qed.

Lemma lowEq_activeRoundQuery s1 s2 :
  lowEq s1 s2 -> activeRoundQuery s2 = activeRoundQuery s1.
Proof. intros (Hr & _). unfold activeRoundQuery. now rewrite Hr. Qed.

Ltac split_ifs :=
  repeat match goal with
         | |- context [if ?b then _ else _] => destruct b; cbv beta iota
         | |- context [match ?o with Some _ => _ | None => _ end] =>
             destruct o; cbv beta iota
         end.

Lemma requestHint_outcome_lowEq u now ts pick pid s1 s2 :
  lowEq s1 s2 ->
  outcome (requestHint_tx u now ts pick pid) s1
  = outcome (requestHint_tx u now ts pick pid) s2.
Proof.
  intros H. pose proof (lowEq_activeRoundQuery s1 s2 H) as Ha.
  pose proof H as (Hr & Hu & Hp & Hc & Hw).
  unfold outcome, requestHint_tx, bind, snapshot, orThrow, when_, write, ret, throw.
  cbv beta. rewrite Ha, <- Hu.
  destruct (get_doc u (users s1)) as [ud|]; cbv beta iota; [|reflexivity].
  destruct (activeRoundQuery s1) as [[rid r]|]; cbv beta iota; cbn [fst snd];
    [|reflexivity].
  pose proof (lowEq_userCodeQuery s1 s2 u rid H) as Q.
  destruct (userCodeQuery u rid s1) as [[k1 c1]|],
           (userCodeQuery u rid s2) as [[k2 c2]|];
    try contradiction; cbv beta iota; [|reflexivity].
  destruct Q as [-> (E1 & E2 & E3 & E4 & E5 & E6)]. cbn [fst snd].
  rewrite <- E3, <- E5, <- E6.
  split_ifs; reflexivity.
Qed.

Lemma submitGuess_outcome_lowEq u g now ts wid s1 s2 :
  lowEq s1 s2 ->
  guessVerdict u g s1 = guessVerdict u g s2 ->
  outcome (submitGuess_tx u g now ts wid) s1
  = outcome (submitGuess_tx u g now ts wid) s2.
Proof.
  intros H Hv. pose proof (lowEq_activeRoundQuery s1 s2 H) as Ha.
  pose proof H as (Hr & Hu & Hp & Hc & Hw).
  unfold guessVerdict in Hv. rewrite Ha in Hv.
  unfold outcome, submitGuess_tx, guessRateLimit, endRound, bind, snapshot, orThrow,
    when_, write, ret, throw.
  cbv beta. rewrite Ha, <- Hu.
  destruct (activeRoundQuery s1) as [[rid r]|]; cbv beta iota; cbn [fst snd];
    [|reflexivity].
  destruct (get_doc u (users s1)) as [ud|]; cbv beta iota; [|reflexivity].
  pose proof (lowEq_userCodeQuery s1 s2 u rid H) as Q.
  destruct (userCodeQuery u rid s1) as [[k1 c1]|],
           (userCodeQuery u rid s2) as [[k2 c2]|];
    try contradiction; cbv beta iota; [|reflexivity].
  destruct Q as [-> (E1 & E2 & E3 & E4 & E5 & E6)]. cbn [fst snd].
  injection Hv as Hv. rewrite <- E3, <- Hv.
  split_ifs; reflexivity.
Qed.

Lemma assignSecretCode_outcome_lowEq a fuel gfuel rnd ts ucid s1 s2 :
  lowEq s1 s2 ->
  match outcome (assignSecretCode_tx a fuel gfuel rnd ts ucid) s1,
        outcome (assignSecretCode_tx a fuel gfuel rnd ts ucid) s2 with
  | inr None, _ | _, inr None => True
  | o1, o2 => o1 = o2
  end.
Proof.
  intros H. pose proof (lowEq_activeRoundQuery s1 s2 H) as Ha.
  pose proof H as (Hr & Hu & Hp & Hc & Hw).
  unfold outcome, assignSecretCode_tx, bind, snapshot, orThrow, when_, write, ret, throw.
  cbv beta. rewrite Ha.
  destruct (activeRoundQuery s1) as [[rid r]|]; cbv beta iota; cbn [fst snd];
    [|reflexivity].
  pose proof (lowEq_userCodeQuery s1 s2 (uid a) rid H) as Q.
  destruct (userCodeQuery (uid a) rid s1) as [[k1 c1]|],
           (userCodeQuery (uid a) rid s2) as [[k2 c2]|];
    try contradiction; cbv beta iota; [reflexivity|].
  destruct (uniqueCodeLoop fuel gfuel rnd 0 rid s1),
           (uniqueCodeLoop fuel gfuel rnd 0 rid s2);
    cbn; try exact I; reflexivity.
Qed.

(** C9. No response of a player-facing operation carries the secret
    code: on two stores that differ only in the stored secret codes,
    [assignSecretCode] (whenever it returns on both) and [requestHint]
    answer identically, and so does [submitGuess] whenever the guess has
    the same verdict on both, the one bit the operation is there to
    return. *)
Theorem responses_hide_secret_code :
  (forall auth fuel gfuel rnd ts ucid s1 s2 s1' s2' r1 r2,
     lowEq s1 s2 ->
     assignSecretCode auth fuel gfuel rnd ts ucid s1 = Some (s1', r1) ->
     assignSecretCode auth fuel gfuel rnd ts ucid s2 = Some (s2', r2) ->
     r1 = r2) /\
  (forall auth now ts pick pid s1 s2,
     lowEq s1 s2 ->
     snd (requestHint auth now ts pick pid s1) = snd (requestHint auth now ts pick pid s2)) /\
  (forall auth g now ts wid s1 s2,
     lowEq s1 s2 ->
     (forall a, auth = Some a -> guessVerdict (uid a) g s1 = guessVerdict (uid a) g s2) ->
     snd (submitGuess auth g now ts wid s1) = snd (submitGuess auth g now ts wid s2)).
Proof.
  split; [|split].
  - intros auth fuel gfuel rnd ts ucid s1 s2 s1' s2' r1 r2 H H1 H2.
    unfold assignSecretCode in H1, H2.
    destruct auth as [a|]; [|congruence].
    pose proof (assignSecretCode_outcome_lowEq a fuel gfuel rnd ts ucid s1 s2 H) as Ho.
    rewrite <- !runTransaction_outcome in Ho
      by (intros; eapply assignSecretCode_commits; eassumption).
    destruct (runTransaction _ s1) as [t1 [e1|[[rid1 x1]|]]];
      destruct (runTransaction _ s2) as [t2 [e2|[[rid2 x2]|]]];
      cbn [snd] in Ho; cbv beta iota in Ho; try congruence.
    injection Ho as -> ->. congruence.
  - intros auth now ts pick pid s1 s2 H.
    unfold requestHint. destruct auth as [a|]; [|reflexivity].
    pose proof (requestHint_outcome_lowEq (uid a) now ts pick pid s1 s2 H) as Ho.
    rewrite <- !runTransaction_outcome in Ho
      by (intros; eapply requestHint_commits; eassumption).
    destruct (runTransaction _ s1) as [t1 [e1|o1]];
      destruct (runTransaction _ s2) as [t2 [e2|o2]];
      cbn [snd] in Ho |- *; try discriminate Ho; injection Ho as ->; reflexivity.
  - intros auth g now ts wid s1 s2 H Hv.
    unfold submitGuess. destruct auth as [a|]; [|reflexivity].
    destruct (validGuessFormat g); cbn [negb]; [|reflexivity].
    pose proof (submitGuess_outcome_lowEq (uid a) g now ts wid s1 s2 H (Hv a eq_refl))
      as Ho.
    rewrite <- !runTransaction_outcome in Ho
      by (intros; eapply submitGuess_commits; eassumption).
    destruct (runTransaction _ s1) as [t1 [e1|o1]];
      destruct (runTransaction _ s2) as [t2 [e2|o2]];
      cbn [snd] in Ho |- *; try discriminate Ho; injection Ho as ->; reflexivity.
Qed.

Lemma responses_hide_secret_code_witness :
  let alice := Some (mkAuth "alice" None) in
  let store code :=
    mkStore [("r1", Round.mk "r1" 1 true 0 10 0 None false)]
            [("alice", User.mk None 0 0 (Some "r1") false 0 0 User.unselected [] 0
                               None None)]
            [("uc1", UserCode.mk "alice" "r1" code false 0 0 [])]
            [] [] in
  let s1 := store [0; 1; 2; 3; 4; 5; 6] in
  let s2 := store [6; 5; 4; 3; 2; 1; 0] in
  let rnd : RandomSource := fun k => Z.of_nat k in
  option_map snd (assignSecretCode alice 1 1 rnd 1000 "uc9" s1)
    = option_map snd (assignSecretCode alice 1 1 rnd 1000 "uc9" s2) /\
  snd (requestHint alice 2000 2000 0 "p1" s1) = snd (requestHint alice 2000 2000 0 "p1" s2) /\
  snd (submitGuess alice [9; 9; 9; 9; 9; 9; 8] 2000 2000 "w1" s1)
    = snd (submitGuess alice [9; 9; 9; 9; 9; 9; 8] 2000 2000 "w1" s2).
Proof.
  intros alice store s1 s2 rnd.
  assert (L : lowEq s1 s2).
  { split; [reflexivity|]. split; [reflexivity|]. split; [reflexivity|].
    split; [|constructor].
    constructor; [|constructor]. split; [reflexivity|]. repeat split. }
  destruct responses_hide_secret_code as (Hassign & Hhint & Hguess).
  split; [|split].
  - destruct (assignSecretCode alice 1 1 rnd 1000 "uc9" s1) as [[s1' r1]|] eqn:E1;
      [|vm_compute in E1; discriminate E1].
    destruct (assignSecretCode alice 1 1 rnd 1000 "uc9" s2) as [[s2' r2]|] eqn:E2;
      [|vm_compute in E2; discriminate E2].
    cbn [option_map snd]. f_equal.
    exact (Hassign alice 1%nat 1%nat rnd 1000 "uc9" s1 s2 s1' s2' r1 r2 L E1 E2).
  - exact (Hhint alice 2000 2000 0%nat "p1" s1 s2 L).
  - apply (Hguess alice [9; 9; 9; 9; 9; 9; 8] 2000 2000 "w1" s1 s2 L).
    intros a [= <-]. reflexivity.
Defined.

(** ** Retrying a payment confirmation *)

(** C4 (the code on a retried confirmation).  [demoHinted] holds the
    pending request "p1" of alice, who holds a code in the active round.
    The confirmation is answered with status 500 and changes nothing, and
    so is its retry: the request stays pending, no position is revealed
    and [hintPurchases] stays 0, where one successful confirmation and an
    acknowledged duplicate are expected.  The transaction queries the user
    code after it has queued the update of the payment. *)
Theorem confirmPayment_never_confirms :
  let first := confirmPayment (Some "p1") (Some "tx1") 4000 demoHinted in
  let second := confirmPayment (Some "p1") (Some "tx1") 5000 (fst first) in
  option_map Payment.status (get_doc "p1" (payments demoHinted)) = Some pending /\
  userCodeQuery "alice" "r1" demoHinted
    = Some ("uc1", UserCode.mk "alice" "r1" [0; 1; 2; 3; 4; 5; 6] false 0 0 []) /\
  first = (demoHinted, [confirmFailed]) /\
  second = (demoHinted, [confirmFailed]) /\
  option_map UserCode.revealedDigits (get_doc "uc1" (userCodes (fst second))) = Some [] /\
  option_map UserCode.hintPurchases (get_doc "uc1" (userCodes (fst second))) = Some 0 /\
  option_map Payment.status (get_doc "p1" (payments (fst second))) = Some pending /\
  option_map Payment.hintProvided (get_doc "p1" (payments (fst second))) = Some false.
Proof.
  vm_compute. repeat split.
Qed.

(** * Further properties *)

(** ** Comparing and validating codes *)

Lemma areCodesEqual_true (a b : Code) :
  areCodesEqual a b = true -> List.length a = 7%nat /\ a = b.
Proof.
  unfold areCodesEqual.
  destruct (Nat.eqb_spec (List.length a) 7), (Nat.eqb_spec (List.length b) 7);
    cbn [negb orb]; try discriminate.
  intros H. split; [assumption|].
  do 8 (destruct a as [|? a]; try discriminate).
  do 8 (destruct b as [|? b]; try discriminate).
  cbn in H.
  repeat (apply andb_prop in H; destruct H as [?%Z.eqb_eq H]).
  subst. reflexivity.
Qed.

(** X1: [areCodesEqual] accepts exactly two identical seven-digit codes;
    codes of any other length are never equal, not even to themselves. *)
Theorem areCodesEqual_iff (a b : Code) :
  areCodesEqual a b = true <-> (List.length a = 7%nat /\ a = b).
Proof.
  split; [apply areCodesEqual_true|].
  intros [Hl <-]. unfold areCodesEqual. rewrite Hl. cbn [Nat.eqb negb orb].
  apply forallb_forall. intros i _. apply Z.eqb_refl.
Qed.

Lemma forallb_false_ex {A} (f : A -> bool) (l : list A) :
  forallb f l = false -> exists x, In x l /\ f x = false.
Proof.
  induction l as [|a l IH]; cbn; [discriminate|].
  destruct (f a) eqn:E; cbn.
  - intros H. destruct (IH H) as (x & Hx & Hf). exists x. auto.
  - intros _. exists a. auto.
Qed.

Lemma optString_eqb_true_iff (a b : option string) :
  optString_eqb a b = true <-> a = b.
Proof.
  split; [apply optString_eqb_eq|intros ->; apply optString_eqb_refl].
Qed.

Lemma isNotAllSame_complete (code : list string) :
  ~ allSame code -> isNotAllSame code = true.
Proof.
  intros H. unfold isNotAllSame.
  destruct (forallb _ code) eqn:E; [|reflexivity].
  exfalso. apply H. rewrite forallb_forall in E.
  assert (Hall : forall i x, nth_error code i = Some x -> Some x = at_ code 0).
  { intros i x Hx. apply optString_eqb_eq, E. eapply nth_error_In; eassumption. }
  intros i j x y Hx Hy. apply Hall in Hx, Hy. congruence.
Qed.

Lemma isValidConsecutive_complete (code : list string) :
  ~ hasRun4 code -> isValidConsecutive code = true.
Proof.
  intros H. unfold isValidConsecutive.
  destruct (Nat.ltb_spec (List.length code) 4) as [|Hlen]; [reflexivity|].
  destruct (forallb _ _) eqn:E; [reflexivity|].
  exfalso. apply H.
  apply forallb_false_ex in E. destruct E as (i & Hi & E).
  apply in_seq in Hi.
  apply negb_false_iff in E.
  apply andb_prop in E. destruct E as [E E3].
  apply andb_prop in E. destruct E as [E1 E2].
  apply optString_eqb_eq in E1, E2, E3. unfold at_ in *.
  destruct (nth_error code i) as [x|] eqn:Ex.
  - exists i, x. auto.
  - apply nth_error_None in Ex. lia.
Qed.

(** X2: the two checks of the client decide the two validity rules, on
    codes of any length: [isNotAllSame] holds exactly when two positions
    differ, [isValidConsecutive] exactly when no four neighbours agree. *)
Theorem client_checks_decide_rules (code : list string) :
  (isNotAllSame code = true <-> ~ allSame code) /\
  (isValidConsecutive code = true <-> ~ hasRun4 code).
Proof.
  split; split.
  - apply isNotAllSame_sound.
  - apply isNotAllSame_complete.
  - apply isValidConsecutive_sound.
  - apply isValidConsecutive_complete.
Qed.

(** ** The generators return the first valid draw *)

Lemma setSize_one_allSame (code : list Z) : setSize code = 1%nat -> allSame code.
Proof.
  unfold setSize. intros H.
  destruct (nodup Z.eq_dec code) as [|x [|? ?]] eqn:E; try discriminate.
  assert (Hall : forall y, In y code -> y = x).
  { intros y Hy. apply (nodup_In Z.eq_dec) in Hy. rewrite E in Hy.
    destruct Hy as [<-|[]]. reflexivity. }
  intros i j a b Ha Hb. apply nth_error_In in Ha, Hb.
  rewrite (Hall a Ha), (Hall b Hb). reflexivity.
Qed.

Lemma hasRun4_tail {A} (x : A) (l : list A) : hasRun4 l -> hasRun4 (x :: l).
Proof.
  unfold hasRun4. intros (i & y & H0 & H1 & H2 & H3). exists (S i), y. cbn. auto.
Qed.

Lemma consecutiveScan_complete (code : list Z) :
  forall p count,
    1 <= count <= 3 ->
    consecutiveScan (Some p) count code = false ->
    hasRun4 code \/
    exists j, Z.of_nat j + count = 4 /\
              forall i, (i < j)%nat -> nth_error code i = Some p.
Proof.
  induction code as [|d rest IH]; intros p count Hc H; cbn in H; [discriminate|].
  destruct (Z.eqb_spec d p) as [->|Hne].
  - destruct (Z.ltb_spec 3 (count + 1)) as [Hlt|Hle].
    + right. exists 1%nat. split; [lia|].
      intros i Hi. assert (i = 0%nat) as -> by lia. reflexivity.
    + destruct (IH p (count + 1) ltac:(lia) H) as [Hr|(j & Hj & Hp)].
      * left. apply hasRun4_tail, Hr.
      * right. exists (S j). split; [lia|].
        intros [|i] Hi; cbn; [reflexivity|]. apply Hp. lia.
  - cbn in H. left.
    destruct (IH d 1 ltac:(lia) H) as [Hr|(j & Hj & Hp)].
    + apply hasRun4_tail, Hr.
    + assert (j = 3%nat) as -> by lia.
      exists 0%nat, d. cbn.
      split; [reflexivity|].
      split; [apply (Hp 0%nat); lia|]. split; [apply (Hp 1%nat); lia|apply (Hp 2%nat); lia].
Qed.

Lemma consecutiveScan_decides (code : list Z) :
  consecutiveScan None 0 code = true <-> ~ hasRun4 code.
Proof.
  destruct code as [|d rest].
  - cbn. split; [|reflexivity].
    intros _ (i & x & H & _). destruct i; discriminate.
  - cbn. split.
    + intros H Hrun.
      destruct (consecutiveScan_sound rest d 1 ltac:(lia) H) as [Hno Hpre].
      destruct (hasRun4_cons _ _ Hrun) as [Hr|(H0 & H1 & H2)]; [exact (Hno Hr)|].
      assert (1 + Z.of_nat 3 <= 3); [|lia].
      apply Hpre. intros [|[|[|i]]] Hi; try assumption. lia.
    + intros Hno. destruct (consecutiveScan (Some d) 1 rest) eqn:E; [reflexivity|].
      exfalso. apply Hno.
      destruct (consecutiveScan_complete rest d 1 ltac:(lia) E) as [Hr|(j & Hj & Hp)].
      * apply hasRun4_tail, Hr.
      * assert (j = 3%nat) as -> by lia.
        exists 0%nat, d. cbn.
        split; [reflexivity|].
      split; [apply (Hp 0%nat); lia|]. split; [apply (Hp 1%nat); lia|apply (Hp 2%nat); lia].
Qed.

Lemma serverDraw_accepted rnd pos :
  let code := drawDigits rnd pos 7 in
  (Nat.eqb (setSize code) 1 = false /\ consecutiveScan None 0 code = true)
  <-> validCode code.
Proof.
  intros code. unfold validCode.
  assert (Hlen : List.length code = 7%nat) by apply drawDigits_length.
  rewrite consecutiveScan_decides. split.
  - intros [Hs Hr]. split; [assumption|]. split; [|assumption].
    intros Hall. apply Nat.eqb_neq in Hs. apply Hs, setSize_allSame; [|assumption].
    intros E. rewrite E in Hlen. discriminate.
  - intros (_ & Hall & Hr). split; [|assumption].
    apply Nat.eqb_neq. intros E. apply Hall, setSize_one_allSame, E.
Qed.

Lemma drawDigits_range rnd pos len :
  Forall (fun d => 0 <= d <= 9) (drawDigits rnd pos len).
Proof.
  unfold drawDigits. apply Forall_forall. intros d Hd.
  apply in_map_iff in Hd. destruct Hd as (k & <- & _).
  unfold randomDigit. pose proof (Z.mod_pos_bound (rnd k) 10). lia.
Qed.

(** X3: the server's generator returns the first draw of seven digits that
    satisfies both validity rules, having consumed seven random values for
    it and for each rejected draw before it; its digits are 0..9.  It
    yields nothing exactly when none of the draws the fuel allows is
    valid. *)
Theorem generateSecretCode_first_valid fuel : forall rnd pos code pos',
  generateSecretCode fuel rnd pos = Some (code, pos') <->
  exists k, (k < fuel)%nat /\
            code = serverDraw rnd pos k /\
            pos' = (pos + 7 * (k + 1))%nat /\
            validCode code /\ Forall (fun d => 0 <= d <= 9) code /\
            forall j, (j < k)%nat -> ~ validCode (serverDraw rnd pos j).
Proof.
  unfold serverDraw.
  induction fuel as [|fuel IH]; intros rnd pos code pos'.
  { cbn. split; [discriminate|]. intros (k & Hk & _). lia. }
  cbn [generateSecretCode].
  pose proof (serverDraw_accepted rnd pos) as Hacc. cbv zeta in Hacc.
  assert (Hrec :
    ~ validCode (drawDigits rnd pos 7) ->
    (generateSecretCode fuel rnd (pos + 7) = Some (code, pos') <->
     exists k, (k < S fuel)%nat /\ code = drawDigits rnd (pos + 7 * k) 7 /\
       pos' = (pos + 7 * (k + 1))%nat /\ validCode code /\
       Forall (fun d => 0 <= d <= 9) code /\
       forall j, (j < k)%nat -> ~ validCode (drawDigits rnd (pos + 7 * j) 7))).
  { intros Hbad. rewrite IH. split.
    - intros (k & Hk & -> & -> & Hv & Hd & Hfirst). exists (S k).
      replace (pos + 7 * S k)%nat with (pos + 7 + 7 * k)%nat by lia.
      split; [|split; [|split; [|split; [|split]]]]; try assumption; try lia; try reflexivity.
      intros [|j] Hj.
      + replace (pos + 7 * 0)%nat with pos by lia. exact Hbad.
      + replace (pos + 7 * S j)%nat with (pos + 7 + 7 * j)%nat by lia.
        apply Hfirst. lia.
    - intros (k & Hk & -> & -> & Hv & Hd & Hfirst).
      destruct k as [|k].
      + exfalso. apply Hbad. replace (pos + 7 * 0)%nat with pos in Hv by lia. exact Hv.
      + exists k.
        replace (pos + 7 * S k)%nat with (pos + 7 + 7 * k)%nat in * by lia.
        split; [|split; [|split; [|split; [|split]]]]; try assumption; try lia; try reflexivity.
        intros j Hj. specialize (Hfirst (S j) ltac:(lia)).
        replace (pos + 7 * S j)%nat with (pos + 7 + 7 * j)%nat in Hfirst by lia.
        exact Hfirst. }
  destruct (Nat.eqb (setSize (drawDigits rnd pos 7)) 1) eqn:Es.
  { apply Hrec. intros Hv. apply Hacc in Hv. destruct Hv; discriminate. }
  destruct (consecutiveScan None 0 (drawDigits rnd pos 7)) eqn:Ec.
  - assert (Hv : validCode (drawDigits rnd pos 7)) by (apply Hacc; auto).
    split.
    + intros [= <- <-]. exists 0%nat.
      replace (pos + 7 * 0)%nat with pos by lia.
      split; [|split; [|split; [|split; [|split]]]]; try assumption; try lia; try reflexivity.
      apply drawDigits_range.
    + intros (k & Hk & -> & -> & _ & _ & Hfirst).
      destruct k as [|k].
      * replace (pos + 7 * 0)%nat with pos by lia.
        replace (pos + 7 * (0 + 1))%nat with (pos + 7)%nat by lia. reflexivity.
      * exfalso. apply (Hfirst 0%nat ltac:(lia)).
        replace (pos + 7 * 0)%nat with pos by lia. exact Hv.
  - apply Hrec. intros Hv. apply Hacc in Hv. destruct Hv; discriminate.
Qed.

Lemma existsb_eqb_In (x : string) (l : list string) :
  existsb (String.eqb x) l = false <-> ~ In x l.
Proof.
  split.
  - intros H Hin. assert (existsb (String.eqb x) l = true); [|congruence].
    apply existsb_exists. exists x. split; [assumption|apply String.eqb_refl].
  - intros H. destruct (existsb _ l) eqn:E; [|reflexivity].
    apply existsb_exists in E. destruct E as (y & Hy & ->%String.eqb_eq).
    contradiction.
Qed.

Lemma client_accepts_iff usedCodes code :
  isNotAllSame code && isValidConsecutive code
    && negb (existsb (String.eqb (String.concat EmptyString code)) usedCodes) = true
  <-> acceptable usedCodes code.
Proof.
  unfold acceptable, join.
  rewrite !andb_true_iff, negb_true_iff, existsb_eqb_In.
  split.
  - intros [[H1 H2] H3]. split; [|split].
    + apply isNotAllSame_sound, H1.
    + apply isValidConsecutive_sound, H2.
    + exact H3.
  - intros (H1 & H2 & H3). repeat split.
    + apply isNotAllSame_complete, H1.
    + apply isValidConsecutive_complete, H2.
    + exact H3.
Qed.

Lemma fallbackCode_length len now : List.length (fallbackCode len now) = len.
Proof. unfold fallbackCode. rewrite length_map, length_seq. reflexivity. Qed.

Lemma generateValidCode_loop_spec len usedCodes rnd now : forall remaining start,
  let result :=
    generateValidCode_loop remaining len usedCodes rnd (start * len) now in
  (exists k, (k < remaining)%nat /\
             result = clientDraw len rnd (start + k) /\
             acceptable usedCodes result /\
             forall j, (j < k)%nat ->
                       ~ acceptable usedCodes (clientDraw len rnd (start + j))) \/
  (result = fallbackCode len now /\
   forall j, (j < remaining)%nat ->
             ~ acceptable usedCodes (clientDraw len rnd (start + j))).
Proof.
  induction remaining as [|remaining IH]; intros start; cbv zeta.
  { right. split; [reflexivity|]. intros j Hj. lia. }
  cbn [generateValidCode_loop].
  pose proof (client_accepts_iff usedCodes
                (map toString (drawDigits rnd (start * len) len))) as Hacc.
  destruct (_ && _ && _) eqn:E.
  - left. exists 0%nat. rewrite Nat.add_0_r. unfold clientDraw.
    split; [lia|]. split; [reflexivity|]. split; [apply Hacc; reflexivity|].
    intros j Hj. lia.
  - assert (Hbad : ~ acceptable usedCodes (clientDraw len rnd start)).
    { intros Hok. apply Hacc in Hok. congruence. }
    replace (start * len + len)%nat with (S start * len)%nat by lia.
    specialize (IH (S start)). cbv zeta in IH.
    destruct IH as [(k & Hk & Hres & Hok & Hfirst)|[Hres Hnone]].
    + left. exists (S k).
      replace (start + S k)%nat with (S start + k)%nat by lia.
      split; [lia|]. split; [assumption|]. split; [assumption|].
      intros [|j] Hj.
      * rewrite Nat.add_0_r. exact Hbad.
      * replace (start + S j)%nat with (S start + j)%nat by lia.
        apply Hfirst. lia.
    + right. split; [assumption|].
      intros [|j] Hj.
      * rewrite Nat.add_0_r. exact Hbad.
      * replace (start + S j)%nat with (S start + j)%nat by lia.
        apply Hnone. lia.
Qed.

(** X4: the client's generator returns a code of the requested length: the
    first of its 1000 draws that satisfies both validity rules and whose
    joined string is not among the used codes, and the time-derived
    fallback code only when all 1000 draws are rejected. *)
Theorem generateValidCode_first_accepted len usedCodes rnd now :
  let result := generateValidCode len usedCodes rnd now in
  List.length result = len /\
  ((exists k, (k < 1000)%nat /\
              result = clientDraw len rnd k /\
              acceptable usedCodes result /\
              forall j, (j < k)%nat -> ~ acceptable usedCodes (clientDraw len rnd j)) \/
   (result = fallbackCode len now /\
    forall j, (j < 1000)%nat -> ~ acceptable usedCodes (clientDraw len rnd j))).
Proof.
  cbv zeta. unfold generateValidCode.
  pose proof (generateValidCode_loop_spec len usedCodes rnd now maxAttempts 0) as H.
  cbv zeta in H. change (0 * len)%nat with 0%nat in H. cbn [Nat.add] in H.
  change maxAttempts with 1000%nat in H |- *.
  split.
  - destruct H as [(k & _ & -> & _)|[-> _]].
    + unfold clientDraw. rewrite length_map. apply drawDigits_length.
    + apply fallbackCode_length.
  - exact H.
Qed.

(** ** shuffleArray *)

Lemma replaceAt_length {A} (v : A) (l : list A) : forall i,
  List.length (replaceAt i v l) = List.length l.
Proof.
  induction l as [|a l IH]; intros [|i]; cbn; auto.
Qed.

Lemma replaceAt_same {A} (v : A) (l : list A) : forall i,
  (i < List.length l)%nat -> nth_error (replaceAt i v l) i = Some v.
Proof.
  induction l as [|a l IH]; intros [|i] H; cbn in *; try lia; auto.
  apply IH. lia.
Qed.

Lemma replaceAt_other {A} (v : A) (l : list A) : forall i n,
  n <> i -> nth_error (replaceAt i v l) n = nth_error l n.
Proof.
  induction l as [|a l IH]; intros [|i] [|n] H; cbn; auto.
  congruence.
Qed.

Lemma replaceAt_head_perm {A} (x y : A) (l : list A) : forall j,
  nth_error l j = Some y -> Permutation (y :: replaceAt j x l) (x :: l).
Proof.
  induction l as [|a l IH]; intros [|j] H; cbn in H; try discriminate.
  - injection H as ->. cbn. apply perm_swap.
  - cbn. eapply perm_trans; [apply perm_swap|].
    eapply perm_trans; [apply perm_skip, IH, H|]. apply perm_swap.
Qed.

Lemma replaceAt_swap_perm {A} (l : list A) : forall i j x y,
  nth_error l i = Some x -> nth_error l j = Some y ->
  Permutation (replaceAt j x (replaceAt i y l)) l.
Proof.
  induction l as [|a l IH]; intros [|i] [|j] x y Hx Hy; cbn in Hx, Hy;
    try discriminate; cbn.
  - injection Hx as ->. injection Hy as ->. reflexivity.
  - injection Hx as ->. apply replaceAt_head_perm, Hy.
  - injection Hy as ->. apply replaceAt_head_perm, Hx.
  - apply perm_skip. apply IH; assumption.
Qed.

Lemma swapAt_perm {A} (i j : nat) (l : list A) : Permutation (swapAt i j l) l.
Proof.
  unfold swapAt.
  destruct (nth_error l i) as [x|] eqn:Ex; [|reflexivity].
  destruct (nth_error l j) as [y|] eqn:Ey; [|reflexivity].
  apply replaceAt_swap_perm; assumption.
Qed.

Lemma shuffleFrom_perm {A} (picks : IndexSource) : forall i k (l : list A),
  Permutation (shuffleFrom i picks k l) l.
Proof.
  induction i as [|i IH]; intros k l; cbn [shuffleFrom]; [reflexivity|].
  eapply perm_trans; [apply IH|apply swapAt_perm].
Qed.

(** X5: whatever the random draws, [shuffleArray] returns a rearrangement
    of its argument: the same elements, each as often as before. *)
Theorem shuffleArray_permutation {A} (picks : IndexSource) (array : list A) :
  Permutation (shuffleArray picks array) array /\
  List.length (shuffleArray picks array) = List.length array.
Proof.
  assert (H : Permutation (shuffleArray picks array) array)
    by apply shuffleFrom_perm.
  split; [exact H|apply Permutation_length, H].
Qed.

(** ** The vault screen *)

Lemma join_cons (x : string) (xs : list string) :
  join (x :: xs) = (x ++ join xs)%string.
Proof.
  unfold join. destruct xs as [|y ys]; cbn [String.concat].
  - induction x as [|c x IH]; cbn; [reflexivity|]. rewrite <- IH. reflexivity.
  - reflexivity.
Qed.

Lemma join_inj (a : list string) : forall b,
  Forall (fun s => String.length s = 1%nat) a ->
  Forall (fun s => String.length s = 1%nat) b ->
  join a = join b -> a = b.
Proof.
  induction a as [|x a IH]; intros [|y b] Ha Hb H.
  - reflexivity.
  - exfalso. rewrite join_cons in H. inversion Hb as [|? ? Hy _]; subst.
    destruct y as [|c [|? ?]]; discriminate.
  - exfalso. rewrite join_cons in H. inversion Ha as [|? ? Hx _]; subst.
    destruct x as [|c [|? ?]]; discriminate.
  - rewrite !join_cons in H.
    inversion Ha as [|? ? Hx Ha']; subst. inversion Hb as [|? ? Hy Hb']; subst.
    destruct x as [|c [|? ?]]; try discriminate.
    destruct y as [|d [|? ?]]; try discriminate.
    cbn in H. injection H as -> H. f_equal. apply IH; assumption.
Qed.

(** X6: when every entry of both arrays is a single character, as the
    digit wheels and the generator produce them, the test of
    [handleCheckCode] on the joined strings succeeds exactly when the
    input and the secret code are the same array. *)
Theorem codesMatch_iff (userInput secretCode : list string) :
  Forall (fun s => String.length s = 1%nat) userInput ->
  Forall (fun s => String.length s = 1%nat) secretCode ->
  (codesMatch userInput secretCode = true <-> userInput = secretCode).
Proof.
  intros Ha Hb. unfold codesMatch. rewrite String.eqb_eq. split.
  - apply join_inj; assumption.
  - intros ->. reflexivity.
Qed.

Lemma codesMatch_iff_witness :
  codesMatch ["1"; "2"; "3"] ["1"; "2"; "3"] = true <->
  ["1"; "2"; "3"] = ["1"; "2"; "3"].
Proof.
  apply (codesMatch_iff ["1"; "2"; "3"] ["1"; "2"; "3"]);
    repeat constructor.
Defined.

Lemma includes_In (l : list Z) (x : Z) : includes l x = true <-> In x l.
Proof.
  unfold includes. rewrite existsb_exists. split.
  - intros (y & Hy & ->%Z.eqb_eq). exact Hy.
  - intros H. exists x. split; [exact H|apply Z.eqb_refl].
Qed.

Lemma availableIndices_In (revealed : list Z) (i : Z) :
  In i (availableIndices revealed) <-> 0 <= i < 7 /\ ~ In i revealed.
Proof.
  unfold availableIndices. rewrite filter_In, in_map_iff, negb_true_iff.
  rewrite <- includes_In. split.
  - intros [(n & <- & Hn%in_seq) Hf]. split; [lia|congruence].
  - intros [Hi Hf]. split.
    + exists (Z.to_nat i). split; [lia|]. apply in_seq. lia.
    + destruct (includes revealed i); congruence.
Qed.

Lemma availableIndices_pick (revealed : list Z) (pick : nat) :
  availableIndices revealed <> [] ->
  In (nth (pick mod List.length (availableIndices revealed))%nat
          (availableIndices revealed) 0)
     (availableIndices revealed).
Proof.
  intros H. apply nth_In. apply Nat.mod_upper_bound.
  destruct (availableIndices revealed); [congruence|discriminate].
Qed.

(** X7: the client's [applyHint] maintains what the screen shows about
    hints: never more than [MAX_HINTS] revealed positions, all different
    and inside the code, the input still seven entries long and showing
    the secret's digit at every revealed position.  Positions revealed
    before stay revealed, and no other entry of the input changes. *)
Theorem applyHint_keeps_hintsShown secretCode revealedIndices userInput pick :
  hintsShown secretCode revealedIndices userInput ->
  let result := applyHint secretCode revealedIndices userInput pick in
  hintsShown secretCode (fst result) (snd result) /\
  incl revealedIndices (fst result) /\
  (forall n, ~ In (Z.of_nat n) (fst result) ->
             nth_error (snd result) n = nth_error userInput n).
Proof.
  intros Hinv. cbv zeta. unfold applyHint.
  assert (Hsame : hintsShown secretCode revealedIndices userInput /\
                  incl revealedIndices revealedIndices /\
                  (forall n, ~ In (Z.of_nat n) revealedIndices ->
                             nth_error userInput n = nth_error userInput n)).
  { split; [exact Hinv|]. split; [apply incl_refl|reflexivity]. }
  destruct (Nat.eqb_spec (List.length secretCode) 0) as [|_]; [exact Hsame|].
  destruct (Nat.leb_spec MAX_HINTS (List.length revealedIndices)) as [|Hlt];
    [exact Hsame|].
  cbn [orb].
  destruct (Nat.eqb_spec (List.length (availableIndices revealedIndices)) 0)
    as [|Hne]; [exact Hsame|].
  cbn [fst snd].
  assert (Hin : In (nth (pick mod List.length (availableIndices revealedIndices))%nat
                        (availableIndices revealedIndices) 0)
                   (availableIndices revealedIndices)).
  { apply availableIndices_pick. intros E. rewrite E in Hne. apply Hne. reflexivity. }
  set (idx := nth _ _ _) in *.
  apply availableIndices_In in Hin. destruct Hin as [Hrange Hnew].
  destruct Hinv as (Hcount & Hnd & Hbound & Hlen & Hshow).
  unfold CODE_LENGTH in Hlen.
  assert (Hassign : assignAt (Z.to_nat idx) (nth_error secretCode (Z.to_nat idx))
                             userInput
                    = replaceAt (Z.to_nat idx)
                                (nth_error secretCode (Z.to_nat idx)) userInput).
  { unfold assignAt. destruct (Nat.ltb_spec (Z.to_nat idx) (List.length userInput));
      [reflexivity|lia]. }
  rewrite Hassign.
  split; [|split].
  - unfold hintsShown. split; [|split; [|split; [|split]]].
    + rewrite length_app. cbn. lia.
    + apply NoDup_app; [assumption|repeat constructor; intros []|].
      intros x Hx [<-|[]]. contradiction.
    + intros i [Hi|[<-|[]]]%in_app_or; [apply Hbound, Hi|exact Hrange].
    + rewrite replaceAt_length. exact Hlen.
    + intros i [Hi|[<-|[]]]%in_app_or.
      * rewrite replaceAt_other; [apply Hshow, Hi|].
        intros E. apply Hnew. specialize (Hbound i Hi).
        assert (i = idx) as <- by lia. exact Hi.
      * apply replaceAt_same. lia.
  - apply incl_appl, incl_refl.
  - intros n Hn. apply replaceAt_other. intros ->. apply Hn.
    apply in_or_app. right. left. lia.
Qed.

Lemma applyHint_keeps_hintsShown_witness :
  let secret := ["1"; "2"; "3"; "4"; "5"; "6"; "7"] in
  let input := repeat (Some "0") 7 in
  let result := applyHint secret [] input 2 in
  hintsShown secret (fst result) (snd result) /\
  incl [] (fst result) /\
  (forall n, ~ In (Z.of_nat n) (fst result) ->
             nth_error (snd result) n = nth_error input n).
Proof.
  apply (applyHint_keeps_hintsShown ["1"; "2"; "3"; "4"; "5"; "6"; "7"] []
           (repeat (Some "0") 7) 2).
  unfold hintsShown. split; [cbn; unfold MAX_HINTS; lia|].
  split; [constructor|]. split; [intros i []|]. split; [reflexivity|intros i []].
Defined.

(** ** DigitInput *)

Lemma handleIncrement_digit (n : Z) :
  0 <= n <= 9 -> handleIncrement n = (if n =? 9 then 0 else n + 1).
Proof.
  intros H. unfold handleIncrement.
  destruct (Z.eqb_spec n 9) as [->|Hne]; [reflexivity|].
  apply Z.rem_small. lia.
Qed.

Lemma handleDecrement_digit (n : Z) :
  0 <= n <= 9 -> handleDecrement n = (if n =? 0 then 9 else n - 1).
Proof.
  intros H. unfold handleDecrement.
  destruct (Z.eqb_spec n 0) as [->|Hne]; [reflexivity|].
  rewrite Z.rem_mod_nonneg by lia.
  replace (n - 1 + 10) with (n - 1 + 1 * 10) by lia.
  rewrite Z.mod_add by lia. apply Z.mod_small. lia.
Qed.

(** X8: on a digit 0..9 the wheel wraps around: one step up from 9 gives
    0, one step down from 0 gives 9, both steps stay within 0..9, and a
    step up and a step down undo each other. *)
Theorem digit_wheel_wraps (n : Z) :
  0 <= n <= 9 ->
  0 <= handleIncrement n <= 9 /\ 0 <= handleDecrement n <= 9 /\
  handleIncrement n = (if n =? 9 then 0 else n + 1) /\
  handleDecrement n = (if n =? 0 then 9 else n - 1) /\
  handleDecrement (handleIncrement n) = n /\
  handleIncrement (handleDecrement n) = n.
Proof.
  intros H.
  pose proof (handleIncrement_digit n H) as Hi.
  pose proof (handleDecrement_digit n H) as Hd.
  assert (Hri : 0 <= handleIncrement n <= 9).
  { rewrite Hi. destruct (Z.eqb_spec n 9); lia. }
  assert (Hrd : 0 <= handleDecrement n <= 9).
  { rewrite Hd. destruct (Z.eqb_spec n 0); lia. }
  split; [exact Hri|]. split; [exact Hrd|].
  split; [exact Hi|]. split; [exact Hd|]. split.
  - rewrite (handleDecrement_digit _ Hri), Hi.
    destruct (Z.eqb_spec n 9) as [->|Hne]; [reflexivity|].
    destruct (Z.eqb_spec (n + 1) 0); lia.
  - rewrite (handleIncrement_digit _ Hrd), Hd.
    destruct (Z.eqb_spec n 0) as [->|Hne]; [reflexivity|].
    destruct (Z.eqb_spec (n - 1) 9); lia.
Qed.

Lemma digit_wheel_wraps_witness :
  0 <= handleIncrement 9 <= 9 /\ 0 <= handleDecrement 9 <= 9 /\
  handleIncrement 9 = (if 9 =? 9 then 0 else 9 + 1) /\
  handleDecrement 9 = (if 9 =? 0 then 9 else 9 - 1) /\
  handleDecrement (handleIncrement 9) = 9 /\
  handleIncrement (handleDecrement 9) = 9.
Proof.
  apply (digit_wheel_wraps 9). lia.
Defined.

(** ** What each accepted call writes *)

Lemma update_doc_const {A} k (f : A -> A) (c : Collection A) : forall c' d,
  get_doc k c = Some d -> update_doc k f c = Some c' -> replace_doc k (f d) c c'.
Proof.
  unfold replace_doc.
  induction c as [|[k0 d0] c IH]; intros c' d Hg Hu; cbn in *; [discriminate|].
  destruct (String.eqb k k0).
  - injection Hg as ->. exact Hu.
  - destruct (update_doc k f c) as [c1|] eqn:E; [|discriminate].
    rewrite (IH c1 d Hg eq_refl). exact Hu.
Qed.

Lemma replace_doc_keys {A} k (d : A) c c' : replace_doc k d c c' -> keys c' = keys c.
Proof. apply update_doc_keys. Qed.

Lemma update_doc_found {A} k (f : A -> A) (c : Collection A) : forall c',
  update_doc k f c = Some c' -> exists d, get_doc k c = Some d.
Proof.
  induction c as [|[k0 d0] c IH]; intros c' H; cbn in *; [discriminate|].
  destruct (String.eqb k k0); [eauto|].
  destruct (update_doc k f c) as [c1|] eqn:E; [|discriminate].
  eapply IH. reflexivity.
Qed.

Lemma replace_doc_get {A} k (d : A) c c' k' :
  replace_doc k d c c' ->
  get_doc k' c' = if String.eqb k' k then Some d else get_doc k' c.
Proof.
  intros H. rewrite (get_doc_update_doc _ _ _ _ k' H).
  destruct (String.eqb k' k); [|reflexivity].
  destruct (update_doc_found _ _ _ _ H) as [d0 ->]. reflexivity.
Qed.

Lemma replace_doc_In {A} k (d : A) c c' k' d' :
  NoDup (keys c) -> replace_doc k d c c' ->
  (In (k', d') c' <-> (k' = k /\ d' = d) \/ (k' <> k /\ In (k', d') c)).
Proof.
  intros Hnd H.
  assert (Hnd' : NoDup (keys c')) by (rewrite (replace_doc_keys _ _ _ _ H); exact Hnd).
  split.
  - intros Hin. apply (In_get_doc _ _ _ Hnd') in Hin.
    rewrite (replace_doc_get _ _ _ _ k' H) in Hin.
    destruct (String.eqb_spec k' k) as [->|Hne].
    + left. split; congruence.
    + right. split; [assumption|]. apply get_doc_In, Hin.
  - intros Hin. apply get_doc_In. rewrite (replace_doc_get _ _ _ _ k' H).
    destruct Hin as [[-> ->]|[Hne Hin]].
    + rewrite String.eqb_refl. reflexivity.
    + destruct (String.eqb_spec k' k); [contradiction|].
      apply In_get_doc; assumption.
Qed.

Ltac compose_updates :=
  repeat match goal with
  | E1 : update_doc ?k ?f ?c = Some ?c1, E2 : update_doc ?k ?g ?c1 = Some ?c2 |- _ =>
      let E := fresh "Eu" in
      pose proof (update_doc_compose k f g c c1 c2 E1 E2) as E;
      clear E1 E2; try clear c1
  end.

Lemma submitGuess_full auth g now ts wid s s' res :
  NoDup (keys (rounds s)) -> NoDup (keys (userCodes s)) ->
  submitGuess auth g now ts wid s = (s', res) ->
  (s' = s /\ exists e, res = inl e) \/
  exists a rid r u ucid uc,
    auth = Some a /\ validGuessFormat g = true /\
    activeRoundQuery s = Some (rid, r) /\ get_doc rid (rounds s) = Some r /\
    get_doc (uid a) (users s) = Some u /\
    userCodeQuery (uid a) rid s = Some (ucid, uc) /\
    get_doc ucid (userCodes s) = Some uc /\
    User.isWinnerInCurrentRound u = false /\ UserCode.isWinner uc = false /\
    payments s' = payments s /\
    let u1 := User.countAttempt ts (afterLimiter now u) in
    let uc1 := UserCode.countAttempt uc in
    ((areCodesEqual g (UserCode.secretCode uc) = false /\
      rounds s' = rounds s /\ winners s' = winners s /\
      replace_doc (uid a) u1 (users s) (users s') /\
      replace_doc ucid uc1 (userCodes s) (userCodes s') /\
      res = inr incorrectResponse) \/
     (areCodesEqual g (UserCode.secretCode uc) = true /\
      Round.winnerCount r < Round.maxWinners r /\
      let rank := Round.winnerCount r + 1 in
      let ended := rank =? Round.maxWinners r in
      replace_doc rid (if ended then Round.close ts (Round.incrWinnerCount r)
                       else Round.incrWinnerCount r) (rounds s) (rounds s') /\
      replace_doc (uid a) (if ended then User.resetRound None (User.markWinner u1)
                           else User.markWinner u1) (users s) (users s') /\
      replace_doc ucid (UserCode.markWinner uc1) (userCodes s) (userCodes s') /\
      winners s' = set_doc wid (Winner.mk rid (uid a) rank ts (UserCode.secretCode uc))
                     (winners s) /\
      res = inr (correctResponse ended rank))).
Proof.
  intros Hndr Hndc H. unfold submitGuess in H.
  destruct auth as [a|]; [|injection H as <- <-; left; eauto].
  destruct (validGuessFormat g) eqn:Hfmt; cbn [negb] in H;
    [|injection H as <- <-; left; eauto].
  destruct (runTransaction _ s) as [s1 [e|o]] eqn:Hrun.
  { injection H as <- <-. left. split; [|eauto].
    eapply runTransaction_abort; eassumption. }
  injection H as <- <-. run_inv Hrun; [discriminate|]. injection Hres as <-.
  right. unfold submitGuess_tx in Hbody. tx_inv Hbody.
  all: views Happ.
  all: destruct x as [rid r]; destruct x1 as [ucid uc]; cbn [fst snd] in *.
  all: exists a, rid, r, x0, ucid, uc.
  all: pose proof (activeRoundQuery_In _ _ _ Hq) as [Hinr _].
  all: pose proof (userCodeQuery_In _ _ _ _ _ Hq1) as [Hinc _].
  all: pose proof (In_get_doc _ _ _ Hndr Hinr) as Hgr.
  all: pose proof (In_get_doc _ _ _ Hndc Hinc) as Hgc.
  all: do 9 (split; [first [reflexivity|assumption]|]).
  all: split; [congruence|].
  all: cbv zeta.
  all: upd_inv Vusers; upd_inv Vcodes; upd_inv Vrounds.
  all: try (injection Vwinners as Vwinners).
  all: subst; compose_updates.
  all: repeat match goal with
       | E : update_doc ?k _ (users _) = Some _, G : get_doc ?k (users _) = Some _ |- _ =>
           apply (update_doc_const _ _ _ _ _ G) in E
       | E : update_doc ?k _ (userCodes _) = Some _, G : get_doc ?k (userCodes _) = Some _ |- _ =>
           apply (update_doc_const _ _ _ _ _ G) in E
       | E : update_doc ?k _ (rounds _) = Some _, G : get_doc ?k (rounds _) = Some _ |- _ =>
           apply (update_doc_const _ _ _ _ _ G) in E
       end.
  all: unfold afterLimiter.
  all: repeat match goal with
       | E : User.lastGuessAttempt _ = _ |- _ => rewrite E
       | E : (_ <? _) = _ |- _ => rewrite E
       end.
  all: match goal with
       | E : areCodesEqual _ _ = false |- _ =>
           left; rewrite <- ?Vrounds, <- ?Vwinners;
           repeat (split; [first [reflexivity|assumption]|]); reflexivity
       | E : areCodesEqual _ _ = true |- _ =>
           right;
           match goal with
           | Hlt : (Round.maxWinners _ <=? Round.winnerCount _) = false |- _ =>
               apply Z.leb_gt in Hlt
           end;
           repeat match goal with
           | E : (_ =? _) = _ |- _ => rewrite E
           end;
           repeat (split; [first [reflexivity|assumption|congruence]|]); reflexivity
       end.
Qed.

Lemma startRound_full ts newRoundId s s' res :
  startRound ts newRoundId s = (s', res) ->
  (s' = s /\ exists e, res = inl e) \/
  (users s' = users s /\ userCodes s' = userCodes s /\ winners s' = winners s /\
   payments s' = payments s /\
   (forall resp, res = inr resp ->
      resp = mkStartRoundResponse true newRoundId
               ("Round " ++ newRoundId ++ " started successfully.")) /\
   exists c1 n,
     rounds s' = set_doc newRoundId (newRound newRoundId n ts) c1 /\
     ((lastRoundQuery s = None /\ c1 = rounds s /\ n = 1) \/
      exists lastId lastRound,
        lastRoundQuery s = Some (lastId, lastRound) /\
        update_doc lastId (Round.close ts) (rounds s) = Some c1 /\
        n = Round.roundNumber lastRound + 1)).
Proof.
  unfold startRound. intros H.
  destruct (runTransaction _ s) as [s1 [e|o]] eqn:Hrun.
  - injection H as <- <-. left. split; [|eauto].
    eapply runTransaction_abort; eassumption.
  - assert (s' = s1) by (destruct (String.eqb newRoundId EmptyString); now injection H).
    subst s1.
    assert (Hresp : forall resp, res = inr resp ->
              resp = mkStartRoundResponse true newRoundId
                       ("Round " ++ newRoundId ++ " started successfully.")).
    { intros resp ->. destruct (String.eqb newRoundId EmptyString);
        [discriminate|]. now injection H. }
    clear H.
    run_inv Hrun; [discriminate|]. right.
    unfold startRound_tx in Hbody. tx_inv Hbody.
    + views Happ. upd_inv Vrounds. do 4 (split; [congruence|]).
      split; [assumption|].
      eexists _, _. split; [symmetry; eassumption|]. right. eauto.
    + views Happ. upd_inv Vrounds. do 4 (split; [congruence|]).
      split; [assumption|].
      eexists _, _. split; [symmetry; eassumption|]. left. auto.
Qed.

Lemma finishRound_full roundId ts s s' res :
  finishRound roundId ts s = (s', res) ->
  (s' = s /\ exists e, res = inl e) \/
  exists rid r,
    roundId = Some rid /\ get_doc rid (rounds s) = Some r /\
    Round.isActive r = true /\
    replace_doc rid (Round.close ts r) (rounds s) (rounds s') /\
    users s' = users s /\ userCodes s' = userCodes s /\ winners s' = winners s /\
    payments s' = payments s /\
    res = inr (mkFinishResponse true ("Round " ++ rid ++ " manually ended.")).
Proof.
  unfold finishRound. intros H.
  destruct roundId as [rid|]; [|injection H as <- <-; left; eauto].
  destruct (falsy (Some rid)); [injection H as <- <-; left; eauto|].
  destruct (runTransaction _ s) as [s1 [e|o]] eqn:Hrun.
  - injection H as <- <-. left. split; [|eauto].
    eapply runTransaction_abort; eassumption.
  - injection H as <- <-. run_inv Hrun; [discriminate|]. right.
    unfold finishRound_tx in Hbody. tx_inv Hbody. views Happ. upd_inv Vrounds.
    apply negb_false_iff in Hc.
    eexists _, _. split; [reflexivity|]. split; [eassumption|]. split; [assumption|].
    split; [eapply update_doc_const; [eassumption|congruence]|].
    repeat (split; [congruence|]). reflexivity.
Qed.

Lemma requestHint_full auth now ts pick newPaymentId s s' res :
  requestHint auth now ts pick newPaymentId s = (s', res) ->
  (s' = s /\ exists e, res = inl e) \/
  exists a u rid r ucid uc index,
    auth = Some a /\ get_doc (uid a) (users s) = Some u /\
    activeRoundQuery s = Some (rid, r) /\
    userCodeQuery (uid a) rid s = Some (ucid, uc) /\
    User.isWinnerInCurrentRound u = false /\ UserCode.isWinner uc = false /\
    UserCode.hintPurchases uc < MAX_HINTS_PER_ROUND /\
    (forall last, User.lastHintRequest u = Some last ->
                  HINT_RATE_LIMIT_WINDOW_MS <= now - last) /\
    In index (availableIndices (UserCode.revealedDigits uc)) /\
    rounds s' = rounds s /\ userCodes s' = userCodes s /\ winners s' = winners s /\
    replace_doc (uid a) (User.stampHintRequest ts u) (users s) (users s') /\
    payments s' = set_doc newPaymentId (newPayment (uid a) rid ts index) (payments s) /\
    res = inr hintRequested.
Proof.
  unfold requestHint. intros H.
  destruct auth as [a|]; [|injection H as <- <-; left; eauto].
  destruct (runTransaction _ s) as [s1 [e|o]] eqn:Hrun.
  { injection H as <- <-. left. split; [|eauto].
    eapply runTransaction_abort; eassumption. }
  injection H as <- <-. run_inv Hrun; [discriminate|]. right.
  unfold requestHint_tx in Hbody. tx_inv Hbody.
  all: views Happ.
  all: destruct x0 as [rid r]; destruct x1 as [ucid uc]; cbn [fst snd] in *.
  all: upd_inv Vusers.
  all: apply orb_false_iff in Hc; destruct Hc as [Hw1 Hw2].
  all: apply Z.leb_gt in Hc0.
  all: exists a, x, rid, r, ucid, uc,
         (nth (pick mod List.length (availableIndices (UserCode.revealedDigits uc)))%nat
              (availableIndices (UserCode.revealedDigits uc)) 0).
  all: do 7 (split; [first [reflexivity|assumption]|]).
  all: split; [intros last Hlast|].
  all: try (rewrite Hlast in Hc1; apply Z.ltb_ge; assumption).
  all: split; [apply availableIndices_pick;
               destruct (availableIndices (UserCode.revealedDigits uc));
               [discriminate|congruence]|].
  all: do 3 (split; [congruence|]).
  all: split; [eapply update_doc_const; [eassumption|congruence]|].
  all: split; [unfold newPayment; congruence|reflexivity].
Qed.

(** ** Every step is one of the effects of [commit] *)

Lemma step_commit s s' :
  NoDup (keys (rounds s)) -> NoDup (keys (userCodes s)) ->
  step s s' -> commit s s'.
Proof.
  intros Hndr Hndc Hstep. destruct Hstep.
  - destruct (startRound ts newRoundId s) as [s' res] eqn:E. cbn [fst].
    destruct (startRound_full _ _ _ _ _ E)
      as [[-> _]|(Hu & Hc & Hw & Hp & _ & c1 & n & Hr & Hlast)].
    + now apply commit_nothing.
    + eapply commit_startRound; eassumption.
  - match goal with
    | E : assignSecretCode _ _ _ _ _ _ _ = Some _ |- _ =>
        apply assignSecretCode_unchanged in E; subst
    end.
    now apply commit_nothing.
  - destruct (submitGuess auth guessedCode now ts newWinnerId s) as [s' res] eqn:E.
    cbn [fst].
    destruct (submitGuess_full _ _ _ _ _ _ _ _ Hndr Hndc E)
      as [[-> _]|(a & rid & r & u & ucid & uc & -> & Hfmt & Ha & Hgr & Hgu & Hq & Hgc
                  & Hwu & Hwc & Hp & Hcase)].
    + now apply commit_nothing.
    + cbv zeta in Hcase.
      destruct Hcase as [(Hne & Hr & Hw & Hu & Hc & _)
                        |(Heq & Hlt & Hr & Hu & Hc & Hw & _)].
      * eapply commit_wrongGuess; eassumption.
      * eapply commit_win; eassumption.
  - destruct (requestHint auth now ts pick newPaymentId s) as [s' res] eqn:E.
    cbn [fst].
    destruct (requestHint_full _ _ _ _ _ _ _ _ E)
      as [[-> _]|(a & u & rid & r & ucid & uc & index & -> & Hgu & Ha & Hq & Hwu & Hwc
                  & Hh & _ & Hi & Hr & Hc & Hw & Hu & Hp & _)].
    + now apply commit_nothing.
    + eapply commit_hintRequest; eassumption.
  - destruct (confirmPayment paymentId transactionId ts s) as [s' rs] eqn:E.
    cbn [fst].
    apply confirmPayment_unchanged in E. subst. now apply commit_nothing.
  - destruct (finishRound roundId ts s) as [s' res] eqn:E. cbn [fst].
    destruct (finishRound_full _ _ _ _ _ E)
      as [[-> _]|(rid & r & -> & Hg & Ha & Hr & Hu & Hc & Hw & Hp & _)].
    + now apply commit_nothing.
    + eapply commit_finishRound; eassumption.
Qed.

Lemma reachable_step_commit s s' : reachable s -> step s s' -> commit s s'.
Proof.
  intros Hreach. apply step_commit.
  - apply (reachable_rounds_inv s Hreach).
  - apply (reachable_codes_inv s Hreach).
Qed.

(** ** Round numbers and the active round *)

Lemma replace_doc_length {A} k (d : A) c c' :
  replace_doc k d c c' -> List.length c' = List.length c.
Proof.
  intros H. apply replace_doc_keys in H. unfold keys in H.
  rewrite <- (length_map fst c'), H. apply length_map.
Qed.

Lemma update_doc_map {A B} (h : A -> B) k (f : A -> A) (c : Collection A) :
  forall c' d,
    get_doc k c = Some d -> h (f d) = h d ->
    update_doc k f c = Some c' ->
    map (fun kv => h (snd kv)) c' = map (fun kv => h (snd kv)) c.
Proof.
  induction c as [|[k0 d0] c IH]; intros c' d Hg Hh Hu; cbn in *; [discriminate|].
  destruct (String.eqb k k0).
  - injection Hg as ->. injection Hu as <-. cbn. congruence.
  - destruct (update_doc k f c) as [c1|] eqn:E; [|discriminate].
    injection Hu as <-. cbn. f_equal. eapply IH; eauto.
Qed.

Lemma NoDup_map_eq {A B} (h : A -> B) (l : list A) x y :
  NoDup (map h l) -> In x l -> In y l -> h x = h y -> x = y.
Proof.
  induction l as [|a l IH]; intros Hnd Hx Hy E; [destruct Hx|].
  cbn in Hnd. inversion Hnd as [|? ? Hnotin Hnd']; subst.
  destruct Hx as [->|Hx], Hy as [->|Hy]; auto.
  - exfalso. apply Hnotin. rewrite E. apply in_map, Hy.
  - exfalso. apply Hnotin. rewrite <- E. apply in_map, Hx.
Qed.

Lemma rounds_seq_replace rs rs' k r r' :
  rounds_seq rs -> get_doc k rs = Some r -> replace_doc k r' rs rs' ->
  Round.id r' = Round.id r -> Round.roundNumber r' = Round.roundNumber r ->
  (Round.isActive r' = true -> Round.isActive r = true) ->
  (Round.isActive r' = true <-> Round.endTime r' = None) ->
  rounds_seq rs'.
Proof.
  intros (Hnd & Hnn & Hnum & Hdocs) Hg Hrep Hid Hn Hact Hend.
  assert (Hlen : List.length rs' = List.length rs) by (eapply replace_doc_length; eassumption).
  assert (Hmap : roundNumbers rs' = roundNumbers rs).
  { unfold roundNumbers.
    eapply (update_doc_map Round.roundNumber k (fun _ => r')); eassumption. }
  unfold rounds_seq. rewrite Hmap, Hlen, (replace_doc_keys _ _ _ _ Hrep).
  split; [assumption|]. split; [assumption|]. split; [assumption|].
  intros k0 r0 Hin. apply (replace_doc_In _ _ _ _ _ _ Hnd Hrep) in Hin.
  destruct Hin as [[-> ->]|[Hne Hin]]; [|apply Hdocs, Hin].
  destruct (Hdocs k r (get_doc_In _ _ _ Hg)) as (Hid0 & Hlast & _).
  split; [congruence|]. split; [|assumption].
  intros Ha. rewrite Hn. apply Hlast, Hact, Ha.
Qed.

Lemma lastRoundQuery_nil s : lastRoundQuery s = None -> rounds s = [].
Proof.
  intros H. destruct (rounds s) as [|kv rs] eqn:E; [reflexivity|].
  destruct (lastRoundQuery_spec s) as (k & r & Hq & _); [rewrite E; discriminate|].
  congruence.
Qed.

Lemma rounds_seq_last s lastId lastRound :
  rounds_seq (rounds s) -> lastRoundQuery s = Some (lastId, lastRound) ->
  In (lastId, lastRound) (rounds s) /\
  Round.roundNumber lastRound = Z.of_nat (List.length (rounds s)).
Proof.
  intros (Hnd & Hnn & Hnum & Hdocs) Hq.
  assert (Hne : rounds s <> []).
  { intros E. unfold lastRoundQuery in Hq. rewrite E in Hq. discriminate. }
  destruct (lastRoundQuery_spec s Hne) as (k & r & Hq' & Hin & Hmax).
  rewrite Hq in Hq'. injection Hq' as <- <-.
  split; [assumption|].
  assert (Hlen : (0 < List.length (rounds s))%nat).
  { destruct (rounds s); [congruence|cbn; lia]. }
  assert (Htop : In (Z.of_nat (List.length (rounds s))) (roundNumbers (rounds s))).
  { apply Hnum. lia. }
  unfold roundNumbers in Htop. apply in_map_iff in Htop.
  destruct Htop as ([k1 r1] & E1 & Hin1). cbn in E1.
  specialize (Hmax k1 r1 Hin1).
  assert (Hle : 1 <= Round.roundNumber lastRound <= Z.of_nat (List.length (rounds s))).
  { apply Hnum. unfold roundNumbers. apply in_map_iff.
    exists (lastId, lastRound). auto. }
  lia.
Qed.

Lemma rounds_seq_start s c1 n ts newRoundId :
  rounds_seq (rounds s) -> fresh newRoundId (rounds s) ->
  ((lastRoundQuery s = None /\ c1 = rounds s /\ n = 1) \/
   exists lastId lastRound,
     lastRoundQuery s = Some (lastId, lastRound) /\
     update_doc lastId (Round.close ts) (rounds s) = Some c1 /\
     n = Round.roundNumber lastRound + 1) ->
  fresh newRoundId c1 /\
  n = Z.of_nat (List.length (rounds s)) + 1 /\
  List.length c1 = List.length (rounds s) /\
  roundNumbers c1 = roundNumbers (rounds s) /\
  NoDup (keys c1) /\
  (forall k r, In (k, r) c1 ->
     Round.id r = k /\ Round.isActive r = false /\ Round.endTime r <> None) /\
  rounds_seq (set_doc newRoundId (newRound newRoundId n ts) c1).
Proof.
  intros Hseq Hfresh Hlast.
  pose proof Hseq as (Hnd & Hnn & Hnum & Hdocs).
  assert (Hc1 : fresh newRoundId c1 /\
                n = Z.of_nat (List.length (rounds s)) + 1 /\
                List.length c1 = List.length (rounds s) /\
                roundNumbers c1 = roundNumbers (rounds s) /\
                NoDup (keys c1) /\
                (forall k r, In (k, r) c1 ->
                   Round.id r = k /\ Round.isActive r = false /\
                   Round.endTime r <> None)).
  { destruct Hlast as [(Hq & -> & ->)|(lastId & lastRound & Hq & Hu & ->)].
    - apply lastRoundQuery_nil in Hq. rewrite Hq in *. cbn.
      repeat (split; [first [assumption|reflexivity]|]). intros k r [].
    - destruct (rounds_seq_last s lastId lastRound Hseq Hq) as [Hin Htop].
      pose proof (In_get_doc _ _ _ Hnd Hin) as Hg.
      pose proof (update_doc_const _ _ _ _ _ Hg Hu) as Hrep.
      split; [unfold fresh; rewrite (update_doc_keys _ _ _ _ Hu); exact Hfresh|].
      split; [lia|].
      split; [eapply replace_doc_length; eassumption|].
      split; [eapply (update_doc_map Round.roundNumber); [eassumption| |eassumption];
              reflexivity|].
      split; [rewrite (update_doc_keys _ _ _ _ Hu); exact Hnd|].
      intros k r Hin'. apply (replace_doc_In _ _ _ _ _ _ Hnd Hrep) in Hin'.
      destruct Hin' as [[-> ->]|[Hne Hin']].
      + destruct (Hdocs _ _ Hin) as (Hid & _). cbn. repeat split; [assumption|discriminate].
      + destruct (Hdocs _ _ Hin') as (Hid & Hact & Hend).
        split; [assumption|].
        destruct (Round.isActive r) eqn:Ea.
        * exfalso. apply Hne.
          assert (E : (k, r) = (lastId, lastRound)).
          { apply (NoDup_map_eq (fun kv => Round.roundNumber (snd kv)) (rounds s));
              try assumption.
            cbn. rewrite Htop. apply Hact. reflexivity. }
          congruence.
        * split; [reflexivity|]. intros E. apply Hend in E. discriminate. }
  destruct Hc1 as (Hf1 & Hn & Hlen & Hmap & Hnd1 & Hclosed).
  repeat (split; [assumption|]).
  pose proof (set_doc_perm newRoundId (newRound newRoundId n ts) c1 Hf1) as Hperm.
  assert (Hpn : Permutation (roundNumbers (set_doc newRoundId (newRound newRoundId n ts) c1))
                            (n :: roundNumbers (rounds s))).
  { rewrite <- Hmap. unfold roundNumbers.
    apply (Permutation_map (fun kv => Round.roundNumber (snd kv))) in Hperm.
    exact Hperm. }
  assert (Hlen' : List.length (set_doc newRoundId (newRound newRoundId n ts) c1)
                  = S (List.length (rounds s))).
  { rewrite (Permutation_length Hperm). cbn. congruence. }
  unfold rounds_seq. rewrite Hlen'.
  split; [apply set_doc_NoDup; assumption|].
  split.
  { eapply Permutation_NoDup; [symmetry; exact Hpn|].
    constructor; [|assumption]. intros Hin. apply Hnum in Hin. lia. }
  split.
  { intros z. split.
    - intros Hin. apply (Permutation_in _ Hpn) in Hin.
      destruct Hin as [<-|Hin]; [lia|]. apply Hnum in Hin. lia.
    - intros Hz. apply (Permutation_in _ (Permutation_sym Hpn)).
      destruct (Z.eq_dec z n) as [->|Hne]; [left; reflexivity|].
      right. apply Hnum. lia. }
  intros k r Hin. apply (set_doc_In _ _ _ _ _ Hf1) in Hin.
  destruct Hin as [[= -> ->]|Hin].
  - cbn. split; [reflexivity|]. split; [intros _; lia|]. split; reflexivity.
  - destruct (Hclosed k r Hin) as (Hid & Ha & He).
    split; [assumption|]. rewrite Ha. split; [discriminate|].
    split; [discriminate|]. intros E. contradiction.
Qed.

Lemma commit_rounds_seq s s' : commit s s' -> rounds_seq (rounds s) -> rounds_seq (rounds s').
Proof.
  intros Hc Hseq.
  destruct Hc as [->
                 |ts newRoundId c1 n Hf Hlast Hr _ _ _ _
                 |ts rid r Hg Ha Hr _ _ _ _
                 |a ts ucid rid r code _ _ _ _ _ _ _ _ Hr _ _
                 |userId g now ts rid r u ucid uc _ _ _ _ _ _ _ _ _ Hr _ _
                 |userId g now ts wid rid r u ucid uc _ Ha Hg _ _ _ _ _ _ Hlt rank ended u1
                    Hr _ _ _ _
                 |userId ts pid rid r u ucid uc index _ _ _ _ _ _ _ _ _ Hr _ _];
    try (rewrite Hr; assumption); try assumption.
  - rewrite Hr. eapply rounds_seq_start; eassumption.
  - eapply rounds_seq_replace; try eassumption; try reflexivity.
    + discriminate.
    + cbn. split; discriminate.
  - pose proof Hseq as (_ & _ & _ & Hdocs).
    destruct (Hdocs _ _ (get_doc_In _ _ _ Hg)) as (_ & _ & Hend).
    apply activeRoundQuery_In in Ha. destruct Ha as [_ Hact].
    eapply rounds_seq_replace; try eassumption.
    + destruct ended; reflexivity.
    + destruct ended; reflexivity.
    + intros _. exact Hact.
    + destruct ended; cbn; [split; discriminate|exact Hend].
Qed.

Lemma reachable_rounds_seq s : reachable s -> rounds_seq (rounds s).
Proof.
  induction 1 as [s Hs|s s' Hreach IH Hstep].
  - apply Hs.
  - eapply commit_rounds_seq; [|exact IH]. apply reachable_step_commit; assumption.
Qed.

(** ** Documents are never deleted *)

Lemma replace_doc_keys_incl {A} k (d : A) c c' :
  replace_doc k d c c' -> incl (keys c) (keys c').
Proof. intros H. rewrite (replace_doc_keys _ _ _ _ H). apply incl_refl. Qed.

Lemma commit_keysKept s s' : commit s s' -> keysKept s s'.
Proof.
  intros Hc. unfold keysKept.
  destruct Hc as [->
                 |ts newRoundId c1 n Hf Hlast Hr Hu Hcs Hw Hp
                 |ts rid r0 Hg Ha Hr Hu Hcs Hw Hp
                 |a ts ucid rid r0 code _ _ _ _ _ _ Hcs Hu Hr Hw Hp
                 |userId g now ts rid r0 u ucid uc _ _ _ _ _ _ _ Hu Hcs Hr Hw Hp
                 |userId g now ts wid rid r0 u ucid uc _ _ _ _ _ _ _ _ _ _ rank ended u1
                    Hr Hu Hcs Hw Hp
                 |userId ts pid rid r0 u ucid uc index _ _ _ _ _ _ _ Hu Hp Hr Hcs Hw].
  all: repeat match goal with
       | E : rounds _ = _ |- _ => rewrite E; clear E
       | E : users _ = _ |- _ => rewrite E; clear E
       | E : userCodes _ = _ |- _ => rewrite E; clear E
       | E : payments _ = _ |- _ => rewrite E; clear E
       | E : winners _ = _ |- _ => clear E
       end.
  all: repeat match goal with
       | |- _ /\ _ => split
       | |- incl ?l ?l => apply incl_refl
       | |- incl _ (keys (set_doc _ _ _)) => apply set_doc_keys_incl
       | E : replace_doc _ _ ?c ?c' |- incl (keys ?c) (keys ?c') =>
           exact (replace_doc_keys_incl _ _ _ _ E)
       end.
  - destruct Hlast as [(_ & -> & _)|(lastId & lastRound & _ & Hu & _)].
    + apply set_doc_keys_incl.
    + eapply incl_tran; [|apply set_doc_keys_incl].
      rewrite (update_doc_keys _ _ _ _ Hu). apply incl_refl.
  - destruct Hu as [[_ ->]|(u & _ & Hu)].
    + apply set_doc_keys_incl.
    + exact (replace_doc_keys_incl _ _ _ _ Hu).
Qed.

Lemma codeGrows_refl c : codeGrows c c.
Proof.
  unfold codeGrows. repeat split; try reflexivity; try lia; auto. apply incl_refl.
Qed.

Lemma codeGrows_trans c1 c2 c3 : codeGrows c1 c2 -> codeGrows c2 c3 -> codeGrows c1 c3.
Proof.
  unfold codeGrows.
  intros (A1 & A2 & A3 & A4 & A5 & A6 & A7) (B1 & B2 & B3 & B4 & B5 & B6 & B7).
  split; [congruence|]. split; [congruence|]. split; [congruence|].
  split; [auto|]. split; [lia|]. split; [lia|]. eapply incl_tran; eassumption.
Qed.

Lemma commit_code_grows s s' k c :
  commit s s' -> get_doc k (userCodes s) = Some c ->
  exists c', get_doc k (userCodes s') = Some c' /\ codeGrows c c'.
Proof.
  intros Hc Hget.
  assert (Hsame : exists c', get_doc k (userCodes s) = Some c' /\ codeGrows c c').
  { exists c. split; [assumption|apply codeGrows_refl]. }
  destruct Hc as [->
                 |ts newRoundId c1 n Hf Hlast Hr Hu Hcs Hw Hp
                 |ts rid r0 Hg Ha Hr Hu Hcs Hw Hp
                 |a ts ucid rid r0 code Hf _ _ _ _ _ Hcs Hu Hr Hw Hp
                 |userId g now ts rid r0 u ucid uc _ _ _ Hgc _ _ _ Hu Hcs Hr Hw Hp
                 |userId g now ts wid rid r0 u ucid uc _ _ _ _ _ Hgc _ _ _ _ rank ended u1
                    Hr Hu Hcs Hw Hp
                 |userId ts pid rid r0 u ucid uc index _ _ _ _ _ _ _ Hu Hp Hr Hcs Hw];
    try (rewrite Hcs; exact Hsame); try exact Hsame.
  - rewrite Hcs, get_doc_set_doc.
    destruct (String.eqb_spec k ucid) as [->|_]; [|exact Hsame].
    exfalso. apply Hf. eapply get_doc_keys; eassumption.
  - rewrite (replace_doc_get _ _ _ _ k Hcs).
    destruct (String.eqb_spec k ucid) as [->|_]; [|exact Hsame].
    rewrite Hget in Hgc. injection Hgc as <-.
    eexists. split; [reflexivity|].
    unfold codeGrows. cbn. repeat split; try reflexivity; try lia; auto.
    apply incl_refl.
  - rewrite (replace_doc_get _ _ _ _ k Hcs).
    destruct (String.eqb_spec k ucid) as [->|_]; [|exact Hsame].
    rewrite Hget in Hgc. injection Hgc as <-.
    eexists. split; [reflexivity|].
    unfold codeGrows. cbn. repeat split; try reflexivity; try lia; auto.
    apply incl_refl.
Qed.

Lemma code_wf_mono s s' c : keysKept s s' -> code_wf s c -> code_wf s' c.
Proof.
  intros (Hr & Hu & _) (H1 & H2 & H3 & H4).
  unfold code_wf. repeat (split; [assumption|]). split; [apply Hr, H3|apply Hu, H4].
Qed.

Lemma codes_wf_replace s s' k c c' :
  codes_wf s -> keysKept s s' ->
  get_doc k (userCodes s) = Some c -> replace_doc k c' (userCodes s) (userCodes s') ->
  UserCode.userId c' = UserCode.userId c -> UserCode.roundId c' = UserCode.roundId c ->
  code_wf s' c' -> codes_wf s'.
Proof.
  intros (Hnd & Hwf & Huniq) Hkeys Hget Hrep Hu Hr Hc'.
  pose proof (get_doc_In _ _ _ Hget) as Hin.
  unfold codes_wf. rewrite (replace_doc_keys _ _ _ _ Hrep).
  split; [assumption|]. split.
  - intros k0 c0 Hin0. apply (replace_doc_In _ _ _ _ _ _ Hnd Hrep) in Hin0.
    destruct Hin0 as [[-> ->]|[_ Hin0]]; [assumption|].
    eapply code_wf_mono; [eassumption|]. eapply Hwf; eassumption.
  - intros k1 c1 k2 c2 H1 H2 Eu Er.
    apply (replace_doc_In _ _ _ _ _ _ Hnd Hrep) in H1, H2.
    destruct H1 as [[-> ->]|[N1 H1]], H2 as [[-> ->]|[N2 H2]].
    + reflexivity.
    + apply (Huniq k c k2 c2); congruence.
    + apply (Huniq k1 c1 k c); congruence.
    + apply (Huniq k1 c1 k2 c2); assumption.
Qed.

Lemma codes_wf_same s s' :
  codes_wf s -> keysKept s s' -> userCodes s' = userCodes s -> codes_wf s'.
Proof.
  intros (Hnd & Hwf & Huniq) Hkeys E. unfold codes_wf. rewrite E.
  split; [assumption|]. split; [|assumption].
  intros k c Hin. eapply code_wf_mono; [eassumption|]. eapply Hwf; eassumption.
Qed.

Lemma commit_codes_wf s s' : commit s s' -> codes_wf s -> codes_wf s'.
Proof.
  intros Hc Hwf. pose proof (commit_keysKept s s' Hc) as Hkeys.
  pose proof Hkeys as (Hkr & Hku & _).
  destruct Hc as [->
                 |ts newRoundId c1 n Hf Hlast Hr Hu Hcs Hw Hp
                 |ts rid r0 Hg Ha Hr Hu Hcs Hw Hp
                 |a ts ucid rid r0 code Hf Ha Hq Hv Hd _ Hcs Hu Hr Hw Hp
                 |userId g now ts rid r0 u ucid uc _ _ Hq Hgc _ _ _ Hu Hcs Hr Hw Hp
                 |userId g now ts wid rid r0 u ucid uc _ _ _ _ Hq Hgc _ _ _ _ rank ended u1
                    Hr Hu Hcs Hw Hp
                 |userId ts pid rid r0 u ucid uc index _ _ _ _ _ _ _ Hu Hp Hr Hcs Hw];
    try (eapply codes_wf_same; eassumption); try assumption.
  - (* a new code *)
    destruct Hwf as (Hnd & Hdocs & Huniq).
    unfold codes_wf. rewrite Hcs.
    split; [apply set_doc_NoDup; assumption|]. split.
    + intros k c Hin. apply (set_doc_In _ _ _ _ _ Hf) in Hin.
      destruct Hin as [[= -> ->]|Hin].
      * unfold code_wf, newUserCode. cbn.
        split; [assumption|]. split; [assumption|].
        split.
        -- apply Hkr. apply activeRoundQuery_In in Ha. destruct Ha as [Ha _].
           eapply In_keys; eassumption.
        -- destruct Hu as [[_ ->]|(u & Hgu & Hu)].
           ++ apply get_doc_keys with (d := newUser a rid ts).
              rewrite get_doc_set_doc, String.eqb_refl. reflexivity.
           ++ apply Hku. eapply get_doc_keys; eassumption.
      * eapply code_wf_mono; [eassumption|]. eapply Hdocs; eassumption.
    + assert (Hnone : forall k c, In (k, c) (userCodes s) ->
                UserCode.userId c = uid a -> UserCode.roundId c = rid -> False).
      { intros k c Hin Eu Er.
        pose proof (query_head_None _ _ _ _ Hq Hin) as Hp0. cbn in Hp0.
        rewrite Eu, Er, !String.eqb_refl in Hp0. discriminate. }
      intros k1 c1 k2 c2 H1 H2 Eu Er.
      apply (set_doc_In _ _ _ _ _ Hf) in H1, H2.
      destruct H1 as [[= -> ->]|H1], H2 as [[= -> ->]|H2].
      * reflexivity.
      * exfalso. cbn in Eu, Er. eapply Hnone; eauto.
      * exfalso. cbn in Eu, Er. eapply Hnone; eauto.
      * eapply Huniq; eassumption.
  - (* a wrong guess *)
    pose proof Hwf as (_ & Hdocs & _).
    pose proof (Hdocs _ _ (get_doc_In _ _ _ Hgc)) as Hc0.
    apply (code_wf_mono _ _ _ Hkeys) in Hc0.
    eapply codes_wf_replace; try eassumption; reflexivity.
  - (* a correct guess *)
    pose proof Hwf as (_ & Hdocs & _).
    pose proof (Hdocs _ _ (get_doc_In _ _ _ Hgc)) as Hc0.
    apply (code_wf_mono _ _ _ Hkeys) in Hc0.
    eapply codes_wf_replace; try eassumption; reflexivity.
Qed.

Lemma reachable_codes_wf s : reachable s -> codes_wf s.
Proof.
  induction 1 as [s Hs|s s' Hreach IH Hstep].
  - apply Hs.
  - eapply commit_codes_wf; [|exact IH]. apply reachable_step_commit; assumption.
Qed.

(** ** Payment requests and winner records *)

Lemma commit_code_persists s s' k c :
  commit s s' -> NoDup (keys (userCodes s)) -> In (k, c) (userCodes s) ->
  exists c', In (k, c') (userCodes s') /\ codeGrows c c'.
Proof.
  intros Hc Hnd Hin.
  destruct (commit_code_grows s s' k c Hc (In_get_doc _ _ _ Hnd Hin)) as (c' & Hg & Hgr).
  exists c'. split; [apply get_doc_In, Hg|exact Hgr].
Qed.

Lemma payment_wf_mono s s' p :
  commit s s' -> NoDup (keys (userCodes s)) -> payment_wf s p -> payment_wf s' p.
Proof.
  intros Hc Hnd (Hst & Hidx & Hamt & Hu & k & c & Hin & Eu & Er).
  pose proof (commit_keysKept s s' Hc) as (_ & Hku & _).
  destruct (commit_code_persists s s' k c Hc Hnd Hin) as (c' & Hin' & Hgr).
  destruct Hgr as (G1 & G2 & _).
  unfold payment_wf. repeat (split; [assumption|]).
  split; [apply Hku, Hu|]. exists k, c'. split; [assumption|]. split; congruence.
Qed.

Lemma commit_users_NoDup s s' : commit s s' -> NoDup (keys (users s)) -> NoDup (keys (users s')).
Proof.
  intros Hc Hnd.
  destruct Hc as [->
                 |ts newRoundId c1 n Hf Hlast Hr Hu Hcs Hw Hp
                 |ts rid r0 Hg Ha Hr Hu Hcs Hw Hp
                 |a ts ucid rid r0 code Hf Ha Hq Hv Hd _ Hcs Hu Hr Hw Hp
                 |userId g now ts rid r0 u ucid uc _ _ Hq Hgc _ _ _ Hu Hcs Hr Hw Hp
                 |userId g now ts wid rid r0 u ucid uc _ _ _ _ Hq Hgc _ _ _ _ rank ended u1
                    Hr Hu Hcs Hw Hp
                 |userId ts pid rid r0 u ucid uc index _ _ _ _ _ _ _ Hu Hp Hr Hcs Hw];
    try (rewrite Hu; assumption); try assumption;
    try (rewrite (replace_doc_keys _ _ _ _ Hu); assumption).
  destruct Hu as [[Hnone ->]|(u & _ & Hu)].
  - apply set_doc_NoDup; [|assumption]. apply get_doc_None, Hnone.
  - rewrite (replace_doc_keys _ _ _ _ Hu). assumption.
Qed.

Lemma commit_payments_wf s s' :
  commit s s' -> NoDup (keys (userCodes s)) -> payments_wf s -> payments_wf s'.
Proof.
  intros Hc Hndc (Hnd & Hndu & Hdocs).
  pose proof (commit_users_NoDup s s' Hc Hndu) as Hndu'.
  assert (Hmono : forall k p, In (k, p) (payments s) -> payment_wf s' p).
  { intros k p Hin. eapply payment_wf_mono; try eassumption. eapply Hdocs; eassumption. }
  assert (Hsame : payments s' = payments s -> payments_wf s').
  { intros E. unfold payments_wf. rewrite E. auto. }
  pose proof Hc as Hc0.
  destruct Hc as [->
                 |ts newRoundId c1 n Hf Hlast Hr Hu Hcs Hw Hp
                 |ts rid r0 Hg Ha Hr Hu Hcs Hw Hp
                 |a ts ucid rid r0 code Hf Ha Hq Hv Hd _ Hcs Hu Hr Hw Hp
                 |userId g now ts rid r0 u ucid uc _ _ Hq Hgc _ _ _ Hu Hcs Hr Hw Hp
                 |userId g now ts wid rid r0 u ucid uc _ _ _ _ Hq Hgc _ _ _ _ rank ended u1
                    Hr Hu Hcs Hw Hp
                 |userId ts pid rid r0 u ucid uc index Hf Hgu _ Hq _ _ Hidx Hu Hp Hr Hcs Hw];
    try (apply Hsame; assumption).
  - apply Hsame. reflexivity.
  - (* a new request *)
    unfold payments_wf. rewrite Hp.
    split; [apply set_doc_NoDup; assumption|]. split; [assumption|].
    intros k p Hin. apply (set_doc_In _ _ _ _ _ Hf) in Hin.
    destruct Hin as [[= -> ->]|Hin]; [|eapply Hmono; eassumption].
    unfold payment_wf, newPayment. cbn.
    split; [left; auto|].
    split; [apply availableIndices_In in Hidx; tauto|].
    split; [reflexivity|].
    split.
    + rewrite (replace_doc_keys _ _ _ _ Hu). eapply get_doc_keys; eassumption.
    + destruct (userCodeQuery_In _ _ _ _ _ Hq) as (Hin & Eu & Er).
      exists ucid, uc. rewrite Hcs. auto.
Qed.

Lemma reachable_payments_wf s : reachable s -> payments_wf s.
Proof.
  induction 1 as [s Hs|s s' Hreach IH Hstep].
  - apply Hs.
  - eapply commit_payments_wf; [| |exact IH].
    + apply reachable_step_commit; assumption.
    + apply (reachable_codes_inv s Hreach).
Qed.

Lemma winner_wf_mono s s' w :
  commit s s' -> NoDup (keys (userCodes s)) -> winner_wf s w -> winner_wf s' w.
Proof.
  intros Hc Hnd (k & c & Hin & Eu & Er & Ec & Ew).
  destruct (commit_code_persists s s' k c Hc Hnd Hin) as (c' & Hin' & Hgr).
  destruct Hgr as (G1 & G2 & G3 & G4 & _).
  exists k, c'. split; [assumption|].
  split; [congruence|]. split; [congruence|]. split; [congruence|auto].
Qed.

Lemma commit_winners_wf s s' :
  commit s s' -> codes_wf s -> winners_wf s -> winners_wf s'.
Proof.
  intros Hc (Hndc & _ & Hcuniq) (Hnd & Hdocs & Huniq & Hflag).
  assert (Hmono : forall k w, In (k, w) (winners s) -> winner_wf s' w).
  { intros k w Hin. eapply winner_wf_mono; try eassumption. eapply Hdocs; eassumption. }
  assert (Hsame : winners s' = winners s ->
            (forall k c, In (k, c) (userCodes s') -> UserCode.isWinner c = true ->
               exists k0 c0, In (k0, c0) (userCodes s) /\ UserCode.isWinner c0 = true /\
                             UserCode.userId c0 = UserCode.userId c /\
                             UserCode.roundId c0 = UserCode.roundId c) ->
            winners_wf s').
  { intros E Hback. unfold winners_wf. rewrite E.
    split; [assumption|]. split; [assumption|]. split; [assumption|].
    intros k c Hin Hw. destruct (Hback k c Hin Hw) as (k0 & c0 & Hin0 & Hw0 & Eu & Er).
    destruct (Hflag k0 c0 Hin0 Hw0) as (wk & w & Hinw & Eu' & Er').
    exists wk, w. split; [assumption|]. split; congruence. }
  assert (Hkeep : userCodes s' = userCodes s ->
            forall k c, In (k, c) (userCodes s') -> UserCode.isWinner c = true ->
               exists k0 c0, In (k0, c0) (userCodes s) /\ UserCode.isWinner c0 = true /\
                             UserCode.userId c0 = UserCode.userId c /\
                             UserCode.roundId c0 = UserCode.roundId c).
  { intros E k c Hin Hw. rewrite E in Hin. exists k, c. auto. }
  pose proof Hc as Hc0.
  destruct Hc as [->
                 |ts newRoundId c1 n Hf Hlast Hr Hu Hcs Hw Hp
                 |ts rid r0 Hg Ha Hr Hu Hcs Hw Hp
                 |a ts ucid rid r0 code Hf Ha Hq Hv Hd _ Hcs Hu Hr Hw Hp
                 |userId g now ts rid r0 u ucid uc _ _ Hq Hgc _ Hwc _ Hu Hcs Hr Hw Hp
                 |userId g now ts wid rid r0 u ucid uc Hf _ _ _ Hq Hgc _ Hwc _ _ rank ended u1
                    Hr Hu Hcs Hw Hp
                 |userId ts pid rid r0 u ucid uc index _ _ _ _ _ _ _ Hu Hp Hr Hcs Hw];
    try (apply Hsame; [assumption|apply Hkeep; assumption]).
  - apply Hsame; [reflexivity|apply Hkeep; reflexivity].
  - (* a new code *)
    apply Hsame; [assumption|].
    intros k c Hin Hwin. rewrite Hcs in Hin. apply (set_doc_In _ _ _ _ _ Hf) in Hin.
    destruct Hin as [[= -> ->]|Hin]; [discriminate Hwin|].
    exists k, c. auto.
  - (* a wrong guess *)
    apply Hsame; [assumption|].
    intros k c Hin Hwin. apply (replace_doc_In _ _ _ _ _ _ Hndc Hcs) in Hin.
    destruct Hin as [[-> ->]|[_ Hin]]; [cbn in Hwin; congruence|].
    exists k, c. auto.
  - (* a correct guess *)
    destruct (userCodeQuery_In _ _ _ _ _ Hq) as (Hinc & Eu & Er).
    unfold winners_wf. rewrite Hw.
    split; [apply set_doc_NoDup; assumption|]. split; [|split].
    + intros k w Hin. apply (set_doc_In _ _ _ _ _ Hf) in Hin.
      destruct Hin as [[= -> ->]|Hin]; [|eapply Hmono; eassumption].
      exists ucid, (UserCode.markWinner (UserCode.countAttempt uc)).
      split; [apply (replace_doc_In _ _ _ _ _ _ Hndc Hcs); left; auto|].
      cbn. auto.
    + assert (Hnew : forall k w, In (k, w) (winners s) ->
                Winner.userId w = userId -> Winner.roundId w = rid -> False).
      { intros k w Hin Eu' Er'.
        destruct (Hdocs k w Hin) as (k0 & c0 & Hin0 & Eu0 & Er0 & _ & Hw0).
        assert (k0 = ucid) by (apply (Hcuniq k0 c0 ucid uc); congruence).
        subst k0.
        assert (c0 = uc).
        { apply (In_get_doc _ _ _ Hndc) in Hin0. congruence. }
        congruence. }
      intros k1 w1 k2 w2 H1 H2 Eu' Er'.
      apply (set_doc_In _ _ _ _ _ Hf) in H1, H2.
      destruct H1 as [[= -> ->]|H1], H2 as [[= -> ->]|H2].
      * reflexivity.
      * exfalso. cbn in Eu', Er'. eapply Hnew; eauto.
      * exfalso. cbn in Eu', Er'. eapply Hnew; eauto.
      * eapply Huniq; eassumption.
    + intros k c Hin Hwin. apply (replace_doc_In _ _ _ _ _ _ Hndc Hcs) in Hin.
      destruct Hin as [[-> ->]|[_ Hin]].
      * exists wid, (Winner.mk rid userId rank ts (UserCode.secretCode uc)).
        split; [apply set_doc_In; [assumption|left; reflexivity]|].
        cbn. auto.
      * destruct (Hflag k c Hin Hwin) as (wk & w & Hinw & Eu' & Er').
        exists wk, w. split; [|auto].
        apply set_doc_In; [assumption|right; assumption].
Qed.

Lemma reachable_winners_wf s : reachable s -> winners_wf s.
Proof.
  induction 1 as [s Hs|s s' Hreach IH Hstep].
  - apply Hs.
  - eapply commit_winners_wf; [| |exact IH].
    + apply reachable_step_commit; assumption.
    + apply reachable_codes_wf, Hreach.
Qed.

(** ** Consistent stores *)

Lemma step_consistent s s' : consistent s -> step s s' -> consistent s'.
Proof.
  intros (H1 & H2 & H3 & H4 & H5 & H6 & H7) Hstep.
  assert (Hc : commit s s') by (apply step_commit; [apply H1|apply H3|exact Hstep]).
  split; [eapply step_rounds_inv; eassumption|].
  split; [eapply step_open_inv; eassumption|].
  split; [eapply step_codes_inv; eassumption|].
  split; [eapply commit_rounds_seq; eassumption|].
  split; [eapply commit_codes_wf; eassumption|].
  split; [eapply commit_payments_wf; try eassumption; apply H3|].
  eapply commit_winners_wf; eassumption.
Qed.

Lemma reachable_consistent s : reachable s -> consistent s.
Proof.
  induction 1 as [s Hs|s s' _ IH Hstep]; [exact Hs|].
  eapply step_consistent; eassumption.
Qed.

Lemma steps_reachable s s' : reachable s -> steps s s' -> reachable s'.
Proof.
  intros Hreach Hsteps. induction Hsteps as [|s s' s'' _ IH Hstep]; [assumption|].
  eapply reachable_step; [apply IH, Hreach|exact Hstep].
Qed.

(** ** Runs *)

Lemma isFresh_fresh {A} k (c : Collection A) : isFresh k c = true -> fresh k c.
Proof.
  unfold isFresh, fresh. intros H Hin. apply negb_true_iff in H.
  assert (existsb (String.eqb k) (keys c) = true); [|congruence].
  apply existsb_exists. exists k. split; [assumption|apply String.eqb_refl].
Qed.

Lemma call_step c s s' : call c s = Some s' -> step s s'.
Proof.
  destruct c; cbn [call].
  - destruct (isFresh newRoundId (rounds s)) eqn:E; [|discriminate].
    intros [= <-]. apply step_startRound, isFresh_fresh, E.
  - destruct (isFresh newUserCodeId (userCodes s)) eqn:E; [|discriminate].
    destruct (assignSecretCode auth fuel gfuel rnd ts newUserCodeId s) as [[s1 r]|] eqn:Ea;
      [|discriminate].
    intros [= <-]. eapply step_assignSecretCode; [apply isFresh_fresh, E|exact Ea].
  - destruct (isFresh newWinnerId (winners s)) eqn:E; [|discriminate].
    intros [= <-]. apply step_submitGuess, isFresh_fresh, E.
  - destruct (isFresh newPaymentId (payments s)) eqn:E; [|discriminate].
    intros [= <-]. apply step_requestHint, isFresh_fresh, E.
  - intros [= <-]. apply step_confirmPayment.
  - intros [= <-]. apply step_finishRound.
Qed.

Lemma run_steps calls : forall s s', run calls s = Some s' -> steps s s'.
Proof.
  induction calls as [|c rest IH]; intros s s' H; cbn [run] in H.
  - injection H as <-. apply steps_refl.
  - destruct (call c s) as [s1|] eqn:E; [|discriminate].
    apply call_step in E. specialize (IH s1 s' H).
    clear H. induction IH as [|s1 s2 s3 _ IH2 Hstep].
    + eapply steps_step; [apply steps_refl|exact E].
    + eapply steps_step; [apply IH2, E|exact Hstep].
Qed.

Lemma run_reachable calls s s' : reachable s -> run calls s = Some s' -> reachable s'.
Proof.
  intros Hreach H. eapply steps_reachable; [exact Hreach|]. eapply run_steps, H.
Qed.

(** ** Provisioning *)

Lemma codeOk_sound code : codeOk code = true -> validCode code /\ Forall isDigit code.
Proof.
  unfold codeOk. rewrite !andb_true_iff, negb_true_iff.
  intros [[[Hlen Hdig] Hsize] Hscan].
  apply Nat.eqb_eq in Hlen. apply Nat.eqb_neq in Hsize.
  split; [split; [assumption|split]|].
  - intros Hs. apply Hsize, setSize_allSame; [|assumption].
    intros ->. discriminate Hlen.
  - apply consecutiveScan_decides, Hscan.
  - apply Forall_forall. intros d Hd.
    rewrite forallb_forall in Hdig. specialize (Hdig d Hd).
    apply andb_true_iff in Hdig. unfold isDigit. lia.
Qed.

Lemma isNone_eq {A} (o : option A) : isNone o = true -> o = None.
Proof. destruct o; [discriminate|reflexivity]. Qed.

Lemma isEmpty_eq {A} (l : list A) : isEmpty l = true -> l = [].
Proof. destruct l; [reflexivity|discriminate]. Qed.

Lemma provision_commit a code ts newUserCodeId s s' :
  provision a code ts newUserCodeId s = Some s' -> commit s s'.
Proof.
  unfold provision.
  destruct (activeRoundQuery s) as [[rid r]|] eqn:Ha; [|discriminate].
  destruct (_ && _) eqn:E; [|discriminate]. intros [= <-].
  rewrite !andb_true_iff in E. destruct E as [[[[Hf Hu] Hq] Hok] He].
  apply isFresh_fresh in Hf. apply isNone_eq in Hu, Hq. apply isEmpty_eq in He.
  destruct (codeOk_sound code Hok) as [Hv Hd].
  eapply commit_provision with (a := a) (ts := ts) (code := code); cbn;
    try eassumption; try reflexivity.
  left. split; [assumption|reflexivity].
Qed.

Lemma provision_consistent a code ts newUserCodeId s s' :
  consistent s -> provision a code ts newUserCodeId s = Some s' -> consistent s'.
Proof.
  intros (H1 & H2 & H3 & H4 & H5 & H6 & H7) Hp.
  pose proof (provision_commit _ _ _ _ _ _ Hp) as Hc.
  unfold provision in Hp.
  destruct (activeRoundQuery s) as [[rid r]|] eqn:Ha; [|discriminate].
  destruct (_ && _) eqn:E; [|discriminate]. injection Hp as <-.
  rewrite !andb_true_iff in E. destruct E as [[[[Hf _] _] _] He].
  apply isFresh_fresh in Hf. apply isEmpty_eq in He.
  split; [exact H1|]. split; [exact H2|].
  split; [apply uc_inv_new; [exact H3|exact Hf|now apply existingCodeQuery_empty]|].
  split; [exact H4|].
  split; [eapply commit_codes_wf; eassumption|].
  split; [eapply commit_payments_wf; try eassumption; apply H3|].
  eapply commit_winners_wf; eassumption.
Qed.

Lemma provisionAll_consistent players ts : forall s s',
  consistent s -> provisionAll players ts s = Some s' -> consistent s'.
Proof.
  induction players as [|[[a code] k] rest IH]; intros s s' Hs H; cbn [provisionAll] in H.
  - now injection H as <-.
  - destruct (provision a code ts k s) as [s1|] eqn:E; [|discriminate].
    eapply IH; [|exact H]. eapply provision_consistent; eassumption.
Qed.

(** ** The stores on which the statements are exercised *)

Lemma demoStarted_reachable : reachable demoStarted.
Proof.
  eapply reachable_step; [apply reachable_empty|].
  apply step_startRound. intros [].
Qed.

Lemma demoAssigned_reachable : reachable demoAssigned.
Proof.
  apply reachable_seed.
  apply (provision_consistent alice [0; 1; 2; 3; 4; 5; 6] 1000 "uc1" demoStarted);
    [apply reachable_consistent, demoStarted_reachable|reflexivity].
Qed.

Lemma demoFinished_reachable : reachable demoFinished.
Proof.
  eapply reachable_step; [apply demoAssigned_reachable|].
  apply step_finishRound.
Qed.

Lemma demoHinted_reachable : reachable demoHinted.
Proof.
  eapply reachable_step; [apply demoAssigned_reachable|].
  apply step_requestHint. intros [].
Qed.

Lemma demoConfirmed_reachable : reachable demoConfirmed.
Proof.
  eapply reachable_step; [apply demoHinted_reachable|].
  apply step_confirmPayment.
Qed.

Lemma demoWon_reachable : reachable demoWon.
Proof.
  eapply reachable_step; [apply demoConfirmed_reachable|].
  apply step_submitGuess. intros [].
Qed.


Lemma demoTenPlayers_reachable : reachable demoTenPlayers.
Proof.
  apply reachable_seed.
  apply (provisionAll_consistent (map joinRound (seq 0 10)) 1000 demoStarted);
    [apply reachable_consistent, demoStarted_reachable|].
  vm_compute. reflexivity.
Qed.

Lemma demoNineWinners_reachable : reachable demoNineWinners.
Proof.
  apply (run_reachable (map winRound (seq 0 9)) demoTenPlayers);
    [apply demoTenPlayers_reachable|].
  vm_compute. reflexivity.
Qed.

(** ** The claims on the provisioned stores *)

Lemma submitGuess_attempts_charged_on_commit_witness :
  let out := submitGuess (Some alice) [9; 9; 9; 9; 9; 9; 8] 2000 2000 "w1" demoAssigned in
  let last := submitGuess (Some (player 9)) (playerCode 9) 3000 3000 "w10"
                demoNineWinners in
  snd out = inr incorrectResponse /\
  (exists u' uc',
     get_doc "uc1" (userCodes (fst out)) = Some uc' /\ UserCode.attempts uc' = 1 /\
     get_doc "alice" (users (fst out)) = Some u' /\ User.attemptsInCurrentRound u' = 1) /\
  snd last = inr (correctResponse true 10) /\
  (exists u' uc',
     get_doc "cu9" (userCodes (fst last)) = Some uc' /\ UserCode.attempts uc' = 1 /\
     get_doc "u9" (users (fst last)) = Some u' /\ User.attemptsInCurrentRound u' = 0).
Proof.
  intros out last.
  split; [reflexivity|]. split; [|split; [reflexivity|]].
  - pose proof (submitGuess_attempts_charged_on_commit
                  (Some alice) [9; 9; 9; 9; 9; 9; 8] 2000 2000 "w1" demoAssigned (fst out)
                  (inr incorrectResponse)
                  (proj1 (reachable_codes_inv _ demoAssigned_reachable)) eq_refl) as H.
    destruct H as (a' & rid & r & u & ucid & uc & u' & uc' & Ha & Hr & Hu & Hq & _ & Hg
                   & Hatt & Hg' & Hatt').
    injection Ha as <-. vm_compute in Hr. injection Hr as <- <-.
    vm_compute in Hq. injection Hq as <- <-. vm_compute in Hu. injection Hu as <-.
    exists u', uc'. split; [exact Hg|]. split; [exact Hatt|]. split; [exact Hg'|exact Hatt'].
  - pose proof (submitGuess_attempts_charged_on_commit
                  (Some (player 9)) (playerCode 9) 3000 3000 "w10" demoNineWinners
                  (fst last) (inr (correctResponse true 10))
                  (proj1 (reachable_codes_inv _ demoNineWinners_reachable))
                  ltac:(vm_compute; reflexivity)) as H.
    destruct H as (a' & rid & r & u & ucid & uc & u' & uc' & Ha & Hr & Hu & Hq & _ & Hg
                   & Hatt & Hg' & Hatt').
    injection Ha as <-. vm_compute in Hr. injection Hr as <- <-.
    vm_compute in Hq. injection Hq as <- <-. vm_compute in Hu. injection Hu as <-.
    exists u', uc'. split; [exact Hg|]. split; [exact Hatt|]. split; [exact Hg'|exact Hatt'].
Defined.

Lemma winner_ranks_gapless_witness :
  let out := submitGuess (Some alice) [0; 1; 2; 3; 4; 5; 6] 2000 2000 "w1" demoAssigned in
  sg_winnerNumber
    (match snd out with inr resp => resp | inl _ => incorrectResponse end) = Some 1 /\
  ranks "r1" (fst out) = [1].
Proof.
  intros out.
  destruct (proj2 winner_ranks_gapless (Some alice) [0; 1; 2; 3; 4; 5; 6] 2000 2000 "w1"
              demoAssigned (fst out)
              (match snd out with inr resp => resp | inl _ => incorrectResponse end)
              demoAssigned_reachable ltac:(intros []) eq_refl eq_refl)
    as (rid & r & r' & w & Hq & _ & _ & _ & Hwc & _ & Hn & _).
  injection Hq as <- <-. split; [|reflexivity].
  rewrite Hn, Hwc. reflexivity.
Defined.



Lemma rounds_seq_active_query rs k r :
  rounds_seq rs -> In (k, r) rs -> Round.isActive r = true ->
  hd_error (query Round.isActive rs) = Some (k, r).
Proof.
  intros (Hnd & Hnn & Hnum & Hdocs) Hin Ha.
  destruct (hd_error (query Round.isActive rs)) as [[k' r']|] eqn:E.
  - destruct (query_head _ _ _ _ E) as [Hin' Ha'].
    f_equal.
    apply (NoDup_map_eq (fun kv => Round.roundNumber (snd kv)) rs); try assumption.
    cbn. destruct (Hdocs _ _ Hin) as (_ & H1 & _), (Hdocs _ _ Hin') as (_ & H2 & _).
    rewrite (H1 Ha), (H2 Ha'). reflexivity.
  - pose proof (query_head_None _ _ _ _ E Hin). congruence.
Qed.

(** X9: in every reachable store the rounds are numbered 1, 2, ..., n
    without gaps or repeats, n being the number of rounds ever started,
    and every round document is stored under the id it carries. *)
Theorem round_numbers_sequential s :
  reachable s ->
  NoDup (roundNumbers (rounds s)) /\
  (forall z, In z (roundNumbers (rounds s))
             <-> 1 <= z <= Z.of_nat (List.length (rounds s))) /\
  (forall k r, In (k, r) (rounds s) -> Round.id r = k).
Proof.
  intros Hreach. destruct (reachable_rounds_seq s Hreach) as (_ & Hnn & Hnum & Hdocs).
  split; [assumption|]. split; [assumption|].
  intros k r Hin. apply (Hdocs k r Hin).
Qed.

Lemma round_numbers_sequential_witness :
  NoDup (roundNumbers (rounds demoAssigned)) /\
  (forall z, In z (roundNumbers (rounds demoAssigned))
             <-> 1 <= z <= Z.of_nat (List.length (rounds demoAssigned))) /\
  (forall k r, In (k, r) (rounds demoAssigned) -> Round.id r = k).
Proof.
  apply (round_numbers_sequential demoAssigned). apply demoAssigned_reachable.
Defined.

(** X10: in every reachable store at most one round is active: an active
    round is the one the active-round query returns and the one started
    last; and a round is active exactly while it has no end time. *)
Theorem one_active_round s :
  reachable s ->
  (forall k r, In (k, r) (rounds s) -> Round.isActive r = true ->
     activeRoundQuery s = Some (k, r) /\
     Round.roundNumber r = Z.of_nat (List.length (rounds s))) /\
  (forall k r, In (k, r) (rounds s) ->
     (Round.isActive r = true <-> Round.endTime r = None)).
Proof.
  intros Hreach. pose proof (reachable_rounds_seq s Hreach) as Hseq.
  pose proof Hseq as (_ & _ & _ & Hdocs). split.
  - intros k r Hin Ha. split.
    + apply rounds_seq_active_query; assumption.
    + apply (Hdocs k r Hin), Ha.
  - intros k r Hin. apply (Hdocs k r Hin).
Qed.

Lemma one_active_round_witness :
  (forall k r, In (k, r) (rounds demoAssigned) -> Round.isActive r = true ->
     activeRoundQuery demoAssigned = Some (k, r) /\
     Round.roundNumber r = Z.of_nat (List.length (rounds demoAssigned))) /\
  (forall k r, In (k, r) (rounds demoAssigned) ->
     (Round.isActive r = true <-> Round.endTime r = None)).
Proof.
  apply (one_active_round demoAssigned). apply demoAssigned_reachable.
Defined.

(** X11: from a reachable store, a successful [startRound] leaves the new
    round as the active one, numbered one more than the number of rounds
    started before, without winners and with a quota of 10; every
    earlier round is then closed and has an end time. *)
Theorem startRound_opens_next_round ts newRoundId s s' resp :
  reachable s -> fresh newRoundId (rounds s) ->
  startRound ts newRoundId s = (s', inr resp) ->
  activeRoundQuery s'
  = Some (newRoundId,
          Round.mk newRoundId (Z.of_nat (List.length (rounds s)) + 1) true 0 10 ts
                   None false) /\
  sr_roundId resp = newRoundId /\
  (forall k r, In (k, r) (rounds s) ->
     exists r', get_doc k (rounds s') = Some r' /\
                Round.isActive r' = false /\ Round.endTime r' <> None).
Proof.
  intros Hreach Hfresh H.
  pose proof (reachable_rounds_seq s Hreach) as Hseq.
  destruct (startRound_full _ _ _ _ _ H)
    as [[_ [e He]]|(_ & _ & _ & _ & Hresp & c1 & n & Hr & Hlast)]; [discriminate|].
  destruct (rounds_seq_start s c1 n ts newRoundId Hseq Hfresh Hlast)
    as (Hf1 & -> & Hlen & Hmap & Hnd1 & Hclosed & Hseq').
  rewrite <- Hr in Hseq'.
  split.
  - apply rounds_seq_active_query; [assumption| |reflexivity].
    rewrite Hr. apply set_doc_In; [assumption|]. left. reflexivity.
  - split; [rewrite (Hresp resp eq_refl); reflexivity|].
    intros k r Hin.
    assert (Hk : In k (keys c1)).
    { destruct Hlast as [(_ & -> & _)|(lastId & lastRound & _ & Hu & _)].
      - eapply In_keys; eassumption.
      - rewrite (update_doc_keys _ _ _ _ Hu). eapply In_keys; eassumption. }
    unfold keys in Hk. apply in_map_iff in Hk. destruct Hk as ([k' r'] & Ek & Hin').
    cbn in Ek. subst k'.
    destruct (Hclosed k r' Hin') as (_ & Ha & He).
    exists r'. split; [|auto].
    rewrite Hr, get_doc_set_doc.
    destruct (String.eqb_spec k newRoundId) as [->|_].
    + exfalso. apply Hfresh. eapply In_keys; eassumption.
    + apply In_get_doc; assumption.
Qed.

Lemma startRound_opens_next_round_witness :
  let out := startRound 5000 "r2" demoAssigned in
  activeRoundQuery (fst out)
  = Some ("r2", Round.mk "r2" (Z.of_nat (List.length (rounds demoAssigned)) + 1)
                         true 0 10 5000 None false) /\
  sr_roundId (mkStartRoundResponse true "r2" "Round r2 started successfully.") = "r2" /\
  (forall k r, In (k, r) (rounds demoAssigned) ->
     exists r', get_doc k (rounds (fst out)) = Some r' /\
                Round.isActive r' = false /\ Round.endTime r' <> None).
Proof.
  apply (startRound_opens_next_round 5000 "r2" demoAssigned
           (fst (startRound 5000 "r2" demoAssigned))
           (mkStartRoundResponse true "r2" "Round r2 started successfully.")).
  - apply demoAssigned_reachable.
  - vm_compute. intros [H|[]]. discriminate H.
  - reflexivity.
Defined.

Lemma rounds_seq_unique_active rs k r k' r' :
  rounds_seq rs -> In (k, r) rs -> Round.isActive r = true ->
  In (k', r') rs -> Round.isActive r' = true -> k' = k /\ r' = r.
Proof.
  intros Hseq Hin Ha Hin' Ha'.
  pose proof (rounds_seq_active_query rs k r Hseq Hin Ha) as Q.
  pose proof (rounds_seq_active_query rs k' r' Hseq Hin' Ha') as Q'.
  rewrite Q in Q'. injection Q' as -> ->. auto.
Qed.

(** X12: [finishRound] on an active round closes it, stamping the end
    time, and changes nothing else; called again on the same round it is
    rejected with failed-precondition and leaves the store as it is. *)
Theorem finishRound_closes_once rid ts s r :
  rid <> EmptyString ->
  get_doc rid (rounds s) = Some r -> Round.isActive r = true ->
  exists s',
    finishRound (Some rid) ts s
    = (s', inr (mkFinishResponse true ("Round " ++ rid ++ " manually ended."))) /\
    get_doc rid (rounds s') = Some (Round.close ts r) /\
    (forall k, k <> rid -> get_doc k (rounds s') = get_doc k (rounds s)) /\
    users s' = users s /\ userCodes s' = userCodes s /\
    winners s' = winners s /\ payments s' = payments s /\
    forall ts',
      finishRound (Some rid) ts' s'
      = (s', inl (HttpsError failed_precondition "Round is not active." None)).
Proof.
  intros Hne Hget Hact.
  destruct (update_doc_get rid (Round.close ts) (rounds s) r Hget) as [c' Hu].
  assert (Hf : falsy (Some rid) = false).
  { cbn. apply String.eqb_neq. exact Hne. }
  assert (Hget' : get_doc rid c' = Some (Round.close ts r)).
  { rewrite (get_doc_update_doc _ _ _ _ rid Hu), String.eqb_refl, Hget. reflexivity. }
  exists (mkStore c' (users s) (userCodes s) (winners s) (payments s)).
  split.
  { unfold finishRound. rewrite Hf.
    unfold runTransaction, finishRound_tx, endRound, bind, snapshot, orThrow, when_,
      write, ret, throw.
    cbv beta. rewrite Hget. cbv beta iota. rewrite Hact. cbn [negb app].
    cbn [apply_writes apply_write]. rewrite Hu. reflexivity. }
  cbn [rounds users userCodes winners payments].
  split; [exact Hget'|].
  split.
  { intros k Hk. rewrite (get_doc_update_doc _ _ _ _ k Hu).
    destruct (String.eqb_spec k rid); [contradiction|reflexivity]. }
  do 4 (split; [reflexivity|]).
  intros ts'. unfold finishRound. rewrite Hf.
  unfold runTransaction, finishRound_tx, endRound, bind, snapshot, orThrow, when_,
    write, ret, throw.
  cbv beta. cbn [rounds]. rewrite Hget'. reflexivity.
Qed.

Lemma finishRound_closes_once_witness :
  exists s',
    finishRound (Some "r1") 7000 demoAssigned
    = (s', inr (mkFinishResponse true ("Round " ++ "r1" ++ " manually ended."))) /\
    get_doc "r1" (rounds s') = Some (Round.close 7000 (newRound "r1" 1 1000)) /\
    (forall k, k <> "r1" -> get_doc k (rounds s') = get_doc k (rounds demoAssigned)) /\
    users s' = users demoAssigned /\ userCodes s' = userCodes demoAssigned /\
    winners s' = winners demoAssigned /\ payments s' = payments demoAssigned /\
    forall ts',
      finishRound (Some "r1") ts' s'
      = (s', inl (HttpsError failed_precondition "Round is not active." None)).
Proof.
  apply (finishRound_closes_once "r1" 7000 demoAssigned (newRound "r1" 1 1000)).
  - discriminate.
  - reflexivity.
  - reflexivity.
Defined.

Lemma submitGuess_no_round a g now ts wid s :
  activeRoundQuery s = None -> validGuessFormat g = true ->
  submitGuess (Some a) g now ts wid s = (s, inl noActiveRound).
Proof.
  intros Hq Hfmt. unfold submitGuess. rewrite Hfmt. cbn [negb].
  unfold runTransaction, submitGuess_tx, bind, snapshot, orThrow, throw.
  cbv beta. rewrite Hq. reflexivity.
Qed.

Lemma assignSecretCode_no_round a fuel gfuel rnd ts ucid s :
  activeRoundQuery s = None ->
  assignSecretCode (Some a) fuel gfuel rnd ts ucid s
  = Some (s, inl (HttpsError internal "Failed to assign secret code."
                    (Some "No active round found."))).
Proof.
  intros Hq. unfold assignSecretCode.
  unfold runTransaction, assignSecretCode_tx, bind, snapshot, orThrow, throw.
  cbv beta. rewrite Hq. reflexivity.
Qed.

(** X13: from a reachable store, once [finishRound] has succeeded no round
    is active, so play stops until the next [startRound]: every well-formed
    guess and every request for a secret code is rejected for want of an
    active round, and the store stays as it is. *)
Theorem finishRound_stops_play roundId ts s s' resp :
  reachable s ->
  finishRound roundId ts s = (s', inr resp) ->
  activeRoundQuery s' = None /\
  (forall a g now ts' wid,
     validGuessFormat g = true ->
     submitGuess (Some a) g now ts' wid s' = (s', inl noActiveRound)) /\
  (forall a fuel gfuel rnd ts' ucid,
     assignSecretCode (Some a) fuel gfuel rnd ts' ucid s'
     = Some (s', inl (HttpsError internal "Failed to assign secret code."
                        (Some "No active round found.")))).
Proof.
  intros Hreach H.
  pose proof (reachable_rounds_seq s Hreach) as Hseq.
  pose proof Hseq as (Hnd & _).
  destruct (finishRound_full _ _ _ _ _ H)
    as [[_ [e He]]|(rid & r & -> & Hg & Ha & Hr & _)]; [discriminate|].
  assert (Hq : activeRoundQuery s' = None).
  { unfold activeRoundQuery.
    destruct (hd_error (query Round.isActive (rounds s'))) as [[k r']|] eqn:E;
      [|reflexivity].
    exfalso. destruct (query_head _ _ _ _ E) as [Hin' Ha'].
    apply (replace_doc_In _ _ _ _ _ _ Hnd Hr) in Hin'.
    destruct Hin' as [[-> ->]|[Hne Hin']]; [discriminate Ha'|].
    apply Hne.
    apply (rounds_seq_unique_active (rounds s) rid r k r' Hseq); try assumption.
    apply get_doc_In, Hg. }
  split; [exact Hq|]. split.
  - intros a g now ts' wid Hfmt. apply submitGuess_no_round; assumption.
  - intros a fuel gfuel rnd ts' ucid. apply assignSecretCode_no_round; assumption.
Qed.

Lemma finishRound_stops_play_witness :
  let s' := fst (finishRound (Some "r1") 7000 demoAssigned) in
  activeRoundQuery s' = None /\
  (forall a g now ts' wid,
     validGuessFormat g = true ->
     submitGuess (Some a) g now ts' wid s' = (s', inl noActiveRound)) /\
  (forall a fuel gfuel rnd ts' ucid,
     assignSecretCode (Some a) fuel gfuel rnd ts' ucid s'
     = Some (s', inl (HttpsError internal "Failed to assign secret code."
                        (Some "No active round found.")))).
Proof.
  apply (finishRound_stops_play (Some "r1") 7000 demoAssigned
           (fst (finishRound (Some "r1") 7000 demoAssigned))
           (mkFinishResponse true "Round r1 manually ended.")).
  - apply demoAssigned_reachable.
  - reflexivity.
Defined.

(** ** Rounds only move forward *)

Lemma roundGrows_refl r : roundGrows r r.
Proof. unfold roundGrows. repeat split; try reflexivity; try lia. assumption. Qed.

Lemma roundGrows_trans r1 r2 r3 : roundGrows r1 r2 -> roundGrows r2 r3 -> roundGrows r1 r3.
Proof.
  unfold roundGrows.
  intros (A1 & A2 & A3 & A4 & A5 & A6) (B1 & B2 & B3 & B4 & B5 & B6).
  split; [congruence|]. split; [congruence|]. split; [congruence|].
  split; [congruence|]. split; [lia|].
  intros H. destruct (A6 H) as [H1 H2]. destruct (B6 H1) as [H3 H4].
  split; [assumption|congruence].
Qed.

Lemma commit_round_grows s s' k r :
  NoDup (keys (rounds s)) -> commit s s' -> get_doc k (rounds s) = Some r ->
  exists r', get_doc k (rounds s') = Some r' /\ roundGrows r r'.
Proof.
  intros Hnd Hc Hget.
  assert (Hsame : exists r', get_doc k (rounds s) = Some r' /\ roundGrows r r').
  { exists r. split; [assumption|apply roundGrows_refl]. }
  destruct Hc as [->
                 |ts newRoundId c1 n Hf Hlast Hr _ _ _ _
                 |ts rid r0 Hg Ha Hr _ _ _ _
                 |a ts ucid rid r0 code _ _ _ _ _ _ _ _ Hr _ _
                 |userId g now ts rid r0 u ucid uc _ _ _ _ _ _ _ _ _ Hr _ _
                 |userId g now ts wid rid r0 u ucid uc _ Ha Hg _ _ _ _ _ _ Hlt rank ended u1
                    Hr _ _ _ _
                 |userId ts pid rid r0 u ucid uc index _ _ _ _ _ _ _ _ _ Hr _ _];
    try (rewrite Hr; exact Hsame); try exact Hsame.
  - rewrite Hr, get_doc_set_doc.
    destruct (String.eqb_spec k newRoundId) as [->|_].
    { exfalso. apply Hf. eapply get_doc_keys; eassumption. }
    destruct Hlast as [(_ & -> & _)|(lastId & lastRound & _ & Hu & _)];
      [exact Hsame|].
    rewrite (get_doc_update_doc _ _ _ _ k Hu).
    destruct (String.eqb_spec k lastId) as [->|_]; [|exact Hsame].
    rewrite Hget. cbn. eexists. split; [reflexivity|].
    unfold roundGrows. cbn. repeat split; try reflexivity; lia.
  - rewrite (replace_doc_get _ _ _ _ k Hr).
    destruct (String.eqb_spec k rid) as [->|_]; [|exact Hsame].
    rewrite Hget in Hg. injection Hg as <-.
    eexists. split; [reflexivity|].
    unfold roundGrows. cbn. repeat split; try reflexivity; lia.
  - rewrite (replace_doc_get _ _ _ _ k Hr).
    destruct (String.eqb_spec k rid) as [->|_]; [|exact Hsame].
    rewrite Hget in Hg. injection Hg as <-.
    apply activeRoundQuery_In in Ha. destruct Ha as [_ Hact].
    eexists. split; [reflexivity|].
    unfold roundGrows. destruct ended; cbn; repeat split; try reflexivity; try lia;
      congruence.
Qed.

(** X14: rounds only move forward.  Along any run from a reachable store a
    round document is never deleted, keeps its number, start time and
    quota, and its winner count never decreases; once a round is closed
    it is never reopened and its winner count stays what it was. *)
Theorem closed_rounds_frozen s s' k r :
  reachable s -> steps s s' -> get_doc k (rounds s) = Some r ->
  exists r',
    get_doc k (rounds s') = Some r' /\
    Round.roundNumber r' = Round.roundNumber r /\
    Round.startTime r' = Round.startTime r /\
    Round.maxWinners r' = Round.maxWinners r /\
    Round.winnerCount r <= Round.winnerCount r' /\
    (Round.isActive r = false ->
     Round.isActive r' = false /\ Round.winnerCount r' = Round.winnerCount r).
Proof.
  intros Hreach Hsteps Hget.
  assert (H : exists r', get_doc k (rounds s') = Some r' /\ roundGrows r r').
  { induction Hsteps as [|s s' s'' Hsteps IH Hstep].
    - exists r. split; [assumption|apply roundGrows_refl].
    - destruct (IH Hreach Hget) as (r1 & Hg1 & Hgr1).
      pose proof (steps_reachable _ _ Hreach Hsteps) as Hreach'.
      destruct (commit_round_grows s' s'' k r1) as (r2 & Hg2 & Hgr2);
        [apply (reachable_rounds_inv s' Hreach')
        |apply reachable_step_commit; assumption|assumption|].
      exists r2. split; [assumption|]. eapply roundGrows_trans; eassumption. }
  destruct H as (r' & Hg & _ & H2 & H3 & H4 & H5 & H6).
  exists r'. do 5 (split; [assumption|]). exact H6.
Qed.

Lemma closed_rounds_frozen_witness :
  let r := Round.close 7000 (newRound "r1" 1 1000) in
  exists r',
    get_doc "r1" (rounds (fst (startRound 9000 "r2" demoFinished))) = Some r' /\
    Round.roundNumber r' = Round.roundNumber r /\
    Round.startTime r' = Round.startTime r /\
    Round.maxWinners r' = Round.maxWinners r /\
    Round.winnerCount r <= Round.winnerCount r' /\
    (Round.isActive r = false ->
     Round.isActive r' = false /\ Round.winnerCount r' = Round.winnerCount r).
Proof.
  apply (closed_rounds_frozen demoFinished (fst (startRound 9000 "r2" demoFinished))
           "r1" (Round.close 7000 (newRound "r1" 1 1000))).
  - apply demoFinished_reachable.
  - eapply steps_step; [apply steps_refl|].
    apply step_startRound. vm_compute. intros [H|[]]. discriminate H.
  - reflexivity.
Defined.

(** ** Stored secret codes *)

Lemma query_head_exists {A} (p : A -> bool) (c : Collection A) k d :
  In (k, d) c -> p d = true -> exists k' d', hd_error (query p c) = Some (k', d').
Proof.
  intros Hin Hp.
  destruct (hd_error (query p c)) as [[k' d']|] eqn:E; [eauto|].
  pose proof (query_head_None _ _ _ _ E Hin). congruence.
Qed.

Lemma codes_wf_query s k c :
  codes_wf s -> In (k, c) (userCodes s) ->
  userCodeQuery (UserCode.userId c) (UserCode.roundId c) s = Some (k, c).
Proof.
  intros (Hnd & _ & Huniq) Hin.
  destruct (query_head_exists
              (fun c0 => String.eqb (UserCode.userId c0) (UserCode.userId c)
                         && String.eqb (UserCode.roundId c0) (UserCode.roundId c))
              (userCodes s) k c Hin) as (k' & c' & E).
  { rewrite !String.eqb_refl. reflexivity. }
  unfold userCodeQuery. rewrite E.
  destruct (userCodeQuery_In _ _ _ _ _ E) as (Hin' & Eu & Er).
  assert (k' = k) by (apply (Huniq k' c' k c); assumption). subst k'.
  apply (In_get_doc _ _ _ Hnd) in Hin, Hin'. congruence.
Qed.



(** X19: user codes only move forward.  Along any run from a reachable
    store a user-code document is never deleted; its owner, round and
    secret code never change; the winning flag is never taken back; the
    attempt and hint counters never decrease and no revealed position is
    withdrawn. *)
Theorem user_codes_persist s s' k c :
  reachable s -> steps s s' -> get_doc k (userCodes s) = Some c ->
  exists c',
    get_doc k (userCodes s') = Some c' /\
    UserCode.userId c' = UserCode.userId c /\
    UserCode.roundId c' = UserCode.roundId c /\
    UserCode.secretCode c' = UserCode.secretCode c /\
    (UserCode.isWinner c = true -> UserCode.isWinner c' = true) /\
    UserCode.attempts c <= UserCode.attempts c' /\
    UserCode.hintPurchases c <= UserCode.hintPurchases c' /\
    incl (UserCode.revealedDigits c) (UserCode.revealedDigits c').
Proof.
  intros Hreach Hsteps Hget.
  assert (H : exists c', get_doc k (userCodes s') = Some c' /\ codeGrows c c').
  { induction Hsteps as [|s s' s'' Hsteps IH Hstep].
    - exists c. split; [assumption|apply codeGrows_refl].
    - destruct (IH Hreach Hget) as (c1 & Hg1 & Hgr1).
      pose proof (steps_reachable _ _ Hreach Hsteps) as Hreach'.
      destruct (commit_code_grows s' s'' k c1) as (c2 & Hg2 & Hgr2);
        [apply reachable_step_commit; assumption|assumption|].
      exists c2. split; [assumption|]. eapply codeGrows_trans; eassumption. }
  destruct H as (c' & Hg & H1 & H2 & H3 & H4 & H5 & H6 & H7).
  exists c'. do 7 (split; [assumption|]). exact H7.
Qed.

Lemma user_codes_persist_witness :
  let c := newUserCode "alice" "r1" [0; 1; 2; 3; 4; 5; 6] in
  exists c',
    get_doc "uc1" (userCodes demoConfirmed) = Some c' /\
    UserCode.userId c' = UserCode.userId c /\
    UserCode.roundId c' = UserCode.roundId c /\
    UserCode.secretCode c' = UserCode.secretCode c /\
    (UserCode.isWinner c = true -> UserCode.isWinner c' = true) /\
    UserCode.attempts c <= UserCode.attempts c' /\
    UserCode.hintPurchases c <= UserCode.hintPurchases c' /\
    incl (UserCode.revealedDigits c) (UserCode.revealedDigits c').
Proof.
  apply (user_codes_persist demoAssigned demoConfirmed "uc1"
           (newUserCode "alice" "r1" [0; 1; 2; 3; 4; 5; 6])).
  - apply demoAssigned_reachable.
  - eapply steps_step; [eapply steps_step; [apply steps_refl|]|].
    + apply (step_requestHint (Some alice) 3000 3000 2 "p1" demoAssigned). intros [].
    + apply (step_confirmPayment (Some "p1") (Some "tx1") 4000 demoHinted).
  - reflexivity.
Defined.

(** ** Payment requests *)

(** X20: in every reachable store a payment request is in one of two
    states: pending, with no hint given and no confirmation data, or
    completed, with its hint given and its transaction id and
    confirmation time recorded.  It is never failed; it costs the hint
    price and asks for one of the positions 0..6. *)
Theorem payment_states s k p :
  reachable s -> In (k, p) (payments s) ->
  ((Payment.status p = pending /\ Payment.hintProvided p = false /\
    Payment.transactionId p = None /\ Payment.paymentConfirmedAt p = None) \/
   (Payment.status p = completed /\ Payment.hintProvided p = true /\
    Payment.transactionId p <> None /\ Payment.paymentConfirmedAt p <> None)) /\
  Payment.status p <> failed /\
  0 <= Payment.requestedDigitIndex p < 7 /\
  Payment.amountUsdt p = HINT_PRICE_USDT.
Proof.
  intros Hreach Hin. destruct (reachable_payments_wf s Hreach) as (_ & _ & Hdocs).
  destruct (Hdocs k p Hin) as (Hst & Hidx & Hamt & _).
  split; [assumption|]. split; [|auto].
  destruct Hst as [(E & _)|(E & _)]; rewrite E; discriminate.
Qed.

Lemma payment_states_witness :
  let p := newPayment "alice" "r1" 3000 2 in
  ((Payment.status p = pending /\ Payment.hintProvided p = false /\
    Payment.transactionId p = None /\ Payment.paymentConfirmedAt p = None) \/
   (Payment.status p = completed /\ Payment.hintProvided p = true /\
    Payment.transactionId p <> None /\ Payment.paymentConfirmedAt p <> None)) /\
  Payment.status p <> failed /\
  0 <= Payment.requestedDigitIndex p < 7 /\
  Payment.amountUsdt p = HINT_PRICE_USDT.
Proof.
  apply (payment_states demoHinted "p1" (newPayment "alice" "r1" 3000 2)).
  - apply demoHinted_reachable.
  - left. reflexivity.
Defined.

(** X21: a pending payment request is never confirmed.  Whenever the
    named request is stored and pending, [confirmPayment] sends the one
    response 500 "Internal Server Error processing payment confirmation."
    and leaves the store exactly as it was: the request stays pending and
    no position is revealed.  The transaction queries the user code
    after it has queued the update of the payment, and that read throws. *)
Theorem pending_payment_never_confirms pid txid ts s p :
  pid <> EmptyString -> txid <> EmptyString ->
  get_doc pid (payments s) = Some p -> Payment.status p = pending ->
  confirmPayment (Some pid) (Some txid) ts s = (s, [confirmFailed]).
Proof.
  intros Hpid Htx Hget Hst. unfold confirmPayment.
  assert (Hf1 : falsy (Some pid) = false) by (cbn; apply String.eqb_neq, Hpid).
  assert (Hf2 : falsy (Some txid) = false) by (cbn; apply String.eqb_neq, Htx).
  rewrite Hf1, Hf2. cbn [orb].
  unfold runTransaction, confirmPayment_tx, bind, snapshot, orThrow, when_, write,
    ret, throw.
  cbv beta. rewrite Hget. cbv beta iota. rewrite Hst. reflexivity.
Qed.

Lemma pending_payment_never_confirms_witness :
  confirmPayment (Some "p1") (Some "tx1") 4000 demoHinted = (demoHinted, [confirmFailed]) /\
  option_map Payment.status (get_doc "p1" (payments demoHinted)) = Some pending.
Proof.
  split; [|reflexivity].
  apply (pending_payment_never_confirms "p1" "tx1" 4000 demoHinted
           (newPayment "alice" "r1" 3000 2)).
  - discriminate.
  - discriminate.
  - reflexivity.
  - reflexivity.
Defined.

(** X22: [confirmPayment] always sends exactly one response and never
    changes the store, and the response is never the success response
    200 "Payment confirmed and hint provided.": no call marks a request
    completed, reveals a position or counts a purchased hint. *)
Theorem confirmPayment_changes_nothing paymentId transactionId ts s s' rs :
  confirmPayment paymentId transactionId ts s = (s', rs) ->
  s' = s /\ (exists r, rs = [r]) /\ rs <> [paymentConfirmed].
Proof.
  intros H. split; [eapply confirmPayment_unchanged; eassumption|].
  unfold confirmPayment in H.
  destruct paymentId as [pid|];
    [|injection H as _ <-; split; [eauto|discriminate]].
  destruct transactionId as [txid|];
    [|injection H as _ <-; split; [eauto|discriminate]].
  destruct (falsy (Some pid) || falsy (Some txid));
    [injection H as _ <-; split; [eauto|discriminate]|].
  destruct (runTransaction _ s) as [s1 [[c m d|r m| |]|o]] eqn:Hrun;
    injection H as _ <-; (split; [eauto|]); try discriminate.
  - unfold runTransaction in Hrun.
    destruct (confirmPayment_tx pid txid ts s []) as [e|[a ws]] eqn:Hb.
    + injection Hrun as _ ->.
      pose proof (confirmPayment_tx_responses _ _ _ _ _ _ Hb) as Hne.
      intros [= ->]. apply Hne. reflexivity.
    + destruct (apply_writes ws s); discriminate.
  - exfalso. run_inv Hrun; [discriminate|].
    unfold confirmPayment_tx in Hbody. tx_inv Hbody.
Qed.

Lemma confirmPayment_changes_nothing_witness :
  let out := confirmPayment (Some "p1") (Some "tx1") 4000 demoHinted in
  fst out = demoHinted /\ (exists r, snd out = [r]) /\ snd out <> [paymentConfirmed].
Proof.
  apply (confirmPayment_changes_nothing (Some "p1") (Some "tx1") 4000 demoHinted).
  reflexivity.
Defined.

(** ** Winners *)

(** X23: in every reachable store winner records and winning flags go
    together.  Each winner record belongs to the user code of its player
    in its round, that code is flagged as winner and its secret code is
    the one copied into the record; a player has at most one winner
    record per round; and every user code flagged as winner has its
    winner record. *)
Theorem winner_records_match s :
  reachable s ->
  (forall k w, In (k, w) (winners s) ->
     (exists ucid uc,
        userCodeQuery (Winner.userId w) (Winner.roundId w) s = Some (ucid, uc) /\
        UserCode.secretCode uc = Winner.secretCodeAtWin w /\
        UserCode.isWinner uc = true) /\
     (forall k' w', In (k', w') (winners s) ->
        Winner.userId w' = Winner.userId w ->
        Winner.roundId w' = Winner.roundId w -> k' = k)) /\
  (forall k c, In (k, c) (userCodes s) -> UserCode.isWinner c = true ->
     exists wk w, In (wk, w) (winners s) /\
                  Winner.userId w = UserCode.userId c /\
                  Winner.roundId w = UserCode.roundId c /\
                  Winner.secretCodeAtWin w = UserCode.secretCode c).
Proof.
  intros Hreach.
  pose proof (reachable_codes_wf s Hreach) as Hcwf.
  pose proof Hcwf as (Hndc & _ & Hcuniq).
  destruct (reachable_winners_wf s Hreach) as (_ & Hdocs & Huniq & Hflag).
  split.
  - intros k w Hin. split.
    + destruct (Hdocs k w Hin) as (ucid & uc & Hinc & Eu & Er & Ec & Ew).
      exists ucid, uc. split; [|auto].
      rewrite <- Eu, <- Er. apply codes_wf_query; assumption.
    + intros k' w' Hin' Eu Er. apply (Huniq k' w' k w); assumption.
  - intros k c Hin Hw.
    destruct (Hflag k c Hin Hw) as (wk & w & Hinw & Eu & Er).
    exists wk, w. do 3 (split; [assumption|]).
    destruct (Hdocs wk w Hinw) as (k0 & c0 & Hin0 & Eu0 & Er0 & Ec0 & _).
    assert (k0 = k) by (apply (Hcuniq k0 c0 k c); congruence). subst k0.
    apply (In_get_doc _ _ _ Hndc) in Hin, Hin0. congruence.
Qed.

Lemma winner_records_match_witness :
  (forall k w, In (k, w) (winners demoWon) ->
     (exists ucid uc,
        userCodeQuery (Winner.userId w) (Winner.roundId w) demoWon = Some (ucid, uc) /\
        UserCode.secretCode uc = Winner.secretCodeAtWin w /\
        UserCode.isWinner uc = true) /\
     (forall k' w', In (k', w') (winners demoWon) ->
        Winner.userId w' = Winner.userId w ->
        Winner.roundId w' = Winner.roundId w -> k' = k)) /\
  (forall k c, In (k, c) (userCodes demoWon) -> UserCode.isWinner c = true ->
     exists wk w, In (wk, w) (winners demoWon) /\
                  Winner.userId w = UserCode.userId c /\
                  Winner.roundId w = UserCode.roundId c /\
                  Winner.secretCodeAtWin w = UserCode.secretCode c).
Proof.
  apply (winner_records_match demoWon). apply demoWon_reachable.
Defined.

Lemma rounds_seq_closed_none rs rs' rid r r' :
  rounds_seq rs -> get_doc rid rs = Some r -> Round.isActive r = true ->
  replace_doc rid r' rs rs' -> Round.isActive r' = false ->
  hd_error (query Round.isActive rs') = None.
Proof.
  intros Hseq Hg Ha Hrep Ha'. pose proof Hseq as (Hnd & _).
  destruct (hd_error (query Round.isActive rs')) as [[k r0]|] eqn:E; [|reflexivity].
  exfalso. destruct (query_head _ _ _ _ E) as [Hin0 Ha0].
  apply (replace_doc_In _ _ _ _ _ _ Hnd Hrep) in Hin0.
  destruct Hin0 as [[-> ->]|[Hne Hin0]]; [congruence|].
  apply Hne.
  apply (rounds_seq_unique_active rs rid r k r0 Hseq); try assumption.
  apply get_doc_In, Hg.
Qed.

Lemma submitGuess_already_won a g now ts wid s rid r u ucid uc :
  validGuessFormat g = true ->
  activeRoundQuery s = Some (rid, r) ->
  get_doc (uid a) (users s) = Some u ->
  userCodeQuery (uid a) rid s = Some (ucid, uc) ->
  User.isWinnerInCurrentRound u = true \/ UserCode.isWinner uc = true ->
  submitGuess (Some a) g now ts wid s = (s, inl alreadyWon).
Proof.
  intros Hfmt Hq Hu Hc Hw. unfold submitGuess. rewrite Hfmt. cbn [negb].
  unfold runTransaction, submitGuess_tx, bind, snapshot, orThrow, when_, throw, ret.
  cbv beta. rewrite Hq. cbv beta iota. cbn [fst snd].
  rewrite Hu. cbv beta iota. rewrite Hc. cbv beta iota. cbn [fst snd].
  destruct (User.isWinnerInCurrentRound u); [reflexivity|].
  destruct Hw as [Hw|Hw]; [discriminate|]. rewrite Hw. reflexivity.
Qed.

Lemma userCodeQuery_None u r s :
  userCodeQuery u r s = None <->
  forall k c, In (k, c) (userCodes s) ->
              UserCode.userId c = u -> UserCode.roundId c = r -> False.
Proof.
  unfold userCodeQuery. split.
  - intros H k c Hin Eu Er.
    pose proof (query_head_None _ _ _ _ H Hin) as Hp. cbn in Hp.
    rewrite Eu, Er, !String.eqb_refl in Hp. discriminate.
  - intros H. destruct (hd_error _) as [[k c]|] eqn:E; [|reflexivity].
    exfalso. apply query_head in E. destruct E as [Hin Hp].
    apply andb_true_iff in Hp. destruct Hp as [E1 E2].
    apply String.eqb_eq in E1, E2. eapply H; eassumption.
Qed.

Lemma step_query_None s s' u r :
  step s s' -> userCodeQuery u r s = None -> userCodeQuery u r s' = None.
Proof.
  intros Hstep Hn. apply userCodeQuery_None. intros k c' Hin Eu Er.
  destruct (step_userCodes_back s s' Hstep k c' Hin) as (c & Hc & E1 & _ & _ & _ & E5).
  rewrite userCodeQuery_None in Hn. apply (Hn k c Hc); congruence.
Qed.

(** The round that is active after a step was active before it, or it
    is a round the step has created. *)
Lemma step_active s s' rid r :
  reachable s -> step s s' -> activeRoundQuery s' = Some (rid, r) ->
  (exists r0, activeRoundQuery s = Some (rid, r0)) \/ fresh rid (rounds s).
Proof.
  intros Hreach Hstep Hq.
  pose proof (reachable_rounds_seq s Hreach) as Hseq. pose proof Hseq as (Hnd & _).
  pose proof (reachable_step_commit s s' Hreach Hstep) as Hc.
  destruct (activeRoundQuery_In _ _ _ Hq) as [Hin Hact].
  assert (Hold : In (rid, r) (rounds s) -> exists r0, activeRoundQuery s = Some (rid, r0)).
  { intros Hin0. exists r. apply rounds_seq_active_query; assumption. }
  assert (Hsame : rounds s' = rounds s -> exists r0, activeRoundQuery s = Some (rid, r0)).
  { intros E. apply Hold. rewrite <- E. exact Hin. }
  destruct Hc as [->
                 |ts newRoundId c1 n Hf Hlast Hr _ _ _ _
                 |ts rid0 r0 Hg Ha Hr _ _ _ _
                 |a ts ucid rid0 r0 code _ _ _ _ _ _ _ _ Hr _ _
                 |userId g now ts rid0 r0 u ucid uc _ _ _ _ _ _ _ _ _ Hr _ _
                 |userId g now ts wid rid0 r0 u ucid uc _ Ha Hg _ _ _ _ _ _ Hlt rank ended u1
                    Hr _ _ _ _
                 |userId ts pid rid0 r0 u ucid uc index _ _ _ _ _ _ _ _ _ Hr _ _];
    try (left; apply Hsame; first [reflexivity|assumption]).
  - (* a new round *)
    rewrite Hr in Hin.
    assert (Hf1 : fresh newRoundId c1).
    { destruct Hlast as [(_ & -> & _)|(lastId & lastRound & _ & Hu & _)]; [assumption|].
      unfold fresh. rewrite (update_doc_keys _ _ _ _ Hu). exact Hf. }
    apply (set_doc_In _ _ _ _ _ Hf1) in Hin.
    destruct Hin as [[= -> _]|Hin]; [right; exact Hf|]. left.
    destruct Hlast as [(_ & -> & _)|(lastId & lastRound & _ & Hu & _)]; [auto|].
    destruct (update_doc_In _ _ _ _ _ _ Hu Hin) as [Hin0|[d [_ [_ ->]]]]; [auto|].
    discriminate Hact.
  - (* a closed round *)
    left. apply (replace_doc_In _ _ _ _ _ _ Hnd Hr) in Hin.
    destruct Hin as [[-> ->]|[_ Hin]]; [discriminate Hact|auto].
  - (* a winner *)
    left. apply (replace_doc_In _ _ _ _ _ _ Hnd Hr) in Hin.
    destruct Hin as [[-> _]|[_ Hin]]; [eauto|auto].
Qed.

Lemma step_hasWon s s' u rid :
  reachable s -> step s s' -> hasWon u rid s -> hasWon u rid s'.
Proof.
  intros Hreach Hstep ((ucid & uc & Hin & Eu & Er & Ew) & Hu & Hother).
  pose proof (reachable_step_commit s s' Hreach Hstep) as Hc.
  pose proof (reachable_codes_wf s Hreach) as (Hndc & Hdocs & _).
  split; [|split].
  - destruct (commit_code_persists s s' ucid uc Hc Hndc Hin)
      as (uc' & Hin' & (G1 & G2 & _ & G4 & _)).
    exists ucid, uc'. split; [assumption|]. split; [congruence|]. split; [congruence|auto].
  - apply (commit_keysKept s s' Hc), Hu.
  - intros rid' r' Hq.
    destruct (step_active s s' rid' r' Hreach Hstep Hq) as [[r0 Hq0]|Hf].
    + destruct (Hother rid' r0 Hq0) as [->|Hn]; [now left|right].
      eapply step_query_None; eassumption.
    + right. eapply step_query_None; [eassumption|].
      apply userCodeQuery_None. intros k c Hinc _ Erc.
      destruct (Hdocs k c Hinc) as (_ & _ & Hk & _). apply Hf. rewrite <- Erc. exact Hk.
Qed.

Lemma steps_hasWon s s' u rid :
  reachable s -> steps s s' -> hasWon u rid s -> hasWon u rid s'.
Proof.
  intros Hreach Hsteps Hw.
  induction Hsteps as [|s s' s'' Hsteps IH Hstep]; [assumption|].
  eapply step_hasWon; [eapply steps_reachable; eassumption|exact Hstep|apply IH; assumption].
Qed.

(** A player who has won is turned away. *)
Lemma hasWon_rejected a rid g now ts wid s :
  reachable s -> hasWon (uid a) rid s -> validGuessFormat g = true ->
  exists e, submitGuess (Some a) g now ts wid s = (s, inl e) /\
            (e = noActiveRound \/ e = alreadyWon \/ e = noCodeAssigned).
Proof.
  intros Hreach ((ucid & uc & Hin & Eu & Er & Ew) & Hu & Hother) Hfmt.
  pose proof (reachable_codes_wf s Hreach) as Hcwf.
  destruct (activeRoundQuery s) as [[rid' r']|] eqn:Hq.
  - destruct (get_doc (uid a) (users s)) as [u|] eqn:Hgu.
    2:{ exfalso. apply get_doc_None in Hgu. exact (Hgu Hu). }
    destruct (Hother rid' r' eq_refl) as [->|Hn].
    + exists alreadyWon. split; [|auto].
      apply (submitGuess_already_won a g now ts wid s rid r' u ucid uc);
        [assumption|assumption|assumption| |right; exact Ew].
      rewrite <- Eu, <- Er. apply codes_wf_query; assumption.
    + exists noCodeAssigned. split; [|auto].
      unfold submitGuess. rewrite Hfmt. cbn [negb].
      unfold runTransaction, submitGuess_tx, bind, snapshot, orThrow, when_, throw, ret.
      cbv beta. rewrite Hq. cbv beta iota. cbn [fst snd].
      rewrite Hgu. cbv beta iota. rewrite Hn. reflexivity.
  - exists noActiveRound. split; [|auto]. apply submitGuess_no_round; assumption.
Qed.

(** X24: a win is final.  From a reachable store, after a correct guess
    the winner record under the new id carries the caller, the rank
    reported in the response and, as the code at the time of the win,
    the guess itself.  A well-formed guess of the same player made next
    is rejected without any change: for want of an active round when the
    win closed the round, as already won otherwise.  And so is every
    later one, after any number of further calls of any operation: it
    changes nothing and fails for want of an active round, as already
    won, or, once a new round has been started, for want of a code in
    it. *)
Theorem win_is_final a g now ts wid s s' resp :
  reachable s -> fresh wid (winners s) ->
  submitGuess (Some a) g now ts wid s = (s', inr resp) ->
  sg_isCorrect resp = true ->
  (exists rid rank,
     sg_winnerNumber resp = Some rank /\
     get_doc wid (winners s') = Some (Winner.mk rid (uid a) rank ts g)) /\
  (forall g' now' ts' wid',
     validGuessFormat g' = true ->
     submitGuess (Some a) g' now' ts' wid' s'
     = (s', inl (if sg_roundEnded resp then noActiveRound else alreadyWon))) /\
  (forall s'' g' now' ts' wid',
     steps s' s'' -> validGuessFormat g' = true ->
     exists e, submitGuess (Some a) g' now' ts' wid' s'' = (s'', inl e) /\
               (e = noActiveRound \/ e = alreadyWon \/ e = noCodeAssigned)).
Proof.
  intros Hreach Hfresh H Hcorrect.
  assert (Hstep : step s s').
  { replace s' with (fst (submitGuess (Some a) g now ts wid s)) by (rewrite H; reflexivity).
    apply step_submitGuess, Hfresh. }
  assert (Hreach' : reachable s') by (eapply reachable_step; eassumption).
  pose proof (reachable_rounds_seq s Hreach) as Hseq.
  pose proof (reachable_rounds_seq s' Hreach') as Hseq'.
  pose proof (reachable_codes_wf s Hreach) as Hcwf.
  pose proof (reachable_codes_wf s' Hreach') as Hcwf'.
  pose proof Hseq as (Hndr & _). pose proof Hcwf as (Hndc & _).
  destruct (submitGuess_full _ _ _ _ _ _ _ _ Hndr Hndc H)
    as [[_ [e He]]|(a0 & rid & r & u & ucid & uc & Ea & Hfmt & Hq & Hgr & Hgu & Hqc & Hgc
                    & Hwu & Hwc & Hp & Hcase)]; [discriminate|].
  injection Ea as <-. cbv zeta in Hcase.
  destruct Hcase as [(_ & _ & _ & _ & _ & [= ->])
                    |(Heq & Hlt & Hr & Hu & Hc & Hw & [= ->])];
    [discriminate Hcorrect|].
  apply areCodesEqual_true in Heq. destruct Heq as [_ Heq].
  destruct (activeRoundQuery_In _ _ _ Hq) as [_ Hact].
  destruct (userCodeQuery_In _ _ _ _ _ Hqc) as (_ & Eu & Er).
  assert (Hnext : forall g' now' ts' wid',
            validGuessFormat g' = true ->
            submitGuess (Some a) g' now' ts' wid' s'
            = (s', inl (if Round.winnerCount r + 1 =? Round.maxWinners r
                        then noActiveRound else alreadyWon))).
  { intros g' now' ts' wid' Hfmt'.
    destruct (Round.winnerCount r + 1 =? Round.maxWinners r) eqn:Eend.
    - apply submitGuess_no_round; [|assumption].
      eapply (rounds_seq_closed_none (rounds s)); try eassumption. reflexivity.
    - pose proof Hseq' as (Hndr' & _). pose proof Hcwf' as (Hndc' & _).
      eapply (submitGuess_already_won a g' now' ts' wid' s' rid
                (Round.incrWinnerCount r)
                (User.markWinner (User.countAttempt ts (afterLimiter now u)))
                ucid (UserCode.markWinner (UserCode.countAttempt uc))).
      + assumption.
      + apply rounds_seq_active_query; [assumption| |exact Hact].
        apply (replace_doc_In _ _ _ _ _ _ Hndr Hr). left. auto.
      + rewrite (replace_doc_get _ _ _ _ _ Hu), String.eqb_refl. reflexivity.
      + rewrite <- Eu at 1. rewrite <- Er.
        apply (codes_wf_query s' ucid (UserCode.markWinner (UserCode.countAttempt uc))
                 Hcwf').
        apply (replace_doc_In _ _ _ _ _ _ Hndc Hc). left. auto.
      + left. reflexivity. }
  split.
  { exists rid, (Round.winnerCount r + 1). split; [reflexivity|].
    rewrite Hw, get_doc_set_doc, String.eqb_refl, Heq. reflexivity. }
  split; [exact Hnext|].
  intros s'' g' now' ts' wid' Hsteps Hfmt'.
  apply (hasWon_rejected a rid g' now' ts' wid' s'');
    [eapply steps_reachable; eassumption| |assumption].
  apply (steps_hasWon s' s'' (uid a) rid Hreach' Hsteps).
  split; [|split].
  - exists ucid, (UserCode.markWinner (UserCode.countAttempt uc)).
    split; [apply (replace_doc_In _ _ _ _ _ _ Hndc Hc); left; auto|].
    cbn. auto.
  - rewrite (replace_doc_keys _ _ _ _ Hu). eapply get_doc_keys; eassumption.
  - intros rid' r' Hq'.
    destruct (step_active s s' rid' r' Hreach Hstep Hq') as [[r0 Hq0]|Hf].
    + left. congruence.
    + exfalso. apply Hf. rewrite <- (replace_doc_keys _ _ _ _ Hr).
      destruct (activeRoundQuery_In _ _ _ Hq') as [Hin' _]. eapply In_keys; eassumption.
Qed.

Lemma win_is_final_witness :
  let out := submitGuess (Some alice) [0; 1; 2; 3; 4; 5; 6] 5000 5000 "w1" demoConfirmed in
  let later := fst (startRound 9000 "r2" (fst out)) in
  let resp := correctResponse false 1 in
  (exists rid rank,
     sg_winnerNumber resp = Some rank /\
     get_doc "w1" (winners (fst out))
     = Some (Winner.mk rid (uid alice) rank 5000 [0; 1; 2; 3; 4; 5; 6])) /\
  submitGuess (Some alice) [0; 1; 2; 3; 4; 5; 6] 6000 6000 "w2" (fst out)
    = (fst out, inl alreadyWon) /\
  exists e, submitGuess (Some alice) [0; 1; 2; 3; 4; 5; 6] 9500 9500 "w2" later
            = (later, inl e) /\
            (e = noActiveRound \/ e = alreadyWon \/ e = noCodeAssigned).
Proof.
  intros out later resp.
  destruct (win_is_final alice [0; 1; 2; 3; 4; 5; 6] 5000 5000 "w1" demoConfirmed
              (fst out) resp demoConfirmed_reachable ltac:(intros []) eq_refl eq_refl)
    as (Hrec & Hnext & Hlater).
  split; [exact Hrec|]. split.
  - apply (Hnext [0; 1; 2; 3; 4; 5; 6] 6000 6000 "w2"). reflexivity.
  - apply (Hlater later [0; 1; 2; 3; 4; 5; 6] 9500 9500 "w2"); [|reflexivity].
    eapply steps_step; [apply steps_refl|].
    apply step_startRound. vm_compute. intros [E|[]]. discriminate E.
Defined.

(** X25: the winner who fills the quota closes the round.  From a
    reachable store, when a guess is answered with [roundEnded], it took
    the tenth and last rank; the round is then inactive, ended at the
    time of the commit with ten winners, no round is active any more,
    and the winner's own user document no longer points at a round. *)
Theorem last_winner_closes_round a g now ts wid s s' resp :
  reachable s ->
  submitGuess (Some a) g now ts wid s = (s', inr resp) ->
  sg_roundEnded resp = true ->
  sg_winnerNumber resp = Some 10 /\
  activeRoundQuery s' = None /\
  (exists rid r r',
     activeRoundQuery s = Some (rid, r) /\
     get_doc rid (rounds s') = Some r' /\
     Round.isActive r' = false /\ Round.endTime r' = Some ts /\
     Round.winnerCount r' = 10 /\ Round.roundNumber r' = Round.roundNumber r) /\
  (exists u', get_doc (uid a) (users s') = Some u' /\
              User.currentRoundId u' = None /\
              User.attemptsInCurrentRound u' = 0).
Proof.
  intros Hreach H Hended.
  pose proof (reachable_rounds_seq s Hreach) as Hseq.
  pose proof (reachable_codes_wf s Hreach) as (Hndc & _).
  destruct (reachable_rounds_inv s Hreach) as (Hndr & Hrs & _).
  destruct (submitGuess_full _ _ _ _ _ _ _ _ Hndr Hndc H)
    as [[_ [e He]]|(a0 & rid & r & u & ucid & uc & Ea & Hfmt & Hq & Hgr & Hgu & Hqc & Hgc
                    & Hwu & Hwc & Hp & Hcase)]; [discriminate|].
  injection Ea as <-. cbv zeta in Hcase.
  destruct Hcase as [(_ & _ & _ & _ & _ & [= ->])
                    |(Heq & Hlt & Hr & Hu & Hc & Hw & [= ->])];
    [discriminate Hended|].
  cbn [sg_roundEnded correctResponse] in Hended. rewrite Hended in Hr, Hu.
  destruct (activeRoundQuery_In _ _ _ Hq) as [Hin Hact].
  destruct (Hrs rid r Hin) as (_ & Hmax & _).
  apply Z.eqb_eq in Hended.
  split; [cbn; f_equal; lia|].
  split.
  { eapply (rounds_seq_closed_none (rounds s)); try eassumption. reflexivity. }
  split.
  - exists rid, r, (Round.close ts (Round.incrWinnerCount r)).
    split; [assumption|].
    split; [rewrite (replace_doc_get _ _ _ _ _ Hr), String.eqb_refl; reflexivity|].
    cbn. repeat split; try reflexivity. lia.
  - eexists. split.
    + rewrite (replace_doc_get _ _ _ _ _ Hu), String.eqb_refl. reflexivity.
    + split; reflexivity.
Qed.

Lemma last_winner_closes_round_witness :
  let out := submitGuess (Some (player 9)) (playerCode 9) 3000 3000 "w10"
               demoNineWinners in
  let resp := correctResponse true 10 in
  sg_winnerNumber resp = Some 10 /\
  activeRoundQuery (fst out) = None /\
  (exists rid r r',
     activeRoundQuery demoNineWinners = Some (rid, r) /\
     get_doc rid (rounds (fst out)) = Some r' /\
     Round.isActive r' = false /\ Round.endTime r' = Some 3000 /\
     Round.winnerCount r' = 10 /\ Round.roundNumber r' = Round.roundNumber r) /\
  (exists u', get_doc (uid (player 9)) (users (fst out)) = Some u' /\
              User.currentRoundId u' = None /\
              User.attemptsInCurrentRound u' = 0).
Proof.
  apply (last_winner_closes_round (player 9) (playerCode 9) 3000 3000 "w10"
           demoNineWinners
           (fst (submitGuess (Some (player 9)) (playerCode 9) 3000 3000 "w10"
                   demoNineWinners))
           (correctResponse true 10)).
  - apply demoNineWinners_reachable.
  - vm_compute. reflexivity.
  - reflexivity.
Defined.

(** ** Hint requests *)

(** X26: what a successful [requestHint] guarantees.  The caller holds a
    code in the active round, has not won with it and has bought fewer
    than three hints; the request is stored as pending under the new id,
    at the hint price, for a position 0..6 of the code that is not
    revealed yet; and nothing is revealed at this point: rounds, user
    codes and winners are untouched. *)
Theorem requestHint_creates_pending_request auth now ts pick newPaymentId s s' resp :
  requestHint auth now ts pick newPaymentId s = (s', inr resp) ->
  resp = hintRequested /\
  rounds s' = rounds s /\ userCodes s' = userCodes s /\ winners s' = winners s /\
  exists a rid r ucid uc index,
    auth = Some a /\ activeRoundQuery s = Some (rid, r) /\
    userCodeQuery (uid a) rid s = Some (ucid, uc) /\
    UserCode.isWinner uc = false /\
    UserCode.hintPurchases uc < MAX_HINTS_PER_ROUND /\
    0 <= index < 7 /\ ~ In index (UserCode.revealedDigits uc) /\
    get_doc newPaymentId (payments s')
    = Some (Payment.mk (uid a) rid HINT_PRICE_USDT pending ts false index None None).
Proof.
  intros H.
  destruct (requestHint_full _ _ _ _ _ _ _ _ H)
    as [[_ [e He]]|(a & u & rid & r & ucid & uc & index & -> & Hgu & Ha & Hq & Hwu & Hwc
                    & Hh & _ & Hi & Hr & Hc & Hw & Hu & Hp & [= ->])]; [discriminate|].
  apply availableIndices_In in Hi. destruct Hi as [Hrange Hnew].
  split; [reflexivity|]. do 3 (split; [assumption|]).
  exists a, rid, r, ucid, uc, index.
  do 7 (split; [first [reflexivity|assumption]|]).
  rewrite Hp, get_doc_set_doc, String.eqb_refl. reflexivity.
Qed.

Lemma requestHint_creates_pending_request_witness :
  let out := requestHint (Some alice) 3000 3000 2 "p1" demoAssigned in
  hintRequested = hintRequested /\
  rounds (fst out) = rounds demoAssigned /\
  userCodes (fst out) = userCodes demoAssigned /\
  winners (fst out) = winners demoAssigned /\
  exists a rid r ucid uc index,
    Some alice = Some a /\ activeRoundQuery demoAssigned = Some (rid, r) /\
    userCodeQuery (uid a) rid demoAssigned = Some (ucid, uc) /\
    UserCode.isWinner uc = false /\
    UserCode.hintPurchases uc < MAX_HINTS_PER_ROUND /\
    0 <= index < 7 /\ ~ In index (UserCode.revealedDigits uc) /\
    get_doc "p1" (payments (fst out))
    = Some (Payment.mk (uid a) rid HINT_PRICE_USDT pending 3000 false index None None).
Proof.
  apply (requestHint_creates_pending_request (Some alice) 3000 3000 2 "p1" demoAssigned
           (fst (requestHint (Some alice) 3000 3000 2 "p1" demoAssigned))
           hintRequested).
  reflexivity.
Defined.

(** X27: the hint cool-down.  A successful [requestHint] recorded at
    server time [ts] stamps [ts] on the player's document as the time of
    the last request.  A request of the same player made next, less than
    ten seconds after [ts], is rejected with resource-exhausted and
    changes nothing.  And in any store in which the player's document
    carries [ts] as the time of the last request, such a request does
    not succeed: it is rejected, by the cool-down or by one of the checks
    made before it, and changes nothing. *)
Theorem requestHint_cooldown a now ts pick newPaymentId s s' resp :
  requestHint (Some a) now ts pick newPaymentId s = (s', inr resp) ->
  (exists u', get_doc (uid a) (users s') = Some u' /\
              User.lastHintRequest u' = Some ts) /\
  (forall now' ts' pick' newPaymentId',
     now' - ts < HINT_RATE_LIMIT_WINDOW_MS ->
     requestHint (Some a) now' ts' pick' newPaymentId' s' = (s', inl hintCooldown)) /\
  (forall s'' u'' now' ts' pick' newPaymentId',
     get_doc (uid a) (users s'') = Some u'' ->
     User.lastHintRequest u'' = Some ts ->
     now' - ts < HINT_RATE_LIMIT_WINDOW_MS ->
     exists e, requestHint (Some a) now' ts' pick' newPaymentId' s'' = (s'', inl e)).
Proof.
  intros H.
  destruct (requestHint_full _ _ _ _ _ _ _ _ H)
    as [[_ [e He]]|(a0 & u & rid & r & ucid & uc & index & Ea & Hgu & Ha & Hq & Hwu & Hwc
                    & Hh & _ & Hi & Hr & Hc & Hw & Hu & Hp & _)]; [discriminate|].
  injection Ea as <-.
  split; [|split].
  - eexists. split; [rewrite (replace_doc_get _ _ _ _ _ Hu), String.eqb_refl; reflexivity|].
    reflexivity.
  - intros now' ts' pick' newPaymentId' Hsoon.
    unfold requestHint, runTransaction, requestHint_tx, bind, snapshot, orThrow, when_,
      throw, ret, write.
    cbv beta.
    rewrite (replace_doc_get _ _ _ _ _ Hu), String.eqb_refl. cbv beta iota.
    unfold activeRoundQuery, userCodeQuery in *. rewrite Hr, Ha. cbv beta iota.
    cbn [fst snd].
    rewrite Hc, Hq. cbv beta iota. cbn [fst snd].
    cbn [User.isWinnerInCurrentRound User.stampHintRequest User.lastHintRequest].
    rewrite Hwu, Hwc. cbn [orb].
    destruct (Z.leb_spec MAX_HINTS_PER_ROUND (UserCode.hintPurchases uc)); [lia|].
    destruct (Z.ltb_spec (now' - ts) HINT_RATE_LIMIT_WINDOW_MS); [|lia].
    reflexivity.
  - intros s'' u'' now' ts' pick' newPaymentId' Hgu'' Hlast Hsoon.
    destruct (requestHint (Some a) now' ts' pick' newPaymentId' s'') as [s1 res] eqn:E.
    destruct (requestHint_full _ _ _ _ _ _ _ _ E)
      as [[-> [e ->]]|(a1 & u1 & _ & _ & _ & _ & _ & Ea & Hgu1 & _ & _ & _ & _ & _
                       & Hwin & _)].
    + exists e. reflexivity.
    + exfalso. injection Ea as <-. rewrite Hgu'' in Hgu1. injection Hgu1 as <-.
      specialize (Hwin ts Hlast). lia.
Qed.

Lemma requestHint_cooldown_witness :
  let s' := fst (requestHint (Some alice) 3000 3000 2 "p1" demoAssigned) in
  let s'' := fst (submitGuess (Some alice) [0; 1; 2; 3; 4; 5; 6] 5000 5000 "w1" s') in
  option_map User.lastHintRequest (get_doc "alice" (users s')) = Some (Some 3000) /\
  requestHint (Some alice) 9000 9000 0 "p2" s' = (s', inl hintCooldown) /\
  exists e, requestHint (Some alice) 9000 9000 0 "p2" s'' = (s'', inl e).
Proof.
  intros s' s''.
  destruct (requestHint_cooldown alice 3000 3000 2 "p1" demoAssigned s' hintRequested
              eq_refl) as ((u' & Hg & Hl) & Hnext & Hlater).
  split; [reflexivity|]. split.
  - apply (Hnext 9000 9000 0%nat "p2"). vm_compute. reflexivity.
  - destruct (get_doc "alice" (users s'')) as [u''|] eqn:E; [|discriminate E].
    apply (Hlater s'' u'' 9000 9000 0%nat "p2" E);
      [vm_compute in E; injection E as <-; reflexivity|vm_compute; reflexivity].
Defined.

(** ** Assigning secret codes *)

(** X28: [assignSecretCode] never assigns a code.  Every call leaves
    the store exactly as it was.  A player who already holds a code for
    the active round is told so, with success; when no round is active
    the call fails; and a player without a code, for whom a new code is
    drawn, gets the internal error "Failed to assign secret code.": the
    transaction reads the player's document after it has queued the new
    user code, and that read throws. *)
Theorem assignSecretCode_never_assigns a fuel gfuel rnd ts newUserCodeId s s' res :
  assignSecretCode (Some a) fuel gfuel rnd ts newUserCodeId s = Some (s', res) ->
  s' = s /\
  match activeRoundQuery s with
  | None =>
      res = inl (HttpsError internal "Failed to assign secret code."
                   (Some "No active round found."))
  | Some (rid, _) =>
      match userCodeQuery (uid a) rid s with
      | Some _ => res = inr (alreadyAssigned rid)
      | None => res = inl assignFailed
      end
  end.
Proof.
  intros H. split; [eapply assignSecretCode_unchanged; eassumption|].
  revert H. unfold assignSecretCode.
  unfold runTransaction, assignSecretCode_tx, bind, snapshot, orThrow, throw, ret, write.
  cbv beta.
  destruct (activeRoundQuery s) as [[rid r]|]; cbv beta iota; cbn [fst snd];
    [|now intros [= _ <-]].
  destruct (userCodeQuery (uid a) rid s) as [p|]; cbv beta iota;
    [now intros [= _ <-]|].
  destruct (uniqueCodeLoop fuel gfuel rnd 0 rid s); cbn; [now intros [= _ <-]|discriminate].
Qed.

Lemma assignSecretCode_never_assigns_witness :
  assignSecretCode (Some alice) 5 5 countUp 1000 "uc1" demoStarted
    = Some (demoStarted, inl assignFailed) /\
  assignSecretCode (Some alice) 5 5 countUp 8000 "uc9" demoAssigned
    = Some (demoAssigned, inr (alreadyAssigned "r1")).
Proof.
  split.
  - assert (E : assignSecretCode (Some alice) 5 5 countUp 1000 "uc1" demoStarted
                = Some (demoStarted, inl assignFailed)) by (vm_compute; reflexivity).
    destruct (assignSecretCode_never_assigns _ _ _ _ _ _ _ _ _ E) as [_ _]. exact E.
  - assert (E : assignSecretCode (Some alice) 5 5 countUp 8000 "uc9" demoAssigned
                = Some (demoAssigned, inr (alreadyAssigned "r1")))
      by (vm_compute; reflexivity).
    destruct (assignSecretCode_never_assigns _ _ _ _ _ _ _ _ _ E) as [_ _]. exact E.
Defined.

(** ** A new round needs new codes *)

Lemma startRound_active ts newRoundId s s' resp :
  reachable s -> fresh newRoundId (rounds s) ->
  startRound ts newRoundId s = (s', inr resp) ->
  activeRoundQuery s'
  = Some (newRoundId, newRound newRoundId (Z.of_nat (List.length (rounds s)) + 1) ts) /\
  users s' = users s /\ userCodes s' = userCodes s.
Proof.
  intros Hreach Hfresh H.
  pose proof (reachable_rounds_seq s Hreach) as Hseq.
  destruct (startRound_full _ _ _ _ _ H)
    as [[_ [e He]]|(Hu & Hc & _ & _ & _ & c1 & n & Hr & Hlast)]; [discriminate|].
  destruct (rounds_seq_start s c1 n ts newRoundId Hseq Hfresh Hlast)
    as (Hf1 & -> & _ & _ & _ & _ & Hseq').
  rewrite <- Hr in Hseq'.
  split; [|auto].
  apply rounds_seq_active_query; [assumption| |reflexivity].
  rewrite Hr. apply set_doc_In; [assumption|]. left. reflexivity.
Qed.

(** X29: a new round needs new codes.  From a reachable store, right
    after a successful [startRound] no player holds a code for the new
    round, so a well-formed guess of any known player is rejected with
    failed-precondition, whatever code the player held before, and the
    store is left as it is. *)
Theorem new_round_needs_new_codes ts newRoundId s s' resp :
  reachable s -> fresh newRoundId (rounds s) ->
  startRound ts newRoundId s = (s', inr resp) ->
  (forall userId, userCodeQuery userId newRoundId s' = None) /\
  (forall a u g now ts' wid,
     get_doc (uid a) (users s) = Some u -> validGuessFormat g = true ->
     submitGuess (Some a) g now ts' wid s' = (s', inl noCodeAssigned)).
Proof.
  intros Hreach Hfresh H.
  destruct (startRound_active _ _ _ _ _ Hreach Hfresh H) as (Hq & Hu & Hc).
  destruct (reachable_codes_wf s Hreach) as (_ & Hdocs & _).
  assert (Hnone : forall userId, userCodeQuery userId newRoundId s' = None).
  { intros userId.
    destruct (userCodeQuery userId newRoundId s') as [[k c]|] eqn:E; [|reflexivity].
    exfalso. destruct (userCodeQuery_In _ _ _ _ _ E) as (Hin & _ & Er).
    rewrite Hc in Hin. destruct (Hdocs k c Hin) as (_ & _ & Hk & _).
    apply Hfresh. rewrite <- Er. exact Hk. }
  split; [exact Hnone|].
  intros a u g now ts' wid Hgu Hfmt.
  unfold submitGuess. rewrite Hfmt. cbn [negb].
  unfold runTransaction, submitGuess_tx, bind, snapshot, orThrow, when_, throw, ret.
  cbv beta. rewrite Hq. cbv beta iota. cbn [fst snd].
  rewrite Hu, Hgu. cbv beta iota. rewrite Hnone. reflexivity.
Qed.

Lemma new_round_needs_new_codes_witness :
  let s' := fst (startRound 5000 "r2" demoAssigned) in
  (forall userId, userCodeQuery userId "r2" s' = None) /\
  (forall a u g now ts' wid,
     get_doc (uid a) (users demoAssigned) = Some u -> validGuessFormat g = true ->
     submitGuess (Some a) g now ts' wid s' = (s', inl noCodeAssigned)).
Proof.
  apply (new_round_needs_new_codes 5000 "r2" demoAssigned
           (fst (startRound 5000 "r2" demoAssigned))
           (mkStartRoundResponse true "r2" "Round r2 started successfully.")).
  - apply demoAssigned_reachable.
  - vm_compute. intros [E|[]]. discriminate E.
  - reflexivity.
Defined.

(** ** Winner records are final *)

Lemma commit_winner_kept s s' k w :
  commit s s' -> get_doc k (winners s) = Some w -> get_doc k (winners s') = Some w.
Proof.
  intros Hc Hget.
  destruct Hc as [->
                 |ts newRoundId c1 n Hf Hlast Hr Hu Hcs Hw Hp
                 |ts rid r0 Hg Ha Hr Hu Hcs Hw Hp
                 |a ts ucid rid r0 code Hf Ha Hq Hv Hd _ Hcs Hu Hr Hw Hp
                 |userId g now ts rid r0 u ucid uc _ _ Hq Hgc _ Hwc _ Hu Hcs Hr Hw Hp
                 |userId g now ts wid rid r0 u ucid uc Hf _ _ _ Hq Hgc _ Hwc _ _ rank ended u1
                    Hr Hu Hcs Hw Hp
                 |userId ts pid rid r0 u ucid uc index _ _ _ _ _ _ _ Hu Hp Hr Hcs Hw];
    try (rewrite Hw; assumption); try assumption.
  rewrite Hw, get_doc_set_doc.
  destruct (String.eqb_spec k wid) as [->|_]; [|assumption].
  exfalso. apply Hf. eapply get_doc_keys; eassumption.
Qed.

(** X30: winner records are final.  Along any run from a reachable store
    a winner record, once written, is never changed or deleted: rank,
    player, round, time and the code at the time of the win stay as they
    were recorded. *)
Theorem winner_records_final s s' k w :
  reachable s -> steps s s' ->
  get_doc k (winners s) = Some w -> get_doc k (winners s') = Some w.
Proof.
  intros Hreach Hsteps Hget.
  induction Hsteps as [|s s' s'' Hsteps IH Hstep]; [assumption|].
  apply (commit_winner_kept s' s''); [|apply IH; assumption].
  apply reachable_step_commit; [|assumption].
  eapply steps_reachable; eassumption.
Qed.

Lemma winner_records_final_witness :
  get_doc "w1" (winners (fst (startRound 9000 "r2" demoWon)))
  = Some (Winner.mk "r1" "alice" 1 5000 [0; 1; 2; 3; 4; 5; 6]).
Proof.
  apply (winner_records_final demoWon (fst (startRound 9000 "r2" demoWon)) "w1"
           (Winner.mk "r1" "alice" 1 5000 [0; 1; 2; 3; 4; 5; 6])).
  - apply demoWon_reachable.
  - eapply steps_step; [apply steps_refl|].
    apply step_startRound. vm_compute. intros [E|[]]. discriminate E.
  - reflexivity.
Defined.


(** ** A fresh deployment *)

Lemma step_userCodes_keys s s' : step s s' -> keys (userCodes s') = keys (userCodes s).
Proof.
  intros H. destruct (step_userCodes s s' H) as [->|(k & f & _ & _ & _ & Hu)];
    [reflexivity|].
  apply (update_doc_keys _ _ _ _ Hu).
Qed.

(** X31: the operations alone never bring a player into the game.
    Along any run from the store of a fresh deployment there is no user
    document, no user code, no winner record and no payment request:
    [assignSecretCode], the one operation written to create the first
    two, never commits, and the other operations need them. *)
Theorem fresh_deployment_stays_empty s :
  steps emptyStore s ->
  users s = [] /\ userCodes s = [] /\ winners s = [] /\ payments s = [].
Proof.
  intros Hsteps.
  remember emptyStore as s0 eqn:E0.
  induction Hsteps as [|s0 s s' Hsteps IH Hstep]; [subst; cbn; auto|].
  assert (Hr : reachable s)
    by (subst; eapply steps_reachable; [apply reachable_empty|exact Hsteps]).
  destruct (IH E0) as (Hu0 & Hc0 & Hw0 & Hp0).
  pose proof (step_userCodes_keys s s' Hstep) as Hkeys. rewrite Hc0 in Hkeys.
  pose proof (reachable_step_commit s s' Hr Hstep) as Hc.
  destruct Hc as [->
                 |ts newRoundId c1 n Hf Hlast Hrs Hu Hcs Hw Hp
                 |ts rid r0 Hg Ha Hrs Hu Hcs Hw Hp
                 |a ts ucid rid r0 code Hf Ha Hq Hv Hd _ Hcs Hu Hrs Hw Hp
                 |userId g now ts rid r0 u ucid uc _ Hgu _ _ _ _ _ Hu Hcs Hrs Hw Hp
                 |userId g now ts wid rid r0 u ucid uc _ _ _ Hgu _ _ _ _ _ _ rank ended u1
                    Hrs Hu Hcs Hw Hp
                 |userId ts pid rid r0 u ucid uc index _ Hgu _ _ _ _ _ Hu Hp Hrs Hcs Hw].
  - auto.
  - rewrite Hu, Hcs, Hw, Hp. auto.
  - rewrite Hu, Hcs, Hw, Hp. auto.
  - rewrite Hcs, Hc0 in Hkeys. discriminate Hkeys.
  - rewrite Hu0 in Hgu. discriminate Hgu.
  - rewrite Hu0 in Hgu. discriminate Hgu.
  - rewrite Hu0 in Hgu. discriminate Hgu.
Qed.

Lemma fresh_deployment_stays_empty_witness :
  let s := orEmpty (run [CallStartRound 1000 "r1";
                         CallAssignSecretCode (Some alice) 5 5 countUp 1000 "uc1";
                         CallSubmitGuess (Some alice) [0; 1; 2; 3; 4; 5; 6] 2000 2000 "w1";
                         CallRequestHint (Some alice) 3000 3000 0 "p1";
                         CallConfirmPayment (Some "p1") (Some "tx1") 4000]
                        emptyStore) in
  keys (rounds s) = ["r1"] /\
  users s = [] /\ userCodes s = [] /\ winners s = [] /\ payments s = [].
Proof.
  intros s. split; [reflexivity|].
  apply (fresh_deployment_stays_empty s).
  apply (run_steps [CallStartRound 1000 "r1";
                    CallAssignSecretCode (Some alice) 5 5 countUp 1000 "uc1";
                    CallSubmitGuess (Some alice) [0; 1; 2; 3; 4; 5; 6] 2000 2000 "w1";
                    CallRequestHint (Some alice) 3000 3000 0 "p1";
                    CallConfirmPayment (Some "p1") (Some "tx1") 4000]).
  reflexivity.
Defined.

(** ** Duplicate confirmations *)

(** X32: the guard against duplicate confirmations.  A request that is
    stored as completed with its hint provided is acknowledged with the
    one response 200 "Payment already processed." and the store is left
    exactly as it was, whatever transaction id the call carries. *)
Theorem confirmPayment_duplicate_acknowledged pid txid ts s p :
  pid <> EmptyString -> txid <> EmptyString ->
  get_doc pid (payments s) = Some p ->
  Payment.status p = completed -> Payment.hintProvided p = true ->
  confirmPayment (Some pid) (Some txid) ts s = (s, [alreadyProcessed]).
Proof.
  intros Hpid Htx Hget Hst Hh.
  apply (confirmPayment_already_processed pid txid ts s p); try assumption.
  - cbn. apply String.eqb_neq, Hpid.
  - cbn. apply String.eqb_neq, Htx.
Qed.

Lemma confirmPayment_duplicate_acknowledged_witness :
  let p := Payment.mk "alice" "r1" HINT_PRICE_USDT completed 3000 true 2
             (Some "tx1") (Some 4000) in
  let s := mkStore (rounds demoHinted) (users demoHinted) (userCodes demoHinted) []
             [("p1", p)] in
  confirmPayment (Some "p1") (Some "tx2") 9000 s = (s, [alreadyProcessed]).
Proof.
  intros p s.
  apply (confirmPayment_duplicate_acknowledged "p1" "tx2" 9000 s p).
  - discriminate.
  - discriminate.
  - reflexivity.
  - reflexivity.
  - reflexivity.
Defined.
